(** * Smart energy monitor (main.py): object model, program and properties

    The script simulates appliance readings, publishes them over MQTT and
    derives suggestions from the collected history.  The development below
    embeds it in layers:

    - [Py]: the fragment of Python the script runs on -- exceptions, values,
      a heap of mutable lists and dicts, binary64 floats (Rocq's primitive
      floats), the world the program acts on (heap, standard output, the MQTT
      client) and a monad of computations that may raise;
    - the library functions the script calls: [round], [json.dumps],
      [bytes.decode], the clock, the random generator and the paho client;
    - the script itself, one definition per source function, under the
      source's names;
    - readings and histories as the heap holds them, and the properties of
      the generator, the publishing loop, the advisor and the main block;
    - frames -- what a computation leaves alone, whatever the world it starts
      in --, and with them what the loop, the callbacks, the advisor and the
      main block do at their edges: when the outside fails, when the data is
      not what is expected, when nothing fails.

    The script creates one MQTT client; its state is a field of the world,
    and the functions that are handed the client take no argument for it.
    The two callbacks are run by the client's network thread, not by the
    script: each is embedded as a computation of its own, on the one argument
    it reads. *)

From Stdlib Require Import ZArith NArith Floats Lia.
From Stdlib Require Uint63.
From stdpp Require Import base gmap list strings pretty.

Set Warnings "-inexact-float,-register-all".
Set Default Proof Using "Type".

(* ================================================================== *)
(** * The Python fragment *)
(* ================================================================== *)

Module Py.

(** ** Exceptions *)

(** The exception classes that occur.  [KeyboardInterrupt] and [SystemExit]
    derive from [BaseException] only; all others derive from [Exception]. *)
Inductive exn_class :=
  | TypeError | KeyError | ValueError | AttributeError | OverflowError
  | OSError | RuntimeError
  | KeyboardInterrupt | SystemExit.

(** An exception instance: its class and [str(e)]. *)
Record exn := Exn { exn_class_of : exn_class; exn_msg : string }.

(** [isinstance(e, Exception)], the test an [except Exception] clause makes. *)
Definition is_Exception (e : exn) : bool :=
  match exn_class_of e with
  | KeyboardInterrupt | SystemExit => false
  | _ => true
  end.

(** ** Values and the heap *)

Definition loc := positive.

(** Immutable values are carried as they are, lists and dicts by reference.
    [VTimestamp] is a [pandas.Timestamp] (nanoseconds since the epoch). *)
Inductive value :=
  | VInt (n : Z)
  | VFloat (x : float)
  | VStr (s : string)
  | VTimestamp (ns : Z)
  | VRef (l : loc).

(** A dict keeps its entries in insertion order; every dict of the script is
    keyed by strings. *)
Inductive obj :=
  | OList (items : list value)
  | ODict (entries : list (string * value)).

Abbreviation heap := (gmap loc obj).

Fixpoint dict_get (entries : list (string * value)) (k : string) : option value :=
  match entries with
  | [] => None
  | (k', v) :: rest => if decide (k' = k) then Some v else dict_get rest k
  end.

(** ** What [print] shows *)

(** The deep content of a value, as [repr] walks it.  The decimal spelling of
    floats is not modelled: a printed object is recorded as this tree. *)
Inductive tree :=
  | TInt (n : Z)
  | TFloat (x : float)
  | TStr (s : string)
  | TTimestamp (ns : Z)
  | TList (items : list tree)
  | TDict (entries : list (string * tree))
  | TEllipsis.

(** [repr] prints a container met again on the way down as an ellipsis. *)
Fixpoint snapshot (fuel : nat) (path : list loc) (h : heap) (v : value) : tree :=
  match v with
  | VInt n => TInt n
  | VFloat x => TFloat x
  | VStr s => TStr s
  | VTimestamp ns => TTimestamp ns
  | VRef l =>
      if decide (l ∈ path) then TEllipsis else
      match fuel with
      | O => TEllipsis
      | S fuel' =>
          match h !! l with
          | Some (OList items) =>
              TList (map (snapshot fuel' (l :: path) h) items)
          | Some (ODict entries) =>
              TDict (map (λ kv, (kv.1, snapshot fuel' (l :: path) h kv.2)) entries)
          | None => TEllipsis
          end
      end
  end.

(** A line of output: literal text, or literal text followed by the [repr] of
    an object (an f-string with one field). *)
Inductive line :=
  | Line (text : string)
  | LineRepr (text : string) (t : tree).

(** ** JSON documents *)

(** The text [json.dumps] returns, kept as the document it spells. *)
Inductive json :=
  | JInt (n : Z)
  | JFloat (x : float)
  | JStr (s : string)
  | JArr (items : list json)
  | JObj (entries : list (string * json)).

(** ** The MQTT client and the world *)

Record mqtt_client := MqttClient {
  connected : option (string * Z * Z);   (* host, port, keepalive *)
  loop_running : bool;                   (* the background network thread *)
  published : list (string * json);      (* topic and payload, oldest first *)
}.

Record world := World {
  heap_of : heap;
  ticks : nat;                 (* calls made to the outside so far *)
  stdout : list line;          (* oldest first *)
  stderr : list exn;           (* tracebacks printed, oldest first *)
  mqtt : mqtt_client;
}.

(** What the outside answers: the clock, the random generator, and whether a
    call to the outside fails.  Each is indexed by the number of calls made
    before it. *)
Record oracle := Oracle {
  clock : nat → Z;
  random : nat → float;
  fault : nat → option exn;
}.

Definition with_heap (f : heap → heap) (w : world) : world :=
  World (f (heap_of w)) (ticks w) (stdout w) (stderr w) (mqtt w).
Definition with_ticks (f : nat → nat) (w : world) : world :=
  World (heap_of w) (f (ticks w)) (stdout w) (stderr w) (mqtt w).
Definition with_stdout (f : list line → list line) (w : world) : world :=
  World (heap_of w) (ticks w) (f (stdout w)) (stderr w) (mqtt w).
Definition with_stderr (f : list exn → list exn) (w : world) : world :=
  World (heap_of w) (ticks w) (stdout w) (f (stderr w)) (mqtt w).
Definition with_mqtt (f : mqtt_client → mqtt_client) (w : world) : world :=
  World (heap_of w) (ticks w) (stdout w) (stderr w) (f (mqtt w)).

(** ** Computations *)

(** A computation returns, raises, or is still running when the fuel given to
    its loops is used up. *)
Inductive outcome (A : Type) :=
  | Ret (a : A)
  | Raise (e : exn)
  | Running.
Arguments Ret {A} a.
Arguments Raise {A} e.
Arguments Running {A}.

Definition M (A : Type) : Type := oracle → world → outcome A * world.

Global Instance M_ret : MRet M := λ A a _ w, (Ret a, w).

Global Instance M_bind : MBind M := λ A B f m o w,
  match m o w with
  | (Ret a, w') => f a o w'
  | (Raise e, w') => (Raise e, w')
  | (Running, w') => (Running, w')
  end.

Global Instance M_throw : MThrow exn M := λ A e _ w, (Raise e, w).

Definition raise {A} (c : exn_class) (msg : string) : M A := mthrow (Exn c msg).

(** [try: body except Exception as e: handler(e)] *)
Definition try_except {A} (body : M A) (handler : exn → M A) : M A := λ o w,
  match body o w with
  | (Raise e, w') => if is_Exception e then handler e o w' else (Raise e, w')
  | r => r
  end.

(** [try: body finally: final].  The final block runs however the body ended;
    what the body raised is raised again after it, unless the block itself
    raises. *)
Definition try_finally (body : M unit) (final : M unit) : M unit := λ o w,
  match body o w with
  | (Ret _, w') => final o w'
  | (Raise e, w') =>
      match final o w' with
      | (Ret _, w'') => (Raise e, w'')
      | r => r
      end
  | (Running, w') => (Running, w')
  end.

(** [while True: body], unfolded at most [fuel] times. *)
Fixpoint while_true (fuel : nat) (body : M unit) : M unit :=
  match fuel with
  | O => λ _ w, (Running, w)
  | S fuel' => body ;; while_true fuel' body
  end.

Definition when (c : bool) (m : M unit) : M unit := if c then m else mret ().

(** ** Heap primitives *)

Definition alloc (ob : obj) : M value := λ _ w,
  let l := fresh (dom (heap_of w)) in
  (Ret (VRef l), with_heap <[l := ob]> w).

Definition deref (v : value) : M obj := λ _ w,
  match v with
  | VRef l =>
      match heap_of w !! l with
      | Some ob => (Ret ob, w)
      | None => (Raise (Exn RuntimeError "dangling reference"), w)
      end
  | _ => (Raise (Exn TypeError "not a container"), w)
  end.

(** [d[k]] for a string key *)
Definition getitem (d : value) (k : string) : M value :=
  ob ← deref d;
  match ob with
  | ODict entries =>
      match dict_get entries k with
      | Some v => mret v
      | None => raise KeyError k
      end
  | OList _ => raise TypeError "list indices must be integers or slices, not str"
  end.

(** The items a [for] over a list visits.  No loop body of the script writes
    to the list it walks, so these are the items read on entry. *)
Definition list_items (v : value) : M (list value) :=
  ob ← deref v;
  match ob with
  | OList items => mret items
  | ODict entries => mret (map (λ kv, VStr kv.1) entries)
  end.

(** [len(v)] *)
Definition py_len (v : value) : M value :=
  ob ← deref v;
  match ob with
  | OList items => mret (VInt (Z.of_nat (length items)))
  | ODict entries => mret (VInt (Z.of_nat (length entries)))
  end.

(** [l.append(x)] *)
Definition list_append (l : value) (x : value) : M unit := λ o w,
  match l with
  | VRef a =>
      match heap_of w !! a with
      | Some (OList items) => (Ret (), with_heap <[a := OList (items ++ [x])]> w)
      | Some (ODict _) => (Raise (Exn AttributeError "'dict' object has no attribute 'append'"), w)
      | None => (Raise (Exn RuntimeError "dangling reference"), w)
      end
  | _ => (Raise (Exn AttributeError "object has no attribute 'append'"), w)
  end.

Fixpoint for_each (items : list value) (body : value → M unit) : M unit :=
  match items with
  | [] => mret ()
  | x :: rest => body x ;; for_each rest body
  end.

(** ** Numbers *)

(** [float(n)] for an int: the nearest double, ties to even. *)
Definition float_of_int (n : Z) : float :=
  SF2Prim (binary_normalize prec emax n 0 false).

Definition to_float (n : Z) : M float :=
  let x := float_of_int n in
  if PrimFloat.is_infinity x
  then raise OverflowError "int too large to convert to float"
  else mret x.

(** Python compares an int with a float by their exact values. *)
Definition compare_int_float (a : Z) (y : float) : option comparison :=
  match Prim2SF y with
  | S754_nan => None
  | S754_infinity s => Some (if s then Gt else Lt)
  | S754_zero _ => Some (a ?= 0)%Z
  | S754_finite s m e =>
      Some (a * 2 ^ Z.max (- e) 0 ?= cond_Zopp s (Z.pos m) * 2 ^ Z.max e 0)%Z
  end.

(** [a + b] *)
Definition py_add (a b : value) : M value :=
  match a, b with
  | VInt m, VInt n => mret (VInt (m + n))
  | VInt m, VFloat y => x ← to_float m; mret (VFloat (x + y))
  | VFloat x, VInt n => y ← to_float n; mret (VFloat (x + y))
  | VFloat x, VFloat y => mret (VFloat (x + y))
  | _, _ => raise TypeError "unsupported operand type(s) for +"
  end.

(** [a * b] *)
Definition py_mul (a b : value) : M value :=
  match a, b with
  | VInt m, VInt n => mret (VInt (m * n))
  | VInt m, VFloat y => x ← to_float m; mret (VFloat (x * y))
  | VFloat x, VInt n => y ← to_float n; mret (VFloat (x * y))
  | VFloat x, VFloat y => mret (VFloat (x * y))
  | _, _ => raise TypeError "unsupported operand type(s) for *"
  end.

(** [a > b] *)
Definition py_gt (a b : value) : M bool :=
  match a, b with
  | VInt m, VInt n => mret (n <? m)%Z
  | VInt m, VFloat y =>
      mret (match compare_int_float m y with Some Gt => true | _ => false end)
  | VFloat x, VInt n =>
      mret (match compare_int_float n x with Some Lt => true | _ => false end)
  | VFloat x, VFloat y => mret (y <? x)%float
  | _, _ => raise TypeError "'>' not supported between these instances"
  end.

(** [v == n] for an int [n] *)
Definition py_eq_int (v : value) (n : Z) : bool :=
  match v with
  | VInt m => (m =? n)%Z
  | VFloat x => match compare_int_float n x with Some Eq => true | _ => false end
  | _ => false
  end.

(** [sum(f(d) for d in data)]: start from the int [0] and add the items from
    left to right.  (CPython 3.12 and later carry a compensation term along
    when the items are floats; the plain sum is modelled.) *)
Fixpoint sum_from (acc : value) (items : list value) (f : value → M value) : M value :=
  match items with
  | [] => mret acc
  | d :: rest => x ← f d; acc' ← py_add acc x; sum_from acc' rest f
  end.

Definition py_sum (data : value) (f : value → M value) : M value :=
  items ← list_items data;
  sum_from (VInt 0) items f.

(** ** Output *)

Definition print (ln : line) : M unit := λ _ w,
  (Ret (), with_stdout (λ out, out ++ [ln]) w).

(** [print(f"{text}{v}")]: a string is shown as it is, anything else by its
    [repr]. *)
Definition print_f (text : string) (v : value) : M unit := λ o w,
  match v with
  | VStr s => print (Line (text ++ s)) o w
  | _ => print (LineRepr text (snapshot (S (size (heap_of w))) [] (heap_of w) v)) o w
  end.

(** [traceback.print_exc()] inside the handler of [e] *)
Definition print_exc (e : exn) : M unit := λ _ w,
  (Ret (), with_stderr (λ err, err ++ [e]) w).

(** A call to the outside: it fails when the oracle says so. *)
Definition extern {A} (answer : oracle → nat → A) (effect : world → world) : M A := λ o w,
  let w' := with_ticks S w in
  match fault o (ticks w) with
  | Some e => (Raise e, w')
  | None => (Ret (answer o (ticks w)), effect w')
  end.

End Py.
Import Py.

(* ================================================================== *)
(** * Library functions the script calls *)
(* ================================================================== *)

(** ** [round(x, ndigits)] on a float *)

(** The quotient [n / d] rounded to the nearest integer, ties to even
    ([0 < d]). *)
Definition div_nearest_even (n d : Z) : Z :=
  let q := (n / d)%Z in
  match (2 * (n mod d) ?= d)%Z with
  | Lt => q
  | Gt => (q + 1)%Z
  | Eq => if Z.even q then q else (q + 1)%Z
  end.

(** The double nearest to [(-1)^s * k / 10^ndigits], ties to even: what
    reading the decimal string back gives. *)
Definition of_decimal (s : bool) (k : Z) (ndigits : nat) : float :=
  match k with
  | Z.pos p =>
      SF2Prim (SFdiv prec emax (S754_finite s p 0)
                 (S754_finite false (Pos.pow 10 (Pos.of_nat ndigits)) 0))
  | _ => if s then neg_zero else zero
  end.

(** [round(x, ndigits)] for [0 < ndigits]: the exact value of [x] is rounded
    to [ndigits] decimal places, ties to even, and the decimal result is
    converted back to the nearest double.  Zeros, infinities and NaN are
    returned as they are. *)
Definition py_round (x : float) (ndigits : nat) : float :=
  match Prim2SF x with
  | S754_finite s m e =>
      let scale := Z.pos (Pos.pow 10 (Pos.of_nat ndigits)) in
      let k := div_nearest_even (scale * Z.pos m * 2 ^ Z.max e 0) (2 ^ Z.max (- e) 0) in
      of_decimal s k ndigits
  | _ => x
  end.

(** ** [json.dumps] *)

Fixpoint mapM_sum {A B E} (f : A → E + B) (l : list A) : E + list B :=
  match l with
  | [] => inr []
  | x :: rest =>
      match f x with
      | inl e => inl e
      | inr y =>
          match mapM_sum f rest with
          | inl e => inl e
          | inr ys => inr (y :: ys)
          end
      end
  end.

(** The default encoder: ints, floats, strings, lists and dicts are encoded,
    entries in order; any other object is refused with [TypeError], and a
    container met again on the way down with [ValueError]. *)
Fixpoint json_encode (fuel : nat) (path : list loc) (h : heap) (v : value) : exn + json :=
  match v with
  | VInt n => inr (JInt n)
  | VFloat x => inr (JFloat x)
  | VStr s => inr (JStr s)
  | VTimestamp _ =>
      inl (Exn TypeError "Object of type Timestamp is not JSON serializable")
  | VRef l =>
      if decide (l ∈ path) then inl (Exn ValueError "Circular reference detected") else
      match fuel with
      | O => inl (Exn ValueError "Circular reference detected")
      | S fuel' =>
          match h !! l with
          | Some (OList items) =>
              match mapM_sum (json_encode fuel' (l :: path) h) items with
              | inl e => inl e
              | inr js => inr (JArr js)
              end
          | Some (ODict entries) =>
              match mapM_sum (λ kv, match json_encode fuel' (l :: path) h kv.2 with
                                    | inl e => inl e
                                    | inr j => inr (kv.1, j)
                                    end) entries with
              | inl e => inl e
              | inr js => inr (JObj js)
              end
          | None => inl (Exn RuntimeError "dangling reference")
          end
      end
  end.

Definition json_dumps (v : value) : M json := λ _ w,
  match json_encode (S (size (heap_of w))) [] (heap_of w) v with
  | inl e => (Raise e, w)
  | inr j => (Ret j, w)
  end.

(** ** [bytes.decode()] and text *)

(** A text is the list of its code points.  A [UnicodeDecodeError] names the
    bytes refused, from index [ude_start] up to [ude_end], and the reason. *)
Record unicode_decode_error := UnicodeDecodeError {
  ude_start : nat;
  ude_end : nat;
  ude_reason : string;
}.

(** The three errors of the decoder at a character that starts at index
    [pos]: a byte that starts no character; a byte that does not continue
    the character, after [seen] bytes that do; the end of the bytes, [left]
    bytes into the character. *)
Definition invalid_start {A} (pos : nat) : unicode_decode_error + A :=
  inl (UnicodeDecodeError pos (1 + pos) "invalid start byte").
Definition invalid_continuation {A} (pos seen : nat) : unicode_decode_error + A :=
  inl (UnicodeDecodeError pos (seen + pos) "invalid continuation byte").
Definition unexpected_end {A} (pos left : nat) : unicode_decode_error + A :=
  inl (UnicodeDecodeError pos (left + pos) "unexpected end of data").

Definition is_continuation (c : N) : bool := ((0x80 <=? c) && (c <? 0xC0))%N.

(** A character decoded, in front of what the rest decodes to. *)
Definition push {E} (c : N) (r : E + list N) : E + list N :=
  match r with
  | inl e => inl e
  | inr cs => inr (c :: cs)
  end.

(** The strict UTF-8 decoder, on the bytes from index [pos] on: the code
    points of the text, or the first error.  Overlong forms, surrogates and
    code points past U+10FFFF are refused at the second byte. *)
Fixpoint utf8_decode (pos : nat) (bs : list Byte.byte) : unicode_decode_error + list N :=
  match bs with
  | [] => inr []
  | b1 :: rest =>
      let ch := Byte.to_N b1 in
      if (ch <? 0x80)%N then push ch (utf8_decode (1 + pos) rest)
      else if (ch <? 0xC2)%N then invalid_start pos
      else if (ch <? 0xE0)%N then
        match rest with
        | [] => unexpected_end pos (length bs)
        | b2 :: rest =>
            let ch2 := Byte.to_N b2 in
            if negb (is_continuation ch2) then invalid_continuation pos 1
            else push (ch * 64 + ch2 - (0xC0 * 64 + 0x80))%N (utf8_decode (2 + pos) rest)
        end
      else if (ch <? 0xF0)%N then
        match rest with
        | [] => unexpected_end pos (length bs)
        | b2 :: rest =>
            let ch2 := Byte.to_N b2 in
            if negb (is_continuation ch2)
               || (if (ch2 <? 0xA0)%N then (ch =? 0xE0)%N else (ch =? 0xED)%N)
            then invalid_continuation pos 1
            else
              match rest with
              | [] => unexpected_end pos (length bs)
              | b3 :: rest =>
                  let ch3 := Byte.to_N b3 in
                  if negb (is_continuation ch3) then invalid_continuation pos 2
                  else push (ch * 4096 + ch2 * 64 + ch3
                             - (0xE0 * 4096 + 0x80 * 64 + 0x80))%N
                         (utf8_decode (3 + pos) rest)
              end
        end
      else if (ch <? 0xF5)%N then
        match rest with
        | [] => unexpected_end pos (length bs)
        | b2 :: rest =>
            let ch2 := Byte.to_N b2 in
            if negb (is_continuation ch2)
               || (if (ch2 <? 0x90)%N then (ch =? 0xF0)%N else (ch =? 0xF4)%N)
            then invalid_continuation pos 1
            else
              match rest with
              | [] => unexpected_end pos (length bs)
              | b3 :: rest =>
                  let ch3 := Byte.to_N b3 in
                  if negb (is_continuation ch3) then invalid_continuation pos 2
                  else
                    match rest with
                    | [] => unexpected_end pos (length bs)
                    | b4 :: rest =>
                        let ch4 := Byte.to_N b4 in
                        if negb (is_continuation ch4) then invalid_continuation pos 3
                        else push (ch * 262144 + ch2 * 4096 + ch3 * 64 + ch4
                                   - (0xF0 * 262144 + 0x80 * 4096 + 0x80 * 64 + 0x80))%N
                               (utf8_decode (4 + pos) rest)
                    end
              end
        end
      else invalid_start pos
  end.

(** A hexadecimal digit, in lower case. *)
Definition hex_digit (n : N) : string :=
  String.substring (N.to_nat n) 1 "0123456789abcdef".

(** [str(e)] for a [UnicodeDecodeError] of the utf-8 codec on [object]. *)
Definition decode_error_str (object : list Byte.byte) (e : unicode_decode_error) : string :=
  if decide (ude_end e = S (ude_start e)) then
    let b := Byte.to_N (default Byte.x00 (object !! ude_start e)) in
    "'utf-8' codec can't decode byte 0x"
      ++ hex_digit (b / 16) ++ hex_digit (b mod 16)
      ++ " in position " ++ pretty (ude_start e) ++ ": " ++ ude_reason e
  else
    "'utf-8' codec can't decode bytes in position "
      ++ pretty (ude_start e) ++ "-" ++ pretty (ude_end e - 1)%nat ++ ": " ++ ude_reason e.

(** The byte of a number below 256. *)
Definition byte_of (n : N) : Byte.byte := default Byte.x00 (Byte.of_N n).

(** The UTF-8 form of a code point. *)
Definition utf8_encode_char (c : N) : list Byte.byte :=
  if (c <? 0x80)%N then [byte_of c]
  else if (c <? 0x800)%N then
    [byte_of (0xC0 + c / 64); byte_of (0x80 + c mod 64)]%N
  else if (c <? 0x10000)%N then
    [byte_of (0xE0 + c / 4096); byte_of (0x80 + c / 64 mod 64); byte_of (0x80 + c mod 64)]%N
  else
    [byte_of (0xF0 + c / 262144); byte_of (0x80 + c / 4096 mod 64);
     byte_of (0x80 + c / 64 mod 64); byte_of (0x80 + c mod 64)]%N.

Definition utf8_encode (text : list N) : list Byte.byte :=
  text ≫= utf8_encode_char.

(** Where a text is held as a [string] -- in a [VStr], in a line of output
    --, the string is that of its UTF-8 bytes: for a text of ASCII
    characters, its characters. *)
Definition str_of_codepoints (text : list N) : string :=
  String.string_of_list_byte (utf8_encode text).

(** [b.decode()].  [UnicodeDecodeError] derives from [ValueError], and is
    raised as one. *)
Definition bytes_decode (b : list Byte.byte) : M value := λ _ w,
  match utf8_decode 0 b with
  | inl err => (Raise (Exn ValueError (decode_error_str b err)), w)
  | inr text => (Ret (VStr (str_of_codepoints text)), w)
  end.

(** ** The clock, the random generator, sleeping *)

(** [pd.Timestamp.now()] *)
Definition timestamp_now : M value :=
  extern (λ o t, VTimestamp (clock o t)) id.

(** [random.random()] *)
Definition random_random : M float :=
  extern (λ o t, random o t) id.

(** [random.uniform(a, b)], which is [a + (b - a) * random()] *)
Definition random_uniform (a b : float) : M float :=
  u ← random_random;
  mret (a + (b - a) * u)%float.

(** [time.sleep(secs)] *)
Definition time_sleep (secs : Z) : M unit :=
  extern (λ _ _, ()) id.

(** ** The paho MQTT client *)

(** [client.connect(host, port, keepalive)] *)
Definition client_connect (host : string) (port keepalive : Z) : M unit :=
  extern (λ _ _, ())
    (with_mqtt (λ c, MqttClient (Some (host, port, keepalive)) (loop_running c) (published c))).

(** [client.loop_start()] *)
Definition client_loop_start : M unit :=
  extern (λ _ _, ())
    (with_mqtt (λ c, MqttClient (connected c) true (published c))).

(** [client.loop_stop()]: the thread, if any, is told to stop and joined; a
    missing thread is reported by the return value, nothing is raised. *)
Definition client_loop_stop : M unit := λ _ w,
  (Ret (), with_mqtt (λ c, MqttClient (connected c) false (published c)) w).

(** [client.publish(topic, payload)]: the message goes out when the client is
    connected; otherwise the call reports it by its return value. *)
Definition client_publish (topic : string) (payload : json) : M unit :=
  extern (λ _ _, ())
    (with_mqtt (λ c,
       match connected c with
       | Some _ => MqttClient (connected c) (loop_running c) (published c ++ [(topic, payload)])
       | None => c
       end)).

(* ================================================================== *)
(** * The script *)
(* ================================================================== *)

(** The module's global list lives at a fixed address. *)
Definition ENERGY_DATA : loc := 1%positive.
Definition MQTT_BROKER : string := "mqtt.eclipse.org".
Definition MQTT_PORT : Z := 1883.
Definition MQTT_TOPIC : string := "home/energy".

Definition no_client : mqtt_client := MqttClient None false [].

(** The world when the [__main__] block starts. *)
Definition initial_world : world :=
  World {[ ENERGY_DATA := OList [] ]} 0 [] [] no_client.

Definition generate_energy_data : M value :=
  timestamp ← timestamp_now;
  heating ← random_uniform 0.5 3.0;
  cooling ← random_uniform 0.5 3.0;
  lighting ← random_uniform 0.1 0.5;
  electronics ← random_uniform 0.2 1.0;
  appliances ← alloc (ODict [
    ("heating", VFloat (py_round heating 2));
    ("cooling", VFloat (py_round cooling 2));
    ("lighting", VFloat (py_round lighting 2));
    ("electronics", VFloat (py_round electronics 2)) ]);
  alloc (ODict [ ("timestamp", timestamp); ("appliances", appliances) ]).

(** One turn of the publishing loop. *)
Definition publish_step : M unit :=
  energy_data ← generate_energy_data;
  list_append (VRef ENERGY_DATA) energy_data;;
  print_f "Publishing data: " energy_data;;
  payload ← json_dumps energy_data;
  client_publish MQTT_TOPIC payload;;
  time_sleep 5.

Definition publish_handler (e : exn) : M unit :=
  print (Line ("Error in publishing energy data: " ++ exn_msg e));;
  print_exc e.

Definition publish_energy_data (fuel : nat) : M unit :=
  try_except (while_true fuel publish_step) publish_handler.

(** The message the client hands to [on_message]. *)
Record mqtt_message := MqttMessage {
  msg_topic : string;
  msg_payload : list Byte.byte;
}.

(** [on_connect(client, userdata, flags, rc)]; only [rc] is read. *)
Definition on_connect (rc : value) : M unit :=
  if py_eq_int rc 0 then print (Line "Connected to MQTT Broker!")
  else print_f "Failed to connect, return code " rc.

Definition on_message_handler (e : exn) : M unit :=
  print (Line ("Error handling incoming message: " ++ exn_msg e));;
  print_exc e.

(** [on_message(client, userdata, msg)]; only [msg.payload] is read. *)
Definition on_message (msg : mqtt_message) : M unit :=
  try_except
    (text ← bytes_decode (msg_payload msg);
     print_f "Received message: " text)
    on_message_handler.

Definition HEATING : string := "Consider lowering the thermostat for heating.".
Definition COOLING : string := "Consider raising the thermostat for cooling.".
Definition LIGHTS : string := "Consider switching off lights in unoccupied rooms.".
Definition ELECTRONICS : string := "Consider unplugging unused electronics.".

Definition appliance (name : string) (d : value) : M value :=
  appliances ← getitem d "appliances";
  getitem appliances name.

Definition optimize_energy_usage (data : value) : M value :=
  total_heating ← py_sum data (appliance "heating");
  total_cooling ← py_sum data (appliance "cooling");
  total_lighting ← py_sum data (appliance "lighting");
  total_electronics ← py_sum data (appliance "electronics");
  suggestions ← alloc (OList []);
  c ← py_gt total_heating total_cooling;
  when c (list_append suggestions (VStr HEATING));;
  c ← py_gt total_cooling total_heating;
  when c (list_append suggestions (VStr COOLING));;
  n ← py_len data;
  bound ← py_mul (VFloat 0.3) n;
  c ← py_gt total_lighting bound;
  when c (list_append suggestions (VStr LIGHTS));;
  n ← py_len data;
  bound ← py_mul (VFloat 0.5) n;
  c ← py_gt total_electronics bound;
  when c (list_append suggestions (VStr ELECTRONICS));;
  mret suggestions.

(** The [__main__] block: the guarded part, its handler, the final block. *)
Definition main_try (fuel : nat) : M unit :=
  client_connect MQTT_BROKER MQTT_PORT 60;;
  client_loop_start;;
  publish_energy_data fuel.

Definition main_handler (e : exn) : M unit :=
  print (Line ("Error in setting up MQTT client: " ++ exn_msg e));;
  print_exc e.

Definition HEADER : string :=
  String (Ascii.ascii_of_nat 10) "Energy Usage Optimization Suggestions:".

Definition main_finally : M unit :=
  client_loop_stop;;
  optimizations ← optimize_energy_usage (VRef ENERGY_DATA);
  print (Line HEADER);;
  items ← list_items optimizations;
  for_each items (λ suggestion, print_f "- " suggestion).

Definition main (fuel : nat) : M unit :=
  try_finally (try_except (main_try fuel) main_handler) main_finally.

(* ================================================================== *)
(** * Readings and histories, as the heap holds them *)
(* ================================================================== *)

Record Reading := MkReading {
  timestamp : Z;
  heating : float;
  cooling : float;
  lighting : float;
  electronics : float;
}.

Inductive category := Heating | Cooling | Lighting | Electronics.

Definition key (c : category) : string :=
  match c with
  | Heating => "heating"
  | Cooling => "cooling"
  | Lighting => "lighting"
  | Electronics => "electronics"
  end.

Definition field (c : category) (r : Reading) : float :=
  match c with
  | Heating => heating r
  | Cooling => cooling r
  | Lighting => lighting r
  | Electronics => electronics r
  end.

Definition appliances_dict (r : Reading) : obj :=
  ODict [ ("heating", VFloat (heating r)); ("cooling", VFloat (cooling r));
          ("lighting", VFloat (lighting r)); ("electronics", VFloat (electronics r)) ].

Definition reading_dict (r : Reading) (appliances : loc) : obj :=
  ODict [ ("timestamp", VTimestamp (timestamp r)); ("appliances", VRef appliances) ].

(** [v] refers to a dict laid out as [generate_energy_data] builds it, holding
    the reading [r]. *)
Definition built_reading_at (h : heap) (v : value) (r : Reading) : Prop :=
  ∃ l la, v = VRef l ∧ h !! l = Some (reading_dict r la) ∧
          h !! la = Some (appliances_dict r).

(** [v] refers to a dict that holds the reading [r]: a timestamp under
    ["timestamp"] and, under ["appliances"], a dict with a float for each of
    the four categories.  The order of the entries does not matter, and other
    entries may be present. *)
Definition reading_at (h : heap) (v : value) (r : Reading) : Prop :=
  ∃ l la entries appliances,
    v = VRef l ∧ h !! l = Some (ODict entries) ∧
    dict_get entries "timestamp" = Some (VTimestamp (timestamp r)) ∧
    dict_get entries "appliances" = Some (VRef la) ∧
    h !! la = Some (ODict appliances) ∧
    ∀ c, dict_get appliances (key c) = Some (VFloat (field c r)).

(** A Python list holds at most [sys.maxsize = 2^63 - 1] items. *)
Definition maxsize : Z := 2 ^ 63 - 1.

(** [data] refers to a list of such dicts: the history [rs], oldest first. *)
Definition history_at (h : heap) (data : value) (rs : list Reading) : Prop :=
  ∃ l items, data = VRef l ∧ h !! l = Some (OList items) ∧
             Forall2 (reading_at h) items rs ∧
             (Z.of_nat (length items) ≤ maxsize)%Z.

(** The total of a category over a history: floats added from left to right,
    as [sum] adds them. *)
Definition total (c : category) (rs : list Reading) : float :=
  fold_left PrimFloat.add (map (field c) rs) 0%float.

(** The number of readings as the float it is multiplied as. *)
Definition count (rs : list Reading) : float :=
  float_of_int (Z.of_nat (length rs)).

(** The four rules, in the order the advisor checks them. *)
Definition heating_fires (rs : list Reading) : bool :=
  (total Cooling rs <? total Heating rs)%float.
Definition cooling_fires (rs : list Reading) : bool :=
  (total Heating rs <? total Cooling rs)%float.
Definition lights_fires (rs : list Reading) : bool :=
  (0.3 * count rs <? total Lighting rs)%float.
Definition electronics_fires (rs : list Reading) : bool :=
  (0.5 * count rs <? total Electronics rs)%float.

Definition advice (rs : list Reading) : list string :=
  (if heating_fires rs then [HEATING] else []) ++
  (if cooling_fires rs then [COOLING] else []) ++
  (if lights_fires rs then [LIGHTS] else []) ++
  (if electronics_fires rs then [ELECTRONICS] else []).

(** What a call of the advisor returned: the strings of the list it built. *)
Definition returned_list (res : outcome value * world) : option (list value) :=
  match res with
  | (Ret (VRef l), w) =>
      match heap_of w !! l with
      | Some (OList items) => Some items
      | _ => None
      end
  | _ => None
  end.

(* ================================================================== *)
(** * What the properties speak of *)
(* ================================================================== *)

(** ** The generator *)

(** [lo <= x <= hi], as Python compares floats. *)
Definition within (lo hi x : float) : Prop :=
  (lo <=? x)%float = true ∧ (x <=? hi)%float = true.

(** [x] is a decimal with two digits after the point, as a double: a whole
    number of hundredths divided by 100 (both are exact doubles, and the
    division rounds to the nearest double). *)
Definition two_decimals (x : float) : Prop :=
  ∃ k : Z, (0 ≤ k < 2 ^ 53)%Z ∧ x = (float_of_int k / 100)%float.

(** What [random.random()] promises: a number in the half-open interval
    from 0.0 to 1.0. *)
Definition random_in_unit_interval (o : oracle) : Prop :=
  ∀ t, (0 <=? random o t)%float = true ∧ (random o t <? 1)%float = true.

(** The reading built from the clock and the four draws that follow call
    number [t]. *)
Definition drawn_reading (o : oracle) (t : nat) : Reading :=
  MkReading (clock o t)
    (py_round (0.5 + (3.0 - 0.5) * random o (1 + t)) 2)
    (py_round (0.5 + (3.0 - 0.5) * random o (2 + t)) 2)
    (py_round (0.1 + (0.5 - 0.1) * random o (3 + t)) 2)
    (py_round (0.2 + (1.0 - 0.2) * random o (4 + t)) 2).

(** ** The callbacks *)

(** A Unicode scalar value: a code point that is no surrogate. *)
Definition scalar_value (c : N) : Prop :=
  (c < 0xD800 ∨ 0xE000 ≤ c < 0x110000)%N.

(** ** The publishing loop and the main block *)

(** The exception [json.dumps] raises on a [Timestamp]. *)
Definition not_serializable : exn :=
  Exn TypeError "Object of type Timestamp is not JSON serializable".

(** What the two handlers leave behind: a line on the output and the
    traceback. *)
Definition logged (text : string) (e : exn) (w : world) : world :=
  with_stderr (λ err, err ++ [e]) (with_stdout (λ out, out ++ [Line (text ++ exn_msg e)]) w).

(** [steps o k w w']: [k] turns of the loop, started in [w], all returned and
    left the world [w']. *)
Inductive steps (o : oracle) : nat → world → world → Prop :=
  | steps_done w : steps o 0 w w
  | steps_turn k w w1 w2 :
      publish_step o w = (Ret (), w1) → steps o k w1 w2 → steps o (S k) w w2.

Definition bullet (s : string) : line := Line ("- " ++ s).

(** The world the final block leaves, entered in [w] with the history [rs]
    behind [ENERGY_DATA]: the network thread stopped, the advisor's list
    allocated, the header and one line per suggestion printed. *)
Definition finalized (w : world) (rs : list Reading) : world :=
  World (<[fresh (dom (heap_of w)) := OList (VStr <$> advice rs)]> (heap_of w))
    (ticks w)
    (stdout w ++ Line HEADER :: (bullet <$> advice rs))
    (stderr w)
    (MqttClient (connected (mqtt w)) false (published (mqtt w))).

(** What [repr] shows of a reading. *)
Definition reading_tree (r : Reading) : tree :=
  TDict [ ("timestamp", TTimestamp (timestamp r));
          ("appliances",
           TDict [ ("heating", TFloat (heating r)); ("cooling", TFloat (cooling r));
                   ("lighting", TFloat (lighting r));
                   ("electronics", TFloat (electronics r)) ]) ].

(** The world a turn leaves when the outside answers and [ENERGY_DATA] is a
    list: the reading built, appended and printed. *)
Definition turn_world (o : oracle) (w : world) (items : list value) : world :=
  let r := drawn_reading o (ticks w) in
  let la := fresh (dom (heap_of w)) in
  let l := fresh (dom (<[la := appliances_dict r]> (heap_of w))) in
  World (<[ENERGY_DATA := OList (items ++ [VRef l])]>
           (<[l := reading_dict r la]> (<[la := appliances_dict r]> (heap_of w))))
    (5 + ticks w)
    (stdout w ++ [LineRepr "Publishing data: " (reading_tree r)])
    (stderr w) (mqtt w).

(** ** Frames *)

(** [m] never leaves a loop running. *)
Definition halts {A} (m : M A) : Prop := ∀ o w, (m o w).1 ≠ Running.

(** Every run of [m] takes a world to one related by [R]. *)
Definition keeps {A} (R : relation world) (m : M A) : Prop := ∀ o w, R w (m o w).2.

(** Dicts stay as they are and lists keep their items, in a heap that may
    have gained objects and list items. *)
Definition grows (h h' : heap) : Prop :=
  (∀ l entries, h !! l = Some (ODict entries) → h' !! l = Some (ODict entries)) ∧
  (∀ l items, h !! l = Some (OList items) → ∃ more, h' !! l = Some (OList (items ++ more))).

(** Nothing went to the outside: no call was made and the client is as it
    was; the heap and the output have at most grown. *)
Definition calm (w w' : world) : Prop :=
  grows (heap_of w) (heap_of w') ∧ ticks w' = ticks w ∧ mqtt w' = mqtt w ∧
  stdout w `prefix_of` stdout w' ∧ stderr w `prefix_of` stderr w'.

(** The world has at most grown: heap, output, calls made and messages sent. *)
Definition evolves (w w' : world) : Prop :=
  grows (heap_of w) (heap_of w') ∧ (ticks w ≤ ticks w')%nat ∧
  published (mqtt w) `prefix_of` published (mqtt w') ∧
  stdout w `prefix_of` stdout w' ∧ stderr w `prefix_of` stderr w'.

(* ================================================================== *)
(** * Example worlds *)
(* ================================================================== *)

(** An outside that never fails: the clock counts calls and every draw is
    the middle of its range. *)
Definition quiet_oracle : oracle :=
  Oracle (λ t, Z.of_nat t) (λ _, 0.5%float) (λ _, None).

(** Lays a history out in a heap: the global list at [ENERGY_DATA], the
    dicts of the readings behind it. *)
Fixpoint store_readings (next : loc) (rs : list Reading) (h : heap) : list value * heap :=
  match rs with
  | [] => ([], h)
  | r :: rest =>
      let '(items, h') :=
        store_readings (next + 2)%positive rest
          (<[(next + 1)%positive := reading_dict r next]> (<[next := appliances_dict r]> h)) in
      (VRef (next + 1)%positive :: items, h')
  end.

Definition world_with (rs : list Reading) : world :=
  let '(items, h) := store_readings 2%positive rs ∅ in
  World (<[ENERGY_DATA := OList items]> h) 0 [] [] no_client.

(** One reading dominated by heating; two readings with the lights on. *)
Definition heating_day : list Reading :=
  [ MkReading 0 1.0 0.2 0.1 0.1 ].
Definition bright_days : list Reading :=
  [ MkReading 0 0.5 0.5 0.5 0.2; MkReading 5 0.5 0.5 0.5 0.2 ].

(* ================================================================== *)
(** * Facts about binary64 *)
(* ================================================================== *)

(** The facts follow the standard library's specification of binary64
    ([SpecFloat]) and the axioms that tie the primitive operations to it. *)

Section binary64.
Local Open Scope Z_scope.

(** ** Bit lengths *)

Lemma digits2_pos_bounds p :
  2 ^ (Z.pos (digits2_pos p) - 1) <= Z.pos p < 2 ^ Z.pos (digits2_pos p).
Proof.
  induction p as [p IH|p IH|]; cbn [digits2_pos].
  - rewrite Pos2Z.inj_succ. replace (Z.succ (Z.pos (digits2_pos p)) - 1) with (Z.pos (digits2_pos p)) by lia.
    rewrite Z.pow_succ_r by lia.
    replace (2 ^ Z.pos (digits2_pos p)) with (2 * 2 ^ (Z.pos (digits2_pos p) - 1)) in *.
    2:{ rewrite <- Z.pow_succ_r by lia. f_equal. lia. }
    lia.
  - rewrite Pos2Z.inj_succ. replace (Z.succ (Z.pos (digits2_pos p)) - 1) with (Z.pos (digits2_pos p)) by lia.
    rewrite Z.pow_succ_r by lia.
    replace (2 ^ Z.pos (digits2_pos p)) with (2 * 2 ^ (Z.pos (digits2_pos p) - 1)) in *.
    2:{ rewrite <- Z.pow_succ_r by lia. f_equal. lia. }
    lia.
  - cbn. lia.
Qed.

Lemma Zdigits2_le m k : 0 <= k -> 0 <= m < 2 ^ k -> Zdigits2 m <= k.
Proof.
  intros Hk [H0 Hm]. destruct m as [|p|p]; cbn [Zdigits2]; try lia.
  destruct (Z_le_gt_dec (Z.pos (digits2_pos p)) k) as [|Hgt]; [done|].
  pose proof (digits2_pos_bounds p) as [Hlo _].
  assert (2 ^ k <= 2 ^ (Z.pos (digits2_pos p) - 1)) by (apply Z.pow_le_mono_r; lia).
  lia.
Qed.

Lemma Zdigits2_bounds m :
  0 < m -> 2 ^ (Zdigits2 m - 1) <= m < 2 ^ Zdigits2 m.
Proof. destruct m as [|p|p]; try lia. intros _. apply digits2_pos_bounds. Qed.

Lemma Zdigits2_pos m : 0 < m -> 0 < Zdigits2 m.
Proof. destruct m; cbn; lia. Qed.

Lemma Zdigits2_unique m k :
  0 < k -> 2 ^ (k - 1) <= m < 2 ^ k -> Zdigits2 m = k.
Proof.
  intros Hk [Hlo Hhi].
  assert (0 < m) as Hm by (pose proof (Z.pow_pos_nonneg 2 (k - 1)); lia).
  pose proof (Zdigits2_bounds m Hm) as [Hlo' Hhi'].
  pose proof (Zdigits2_pos m Hm).
  destruct (Z.lt_trichotomy (Zdigits2 m) k) as [Hlt|[Heq|Hgt]]; [|done|].
  - assert (2 ^ Zdigits2 m <= 2 ^ (k - 1)) by (apply Z.pow_le_mono_r; lia). lia.
  - assert (2 ^ k <= 2 ^ (Zdigits2 m - 1)) by (apply Z.pow_le_mono_r; lia). lia.
Qed.

Lemma Zdigits2_shift m k :
  0 < m -> 0 <= k -> Zdigits2 (m * 2 ^ k) = Zdigits2 m + k.
Proof.
  intros Hm Hk. pose proof (Zdigits2_bounds m Hm) as [Hlo Hhi].
  pose proof (Zdigits2_pos m Hm).
  assert (0 < 2 ^ k) by (apply Z.pow_pos_nonneg; lia).
  apply Zdigits2_unique; [lia|].
  replace (Zdigits2 m + k - 1) with ((Zdigits2 m - 1) + k) by lia.
  rewrite !Z.pow_add_r by lia. split.
  - apply Z.mul_le_mono_nonneg_r; lia.
  - apply Z.mul_lt_mono_pos_r; lia.
Qed.

Lemma Zdigits2_mono m1 m2 : 0 < m1 <= m2 -> Zdigits2 m1 <= Zdigits2 m2.
Proof.
  intros [H1 H12]. pose proof (Zdigits2_bounds m1 H1) as [Hlo1 _].
  pose proof (Zdigits2_bounds m2 ltac:(lia)) as [_ Hhi2].
  destruct (Z.le_gt_cases (Zdigits2 m1) (Zdigits2 m2)) as [|Hgt]; [done|].
  assert (2 ^ Zdigits2 m2 <= 2 ^ (Zdigits2 m1 - 1)).
  { apply Z.pow_le_mono_r; [lia|]. lia. }
  lia.
Qed.

Lemma pos_iter_xO m k : Z.pos (Pos.iter xO m k) = Z.pos m * 2 ^ Z.pos k.
Proof.
  induction k as [|k IH] using Pos.peano_ind.
  - cbn. lia.
  - rewrite Pos.iter_succ, Pos2Z.inj_succ, Z.pow_succ_r by lia.
    rewrite Pos2Z.inj_xO, IH. lia.
Qed.

(** ** Division rounded to nearest, and exact values *)

Lemma div_nearest_even_mono n1 n2 d :
  0 < d -> n1 <= n2 -> div_nearest_even n1 d <= div_nearest_even n2 d.
Proof.
  intros Hd Hn. unfold div_nearest_even.
  pose proof (Z.div_mod n1 d ltac:(lia)) as E1.
  pose proof (Z.div_mod n2 d ltac:(lia)) as E2.
  pose proof (Z.mod_pos_bound n1 d Hd) as B1.
  pose proof (Z.mod_pos_bound n2 d Hd) as B2.
  pose proof (Z.div_le_mono n1 n2 d Hd Hn) as Hq.
  generalize dependent (n1 mod d). generalize dependent (n2 mod d).
  generalize dependent (n1 / d). generalize dependent (n2 / d).
  intros q2 q1 Hq r2 E2 B2 r1 E1 B1.
  destruct (Z.eq_dec q1 q2) as [->|Hne].
  - assert (r1 <= r2) by lia.
    destruct (Z.compare_spec (2 * r1) d), (Z.compare_spec (2 * r2) d);
      destruct (Z.even q2); lia.
  - destruct (Z.compare_spec (2 * r1) d), (Z.compare_spec (2 * r2) d);
      destruct (Z.even q1), (Z.even q2); lia.
Qed.

Lemma div_nearest_even_scale n d c :
  0 < d -> 0 < c -> div_nearest_even (n * c) (d * c) = div_nearest_even n d.
Proof.
  intros Hd Hc. unfold div_nearest_even.
  rewrite Z.div_mul_cancel_r, Z.mul_mod_distr_r by lia.
  destruct (Z.compare_spec (2 * (n mod d * c)) (d * c)),
    (Z.compare_spec (2 * (n mod d)) d); try done; nia.
Qed.

Lemma div_nearest_even_1 m : div_nearest_even m 1 = m.
Proof. unfold div_nearest_even. rewrite Z.div_1_r, Z.mod_1_r. done. Qed.

Lemma div_nearest_even_multiple c g : 0 < g -> div_nearest_even (c * g) g = c.
Proof.
  intros Hg. unfold div_nearest_even. rewrite Z.div_mul, Z.mod_mul by lia.
  by destruct (Z.compare_spec (2 * 0) g); try lia.
Qed.

Lemma div_nearest_even_bounds n d :
  0 < d -> n / d <= div_nearest_even n d <= n / d + 1.
Proof.
  intros. unfold div_nearest_even.
  destruct (2 * (n mod d) ?= d); try destruct (Z.even (n / d)); lia.
Qed.

(** The exact value of a finite double, in units of 2^-1074. *)
Definition units (m : positive) (e : Z) : Z := Z.pos m * 2 ^ (e + 1074).

Lemma units_pos m e : -1074 <= e -> 0 < units m e.
Proof. intros. unfold units. apply Z.mul_pos_pos; [lia|]. apply Z.pow_pos_nonneg; lia. Qed.

Lemma units_exponent m e X j :
  -1074 <= e -> units m e <= X -> X < 2 ^ (j + 1074) -> e < j.
Proof.
  intros He Hle Hlt. unfold units in Hle.
  assert (0 < 2 ^ (e + 1074)) by (apply Z.pow_pos_nonneg; lia).
  assert (2 ^ (e + 1074) <= Z.pos m * 2 ^ (e + 1074)) by nia.
  destruct (Z.lt_ge_cases e j) as [|Hge]; [done|].
  assert (2 ^ (j + 1074) <= 2 ^ (e + 1074)) by (apply Z.pow_le_mono_r; lia). lia.
Qed.

Lemma bounded_inv m e :
  bounded prec emax m e = true ->
  -1074 <= e <= 971 /\ Z.pos m < 2 ^ 53 /\ (e = -1074 \/ 2 ^ 52 <= Z.pos m).
Proof.
  unfold bounded, canonical_mantissa, fexp, SpecFloat.emin, prec, emax.
  intros [Hc He%Z.leb_le]%andb_prop. apply Z.eqb_eq in Hc.
  pose proof (digits2_pos_bounds m) as [Hlo Hhi].
  assert (Z.pos (digits2_pos m) <= 53) as Hd by lia.
  split; [lia|]. split.
  - eapply Z.lt_le_trans; [exact Hhi|]. apply Z.pow_le_mono_r; lia.
  - destruct (Z.eq_dec e (-1074)) as [|Hne]; [by left|right].
    assert (Z.pos (digits2_pos m) = 53) as Hd53 by lia.
    by rewrite Hd53 in Hlo.
Qed.

Lemma units_lt m1 e1 m2 e2 :
  bounded prec emax m1 e1 = true -> bounded prec emax m2 e2 = true ->
  e1 < e2 -> units m1 e1 < units m2 e2.
Proof.
  intros (He1 & Hm1 & _)%bounded_inv (He2 & _ & Hm2)%bounded_inv Hlt.
  destruct Hm2 as [|Hm2]; [lia|]. unfold units.
  set (P := 2 ^ (e1 + 1074)). set (A := 2 ^ (e2 - e1 - 1)).
  assert (0 < P) by (apply Z.pow_pos_nonneg; lia).
  assert (1 <= A) by (apply (Z.pow_le_mono_r 2 0); lia).
  assert (2 ^ (e2 + 1074) = A * (2 * P)) as ->.
  { subst A P. replace (e2 + 1074) with ((e2 - e1 - 1) + (1 + (e1 + 1074))) by lia.
    by rewrite !Z.pow_add_r by lia. }
  apply Z.lt_le_trans with (2 ^ 53 * P).
  { apply Z.mul_lt_mono_pos_r; lia. }
  change (2 ^ 53) with (2 ^ 52 * 2).
  rewrite <- Z.mul_assoc, (Z.mul_assoc (Z.pos m2)).
  apply Z.mul_le_mono_nonneg_r; [lia|].
  generalize dependent (2 ^ 52). intros c Hc. nia.
Qed.

Lemma SFleb_units m1 e1 m2 e2 :
  bounded prec emax m1 e1 = true -> bounded prec emax m2 e2 = true ->
  SFleb (S754_finite false m1 e1) (S754_finite false m2 e2) = true ->
  units m1 e1 <= units m2 e2.
Proof.
  intros B1 B2. unfold SFleb, SFcompare.
  destruct (Z.compare_spec e1 e2) as [->|Hlt|Hgt].
  - rewrite Pos.compare_cont_spec. cbn [Pos.switch_Eq].
    destruct (Pos.compare_spec m1 m2) as [->|Hm|Hm]; intros ?; try done.
    unfold units. apply Z.mul_le_mono_nonneg_r; [|lia].
    apply Z.pow_nonneg. lia.
  - intros _. pose proof (units_lt _ _ _ _ B1 B2 Hlt). lia.
  - done.
Qed.

Lemma round_units m e :
  -1074 <= e ->
  div_nearest_even (100 * Z.pos m * 2 ^ Z.max e 0) (2 ^ Z.max (- e) 0)
  = div_nearest_even (100 * units m e) (2 ^ 1074).
Proof.
  intros He. unfold units.
  destruct (Z.le_gt_cases 0 e).
  - rewrite Z.max_l, Z.max_r by lia. change (2 ^ 0) with 1.
    rewrite <- (div_nearest_even_scale _ 1 (2 ^ 1074)) by lia.
    f_equal; try lia. rewrite Z.pow_add_r by lia. lia.
  - rewrite Z.max_r, Z.max_l by lia. rewrite Z.mul_1_r.
    assert (0 < 2 ^ (- e)) by (apply Z.pow_pos_nonneg; lia).
    assert (0 < 2 ^ (e + 1074)) by (apply Z.pow_pos_nonneg; lia).
    rewrite <- (div_nearest_even_scale _ (2 ^ (- e)) (2 ^ (e + 1074))) by lia.
    f_equal; try lia. rewrite <- Z.pow_add_r by lia. f_equal. lia.
Qed.

(** ** Shifting right with round and sticky bits *)

Lemma shr_1_spec m r s :
  0 <= m ->
  shr_1 (Build_shr_record m r s) = Build_shr_record (m / 2) (Z.odd m) (r || s).
Proof.
  intros Hm. destruct m as [|[p|p|]|p]; try lia; cbn [shr_1].
  - done.
  - f_equal. rewrite Pos2Z.inj_xI. 
    replace (2 * Z.pos p + 1) with (1 + Z.pos p * 2) by lia.
    rewrite Z.div_add by lia. done.
  - f_equal. rewrite Pos2Z.inj_xO, Z.mul_comm, Z.div_mul by lia. done.
  - done.
Qed.

(** After [k >= 1] shifts of [m]: the quotient, the bit shifted out last and
    whether anything below it was set. *)
Definition shifted (m k : Z) (mrs : shr_record) : Prop :=
  shr_m mrs = m / 2 ^ k /\
  shr_r mrs = Z.odd (m / 2 ^ (k - 1)) /\
  shr_s mrs = negb (m mod 2 ^ (k - 1) =? 0).

Lemma shifted_first m :
  0 <= m -> shifted m 1 (shr_1 (Build_shr_record m false false)).
Proof.
  intros Hm. rewrite shr_1_spec by done. unfold shifted. cbn [shr_m shr_r shr_s].
  change (2 ^ (1 - 1)) with 1. rewrite Z.div_1_r, Z.mod_1_r. done.
Qed.

Lemma shifted_next m k mrs :
  0 <= m -> 1 <= k -> shifted m k mrs -> shifted m (k + 1) (shr_1 mrs).
Proof.
  intros Hm Hk (Hq & Hr & Hs). destruct mrs as [q r s]. cbn [shr_m shr_r shr_s] in *.
  assert (0 < 2 ^ (k - 1)) by (apply Z.pow_pos_nonneg; lia).
  assert (2 ^ k = 2 ^ (k - 1) * 2) as Hpow.
  { replace k with ((k - 1) + 1) at 1 by lia. by rewrite Z.pow_add_r by lia. }
  rewrite shr_1_spec by (subst q; apply Z.div_pos; [lia|apply Z.pow_pos_nonneg; lia]).
  unfold shifted. cbn [shr_m shr_r shr_s].
  replace (k + 1 - 1) with k by lia. split_and!.
  - subst q. rewrite Z.div_div by (try apply Z.pow_pos_nonneg; lia).
    f_equal. rewrite Z.pow_add_r by lia. done.
  - by subst q.
  - subst r s. rewrite Hpow, Z.rem_mul_r by lia.
    pose proof (Z.mod_pos_bound m (2 ^ (k - 1)) ltac:(lia)).
    rewrite <- Z.bit0_mod, Z.bit0_odd.
    destruct (Z.odd (m / 2 ^ (k - 1))); cbn [Z.b2z orb].
    + symmetry. apply negb_true_iff, Z.eqb_neq. lia.
    + f_equal. f_equal. lia.
Qed.

Lemma shifted_iter m p : 
  0 <= m ->
  (shifted m (Z.pos p) (SpecFloat.iter_pos shr_1 p (Build_shr_record m false false))) /\
  (forall k mrs, 1 <= k -> shifted m k mrs ->
     shifted m (k + Z.pos p) (SpecFloat.iter_pos shr_1 p mrs)).
Proof.
  intros Hm. induction p as [p [IH0 IH]|p [IH0 IH]|]; cbn [SpecFloat.iter_pos].
  - assert (forall k mrs, 1 <= k -> shifted m k mrs ->
              shifted m (k + Z.pos p~1) (SpecFloat.iter_pos shr_1 p (SpecFloat.iter_pos shr_1 p (shr_1 mrs)))) as Hgen.
    { intros k mrs Hk H. replace (k + Z.pos p~1) with (k + 1 + Z.pos p + Z.pos p) by lia.
      apply IH; [lia|]. apply IH; [lia|]. by apply shifted_next. }
    split; [|done].
    replace (Z.pos p~1) with (1 + Z.pos p + Z.pos p) by lia.
    apply IH; [lia|]. apply IH; [lia|]. by apply shifted_first.
  - split.
    + replace (Z.pos p~0) with (Z.pos p + Z.pos p) by lia. apply IH; [lia|done].
    + intros k mrs Hk H. replace (k + Z.pos p~0) with (k + Z.pos p + Z.pos p) by lia.
      apply IH; [lia|]. by apply IH.
  - split; [by apply shifted_first|]. intros k mrs Hk H. by apply shifted_next.
Qed.

Lemma shifted_round m k mrs :
  0 <= m -> 1 <= k -> shifted m k mrs ->
  round_nearest_even (shr_m mrs) (loc_of_shr_record mrs) = div_nearest_even m (2 ^ k).
Proof.
  intros Hm Hk (Hq & Hr & Hs). destruct mrs as [q r s]. cbn [shr_m shr_r shr_s] in *.
  assert (0 < 2 ^ (k - 1)) by (apply Z.pow_pos_nonneg; lia).
  assert (2 ^ k = 2 ^ (k - 1) * 2) as Hpow.
  { replace k with ((k - 1) + 1) at 1 by lia. by rewrite Z.pow_add_r by lia. }
  unfold div_nearest_even. rewrite <- Hq.
  assert (m mod 2 ^ k = m mod 2 ^ (k - 1) + 2 ^ (k - 1) * Z.b2z r) as Hrem.
  { rewrite Hpow, Z.rem_mul_r by lia. rewrite <- Z.bit0_mod, Z.bit0_odd. by subst r. }
  pose proof (Z.mod_pos_bound m (2 ^ (k - 1)) ltac:(lia)) as Hb.
  rewrite Hrem, Hpow.
  destruct r, s; cbn [loc_of_shr_record round_nearest_even Z.b2z].
  - symmetry in Hs. apply negb_true_iff, Z.eqb_neq in Hs.
    destruct (Z.compare_spec (2 * (m mod 2 ^ (k - 1) + 2 ^ (k - 1) * 1)) (2 ^ (k - 1) * 2)); lia.
  - symmetry in Hs. apply negb_false_iff, Z.eqb_eq in Hs. rewrite Hs.
    destruct (Z.compare_spec (2 * (0 + 2 ^ (k - 1) * 1)) (2 ^ (k - 1) * 2)); lia.
  - symmetry in Hs. apply negb_true_iff, Z.eqb_neq in Hs.
    destruct (Z.compare_spec (2 * (m mod 2 ^ (k - 1) + 2 ^ (k - 1) * 0)) (2 ^ (k - 1) * 2)); lia.
  - symmetry in Hs. apply negb_false_iff, Z.eqb_eq in Hs. rewrite Hs.
    destruct (Z.compare_spec (2 * (0 + 2 ^ (k - 1) * 0)) (2 ^ (k - 1) * 2)); lia.
Qed.

Lemma fexp_ge_emin z : -1074 <= fexp prec emax z.
Proof. unfold fexp, SpecFloat.emin, prec, emax. lia. Qed.

Lemma fexp_mono z1 z2 : z1 <= z2 -> fexp prec emax z1 <= fexp prec emax z2.
Proof. unfold fexp, SpecFloat.emin, prec, emax. lia. Qed.

Lemma shr_fexp_round m e :
  0 <= m ->
  let n := Z.max (fexp prec emax (Zdigits2 m + e) - e) 0 in
  snd (shr_fexp prec emax m e loc_Exact) = e + n /\
  shr_m (fst (shr_fexp prec emax m e loc_Exact)) = m / 2 ^ n /\
  round_nearest_even (shr_m (fst (shr_fexp prec emax m e loc_Exact)))
    (loc_of_shr_record (fst (shr_fexp prec emax m e loc_Exact)))
  = div_nearest_even m (2 ^ n).
Proof.
  intros Hm n. subst n. unfold shr_fexp, shr.
  destruct (fexp prec emax (Zdigits2 m + e) - e) as [|p|p] eqn:E; cbn [fst snd shr_record_of_loc].
  - change (Z.max 0 0) with 0. cbn [shr_m loc_of_shr_record round_nearest_even].
    change (2 ^ 0) with 1. rewrite Z.div_1_r, div_nearest_even_1. split_and!; [lia|done..].
  - rewrite Z.max_l by lia.
    destruct (shifted_iter m p Hm) as [Hs _]. split_and!; [done|apply Hs|].
    apply shifted_round; [done|lia|done].
  - rewrite Z.max_r by lia. cbn [shr_m loc_of_shr_record round_nearest_even].
    change (2 ^ 0) with 1. rewrite Z.div_1_r, div_nearest_even_1. split_and!; [lia|done..].
Qed.

(** ** Rounding keeps the order *)

(** Products and sums of doubles are the exact results rounded to the
    nearest double, ties to even.  The facts below follow [SFmul] and [SFadd]
    down to the shifts, and show that the rounding is monotone. *)

(** Values are whole numbers of units of [2^-K].  The grid of [V] is the
    spacing of the doubles around it; [rnd K V] is the multiple of the grid
    nearest to [V], ties to even. *)
Definition grid (K V : Z) : Z := 2 ^ (fexp prec emax (Zdigits2 V - K) + K).

Definition rnd (K V : Z) : Z := div_nearest_even V (grid K V) * grid K V.

Lemma grid_pos K V : 1074 <= K -> 0 < grid K V.
Proof. intros. apply Z.pow_pos_nonneg; [lia|]. pose proof (fexp_ge_emin (Zdigits2 V - K)). lia. Qed.

Lemma rnd_mono K V1 V2 :
  1074 <= K -> 0 < V1 <= V2 -> rnd K V1 <= rnd K V2.
Proof.
  intros HK [H1 H12]. unfold rnd.
  pose proof (grid_pos K V1 HK) as Hg1. pose proof (grid_pos K V2 HK) as Hg2.
  pose proof (fexp_mono (Zdigits2 V1 - K) (Zdigits2 V2 - K)
                ltac:(pose proof (Zdigits2_mono V1 V2); lia)) as HF.
  pose proof (fexp_ge_emin (Zdigits2 V1 - K)) as HF1.
  destruct (Z.eq_dec (fexp prec emax (Zdigits2 V1 - K)) (fexp prec emax (Zdigits2 V2 - K)))
    as [Heq|Hne].
  - unfold grid in *. rewrite Heq in *.
    apply Z.mul_le_mono_nonneg_r; [lia|]. by apply div_nearest_even_mono.
  - (* the boundary between the binades lies on both grids *)
    set (F1 := fexp prec emax (Zdigits2 V1 - K)) in *.
    set (F2 := fexp prec emax (Zdigits2 V2 - K)) in *.
    assert (F1 < F2) as Hlt by lia.
    assert (F2 = Zdigits2 V2 - K - 53) as HF2.
    { subst F2. unfold fexp, SpecFloat.emin, prec, emax in *. lia. }
    assert (Zdigits2 V1 - K - 53 <= F1) as HF1'.
    { subst F1. unfold fexp, SpecFloat.emin, prec, emax. lia. }
    set (B := 2 ^ (F2 + 52 + K)).
    pose proof (Zdigits2_bounds V1 H1) as [_ Hhi1].
    pose proof (Zdigits2_bounds V2 ltac:(lia)) as [Hlo2 _].
    assert (V1 <= B) as HV1.
    { subst B. assert (2 ^ Zdigits2 V1 <= 2 ^ (F2 + 52 + K)) by (apply Z.pow_le_mono_r; lia). lia. }
    assert (B <= V2) as HV2.
    { subst B. replace (F2 + 52 + K) with (Zdigits2 V2 - 1) by lia. done. }
    assert (B = 2 ^ (F2 + 52 - F1) * grid K V1) as HB1.
    { subst B. unfold grid. fold F1. rewrite <- Z.pow_add_r by lia. f_equal. lia. }
    assert (B = 2 ^ 52 * grid K V2) as HB2.
    { subst B. unfold grid. fold F2. rewrite <- Z.pow_add_r by lia. f_equal. lia. }
    apply Z.le_trans with B.
    + rewrite HB1. apply Z.mul_le_mono_nonneg_r; [lia|].
      rewrite <- (div_nearest_even_multiple (2 ^ (F2 + 52 - F1)) (grid K V1)) by done.
      apply div_nearest_even_mono; [done|]. by rewrite <- HB1.
    + rewrite HB2. apply Z.mul_le_mono_nonneg_r; [lia|].
      rewrite <- (div_nearest_even_multiple (2 ^ 52) (grid K V2)) at 1 by done.
      apply div_nearest_even_mono; [done|]. by rewrite <- HB2.
Qed.

(** The value of a non-negative finite double in units of [2^-K]. *)
Definition SFunits (K : Z) (x : spec_float) : Z :=
  match x with
  | S754_finite false m e => Z.pos m * 2 ^ (e + K)
  | _ => 0
  end.

Definition nonneg_finite (x : spec_float) : Prop :=
  match x with
  | S754_zero false | S754_finite false _ _ => True
  | _ => False
  end.

Lemma SFunits_units K m e : SFunits K (S754_finite false m e) = Z.pos m * 2 ^ (e + K).
Proof. done. Qed.

Lemma SFunits_rescale x :
  valid_binary x = true -> SFunits 2148 x = SFunits 1074 x * 2 ^ 1074.
Proof.
  destruct x as [| | |[] m e]; try done. cbn [valid_binary SFunits].
  intros (He & _)%bounded_inv.
  replace (e + 2148) with ((e + 1074) + 1074) by lia. rewrite Z.pow_add_r by lia. lia.
Qed.

(** Rounding an exact positive value [mx * 2^ex]: the result is the value
    rounded to its grid. *)
Lemma binary_round_aux_units K mx ex :
  1074 <= K -> - K <= ex -> ex <= 971 -> 0 < mx -> Zdigits2 mx + ex <= 1023 ->
  nonneg_finite (binary_round_aux prec emax false mx ex loc_Exact) /\
  SFunits K (binary_round_aux prec emax false mx ex loc_Exact) = rnd K (mx * 2 ^ (ex + K)).
Proof.
  intros HK Hex Hex' Hmx Hd. unfold binary_round_aux.
  pose proof (shr_fexp_round mx ex ltac:(lia)) as (He1 & _ & Hm1).
  destruct (shr_fexp prec emax mx ex loc_Exact) as [mrs1 e1]. cbn [fst snd] in *.
  set (d := Zdigits2 mx) in *. set (F := fexp prec emax (d + ex)) in *.
  set (n1 := Z.max (F - ex) 0) in *.
  set (m1 := round_nearest_even (shr_m mrs1) (loc_of_shr_record mrs1)) in *.
  pose proof (Zdigits2_bounds mx Hmx) as [Hlo Hhi]. fold d in Hlo, Hhi.
  pose proof (Zdigits2_pos mx Hmx) as Hdpos. fold d in Hdpos.
  assert (0 < 2 ^ n1) as Hpow1 by (apply Z.pow_pos_nonneg; lia).
  pose proof (div_nearest_even_bounds mx (2 ^ n1) Hpow1) as Hb. rewrite <- Hm1 in Hb.
  assert (0 <= mx / 2 ^ n1) as Hq0 by (apply Z.div_pos; lia).
  pose proof (shr_fexp_round m1 e1 ltac:(lia)) as (He2 & Hq2 & _).
  destruct (shr_fexp prec emax m1 e1 loc_Exact) as [mrs2 e2]. cbn [fst snd] in *.
  set (n2 := Z.max (fexp prec emax (Zdigits2 m1 + e1) - e1) 0) in *.
  (* the second shift loses nothing, and the exponent stays in range *)
  assert (shr_m mrs2 * 2 ^ n2 = m1 /\ e2 <= 971) as [Hexact He2max].
  { rewrite Hq2. destruct (Z.le_gt_cases F ex) as [Hle|Hgt].
    - (* nothing was shifted out *)
      assert (n1 = 0) as Hn1 by lia. rewrite Hn1 in *. change (2 ^ 0) with 1 in *.
      rewrite div_nearest_even_1 in Hm1. rewrite Hm1 in *.
      assert (e1 = ex) as He1x by lia.
      assert (n2 = 0) as ->.
      { subst n2. rewrite He1x, Hm1. fold d. fold F. lia. }
      change (2 ^ 0) with 1. rewrite Z.div_1_r. lia.
    - assert (n1 = F - ex) as Hn1 by lia. assert (e1 = F) as HeF by lia.
      destruct (Z.eq_dec F (d + ex - 53)) as [HF|HF].
      + (* a normal number: 53 bits, or a carry into the 54th *)
        assert (n1 = d - 53) as Hn by lia.
        assert (2 ^ 52 <= mx / 2 ^ n1 < 2 ^ 53) as [Hq52 Hq53].
        { split.
          - apply Z.div_le_lower_bound; [lia|].
            rewrite <- Z.pow_add_r by lia. replace (n1 + 52) with (d - 1) by lia. lia.
          - apply Z.div_lt_upper_bound; [lia|].
            rewrite <- Z.pow_add_r by lia. replace (n1 + 53) with d by lia. lia. }
        destruct (Z.eq_dec m1 (2 ^ 53)) as [Hc|Hc].
        * assert (Zdigits2 m1 = 54) as Hd1 by (rewrite Hc; done).
          assert (n2 = 1) as ->.
          { subst n2. rewrite Hd1, HeF. unfold fexp, SpecFloat.emin, prec, emax in *. lia. }
          rewrite Hc. split; [done|]. unfold fexp, SpecFloat.emin, prec, emax in *. lia.
        * assert (Zdigits2 m1 = 53) as Hd1.
          { apply Zdigits2_unique; [lia|]. change (53 - 1) with 52. lia. }
          assert (n2 = 0) as ->.
          { subst n2. rewrite Hd1, HeF. unfold fexp, SpecFloat.emin, prec, emax in *. lia. }
          change (2 ^ 0) with 1. rewrite Z.div_1_r. split; [lia|].
          unfold fexp, SpecFloat.emin, prec, emax in *. lia.
      + (* a subnormal number *)
        assert (F = -1074) as HFmin.
        { subst F. unfold fexp, SpecFloat.emin, prec, emax in *. lia. }
        assert (d + ex - 53 < -1074) as Hsub.
        { subst F. unfold fexp, SpecFloat.emin, prec, emax in *. lia. }
        assert (mx / 2 ^ n1 < 2 ^ 52) as Hq52.
        { apply Z.div_lt_upper_bound; [lia|].
          rewrite <- Z.pow_add_r by lia.
          assert (2 ^ d <= 2 ^ (n1 + 52)) by (apply Z.pow_le_mono_r; lia). lia. }
        assert (Zdigits2 m1 <= 53) as Hd1.
        { destruct (Z.eq_dec m1 (2 ^ 52)) as [->|]; [done|].
          apply Zdigits2_le; [lia|]. 
          assert ((2:Z) ^ 52 < 2 ^ 53) by done. lia. }
        assert (n2 = 0) as ->.
        { subst n2. rewrite HeF, HFmin. unfold fexp, SpecFloat.emin, prec, emax. lia. }
        change (2 ^ 0) with 1. rewrite Z.div_1_r. lia. }
  assert (0 < 2 ^ n2) as Hpow2 by (apply Z.pow_pos_nonneg; lia).
  assert (0 <= shr_m mrs2) as Hq2pos by (rewrite Hq2; apply Z.div_pos; lia).
  (* the value rounded to the grid *)
  assert (rnd K (mx * 2 ^ (ex + K)) = m1 * 2 ^ (e1 + K)) as Hrnd.
  { unfold rnd, grid. rewrite Zdigits2_shift by lia. fold d.
    replace (d + (ex + K) - K) with (d + ex) by lia. fold F.
    assert (0 < 2 ^ (ex + K)) by (apply Z.pow_pos_nonneg; lia).
    destruct (Z.le_gt_cases F ex) as [Hle|Hgt].
    - assert (n1 = 0) as Hn1 by lia. rewrite Hn1 in *. change (2 ^ 0) with 1 in *.
      rewrite div_nearest_even_1 in Hm1. rewrite Hm1.
      replace e1 with ex by lia.
      pose proof (fexp_ge_emin (d + ex)) as HFmin. fold F in HFmin.
      assert (0 < 2 ^ (F + K)) by (apply Z.pow_pos_nonneg; lia).
      assert (2 ^ (ex + K) = 2 ^ (ex - F) * 2 ^ (F + K)) as ->.
      { rewrite <- Z.pow_add_r by lia. f_equal. lia. }
      rewrite Z.mul_assoc, div_nearest_even_multiple by lia. lia.
    - assert (n1 = F - ex) as Hn1 by lia.
      replace (F + K) with (n1 + (ex + K)) by lia.
      rewrite (Z.pow_add_r 2 n1 (ex + K)) by lia.
      rewrite div_nearest_even_scale by lia. rewrite Hm1.
      replace (e1 + K) with (n1 + (ex + K)) by lia.
      by rewrite (Z.pow_add_r 2 n1 (ex + K)) by lia. }
  rewrite Hrnd.
  assert (m1 * 2 ^ (e1 + K) = shr_m mrs2 * 2 ^ (e2 + K)) as ->.
  { rewrite <- Hexact. replace (e2 + K) with (n2 + (e1 + K)) by lia.
    rewrite (Z.pow_add_r 2 n2 (e1 + K)) by lia. lia. }
  destruct (shr_m mrs2) as [|q|q] eqn:Eq; [done| |lia].
  assert ((e2 <=? emax - prec) = true) as -> by (apply Z.leb_le; unfold emax, prec; lia).
  done.
Qed.

(** On valid non-negative doubles the order is the order of the values. *)
Lemma SFcompare_units a b :
  valid_binary a = true -> valid_binary b = true ->
  nonneg_finite a -> nonneg_finite b ->
  SFcompare a b = Some (SFunits 1074 a ?= SFunits 1074 b).
Proof.
  destruct a as [[]| | |[] ma ea], b as [[]| | |[] mb eb]; try done;
    cbn [valid_binary nonneg_finite SFunits SFcompare]; intros Va Vb _ _.
  - f_equal. symmetry. apply Z.compare_lt_iff.
    apply Z.mul_pos_pos; [lia|]. apply Z.pow_pos_nonneg; [lia|].
    apply bounded_inv in Vb. lia.
  - f_equal. symmetry. apply Z.compare_gt_iff.
    apply Z.mul_pos_pos; [lia|]. apply Z.pow_pos_nonneg; [lia|].
    apply bounded_inv in Va. lia.
  - f_equal. destruct (Z.compare_spec ea eb) as [->|Hlt|Hgt].
    + rewrite Pos.compare_cont_spec. cbn [Pos.switch_Eq].
      assert (0 < 2 ^ (eb + 1074)).
      { apply Z.pow_pos_nonneg; [lia|]. apply bounded_inv in Vb. lia. }
      change (ma ?= mb)%positive with (Z.pos ma ?= Z.pos mb).
      destruct (Z.compare_spec (Z.pos ma) (Z.pos mb)) as [Hm|Hm|Hm]; symmetry.
      * apply Z.compare_eq_iff. by rewrite Hm.
      * apply Z.compare_lt_iff. by apply Z.mul_lt_mono_pos_r.
      * apply Z.compare_gt_iff. by apply Z.mul_lt_mono_pos_r.
    + symmetry. apply Z.compare_lt_iff. by apply units_lt.
    + symmetry. apply Z.compare_gt_iff. by apply units_lt.
Qed.

Lemma SFleb_iff_units a b :
  valid_binary a = true -> valid_binary b = true ->
  nonneg_finite a -> nonneg_finite b ->
  SFleb a b = true <-> SFunits 1074 a <= SFunits 1074 b.
Proof.
  intros Va Vb Na Nb. unfold SFleb. rewrite SFcompare_units by done.
  destruct (Z.compare_spec (SFunits 1074 a) (SFunits 1074 b)); split; try done; lia.
Qed.

(** The product of two positive doubles is the exact product rounded. *)
Lemma SFmul_units mx ex my ey :
  bounded prec emax mx ex = true -> bounded prec emax my ey = true ->
  ex + ey <= 900 ->
  nonneg_finite (SFmul prec emax (S754_finite false mx ex) (S754_finite false my ey)) /\
  SFunits 2148 (SFmul prec emax (S754_finite false mx ex) (S754_finite false my ey))
  = rnd 2148 (units mx ex * units my ey).
Proof.
  intros Vx Vy Hsmall. cbn [SFmul xorb].
  pose proof (bounded_inv _ _ Vx) as (Hex & Hmx & _).
  pose proof (bounded_inv _ _ Vy) as (Hey & Hmy & _).
  assert (Zdigits2 (Z.pos (mx * my)) <= 106).
  { apply Zdigits2_le; [lia|]. split; [lia|]. rewrite Pos2Z.inj_mul.
    change (2 ^ 106) with (2 ^ 53 * 2 ^ 53). apply Z.mul_lt_mono_nonneg; lia. }
  pose proof (binary_round_aux_units 2148 (Z.pos (mx * my)) (ex + ey)
                ltac:(lia) ltac:(lia) ltac:(lia) ltac:(lia) ltac:(lia)) as [Hn Hu].
  split; [done|]. rewrite Hu. f_equal. unfold units. rewrite Pos2Z.inj_mul.
  replace (ex + ey + 2148) with ((ex + 1074) + (ey + 1074)) by lia.
  rewrite Z.pow_add_r by lia. lia.
Qed.

Lemma shl_align_units mx ex e0 :
  - 1074 <= e0 ->  - 1074 <= ex ->
  Z.pos (fst (shl_align mx ex e0)) * 2 ^ (snd (shl_align mx ex e0) + 1074) = units mx ex /\
  snd (shl_align mx ex e0) = Z.min ex e0.
Proof.
  intros H0 Hex. unfold shl_align, units.
  destruct (e0 - ex) as [|d|d] eqn:E; cbn [fst snd]; [split; [done|lia]..|].
  split; [|lia]. rewrite pos_iter_xO.
  replace (ex + 1074) with (Z.pos d + (e0 + 1074)) by lia.
  rewrite (Z.pow_add_r 2 (Z.pos d) (e0 + 1074)) by lia. lia.
Qed.

(** The sum of two positive doubles is the exact sum rounded. *)
Lemma SFadd_units mx ex my ey :
  bounded prec emax mx ex = true -> bounded prec emax my ey = true ->
  ex <= 900 -> ey <= 900 ->
  nonneg_finite (SFadd prec emax (S754_finite false mx ex) (S754_finite false my ey)) /\
  SFunits 1074 (SFadd prec emax (S754_finite false mx ex) (S754_finite false my ey))
  = rnd 1074 (units mx ex + units my ey).
Proof.
  intros Vx Vy Hx Hy. cbn [SFadd cond_Zopp].
  pose proof (bounded_inv _ _ Vx) as (Hex & Hmx & _).
  pose proof (bounded_inv _ _ Vy) as (Hey & Hmy & _).
  set (ez := Z.min ex ey).
  pose proof (shl_align_units mx ex ez ltac:(lia) ltac:(lia)) as [Hax Hax'].
  pose proof (shl_align_units my ey ez ltac:(lia) ltac:(lia)) as [Hay Hay'].
  set (ax := fst (shl_align mx ex ez)) in *. set (ay := fst (shl_align my ey ez)) in *.
  replace (snd (shl_align mx ex ez)) with ez in Hax by lia.
  replace (snd (shl_align my ey ez)) with ez in Hay by lia.
  change (Z.pos ax + Z.pos ay) with (Z.pos (ax + ay)). cbn [binary_normalize].
  unfold binary_round.
  set (m := (ax + ay)%positive).
  assert (Z.pos m * 2 ^ (ez + 1074) = units mx ex + units my ey) as Hsum.
  { subst m. rewrite Pos2Z.inj_add. lia. }
  pose proof (shl_align_units m ez (fexp prec emax (Z.pos (digits2_pos m) + ez))
                ltac:(apply fexp_ge_emin) ltac:(lia)) as [Hz Hz'].
  destruct (shl_align m ez (fexp prec emax (Z.pos (digits2_pos m) + ez))) as [mz ez'].
  cbn [fst snd] in *. unfold units in Hz.
  pose proof (fexp_ge_emin (Z.pos (digits2_pos m) + ez)).
  (* the size of the sum *)
  assert (0 < 2 ^ (ez + 1074)) by (apply Z.pow_pos_nonneg; lia).
  assert (0 < 2 ^ (ez' + 1074)) by (apply Z.pow_pos_nonneg; lia).
  assert (forall m e, Z.pos m < 2 ^ 53 -> -1074 <= e <= 900 -> units m e < 2 ^ 2027) as Hsize.
  { intros m0 e0 Hm0 He0. unfold units.
    apply Z.lt_le_trans with (2 ^ 53 * 2 ^ (e0 + 1074)).
    - apply Z.mul_lt_mono_pos_r; [apply Z.pow_pos_nonneg; lia|done].
    - rewrite <- Z.pow_add_r by lia. apply Z.pow_le_mono_r; lia. }
  assert (Zdigits2 (Z.pos mz) + ez' <= 1023) as Hd.
  { assert (Zdigits2 (Z.pos mz * 2 ^ (ez' + 1074)) <= 2028) as Hd'.
    { apply Zdigits2_le; [lia|]. split; [lia|]. rewrite Hz, Hsum.
      pose proof (Hsize mx ex Hmx ltac:(lia)). pose proof (Hsize my ey Hmy ltac:(lia)).
      replace (2 ^ 2028) with (2 ^ 2027 + 2 ^ 2027); [lia|].
      replace 2028 with (Z.succ 2027) by lia. rewrite Z.pow_succ_r by lia. lia. }
    rewrite Zdigits2_shift in Hd' by lia. lia. }
  pose proof (binary_round_aux_units 1074 (Z.pos mz) ez'
                ltac:(lia) ltac:(lia) ltac:(lia) ltac:(lia) Hd) as [Hn Hu].
  split; [done|]. by rewrite Hu, Hz, Hsum.
Qed.

(** [a + c * u] for [u] between 0 and 1 lies between [a] and [b], when the
    two ends do: the product and the sum are exact values rounded, and
    rounding keeps the order. *)
Lemma affine_within (a b c : float) ma ea mb eb mc ec (tmax : Z) (u : float) :
  Prim2SF a = S754_finite false ma ea ->
  Prim2SF b = S754_finite false mb eb ->
  Prim2SF c = S754_finite false mc ec ->
  ea <= 900 -> ec <= 900 ->
  rnd 2148 (units mc ec * 2 ^ 1074) = tmax * 2 ^ 1074 ->
  tmax < 2 ^ 1974 ->
  rnd 1074 (units ma ea) = units ma ea ->
  rnd 1074 (units ma ea + tmax) <= units mb eb ->
  within a b a ->
  within 0 1 u ->
  within a b (a + c * u)%float.
Proof.
  intros Ha Hb Hc Hea Hec Htmax Htsmall Hfix Hupper [Haa Hab] [Hu0 Hu1].
  assert (Prim2SF 0 = S754_zero false) as E0 by (vm_compute; reflexivity).
  assert (Prim2SF 1 = S754_finite false 4503599627370496 (-52)) as E1
    by (vm_compute; reflexivity).
  pose proof (Prim2SF_valid a) as Va. pose proof (Prim2SF_valid b) as Vb.
  pose proof (Prim2SF_valid c) as Vc. pose proof (Prim2SF_valid u) as Vu.
  pose proof (Prim2SF_valid 1) as V1.
  pose proof (Prim2SF_valid (c * u)) as Vt.
  pose proof (Prim2SF_valid (a + c * u)) as Vs.
  unfold within. rewrite leb_spec in Haa, Hab, Hu0, Hu1. rewrite !leb_spec.
  rewrite add_spec, mul_spec in *.
  rewrite Ha, Hb, Hc, ?E0, ?E1 in *.
  cbn [valid_binary] in Va, Vb, Vc, V1.
  pose proof (bounded_inv _ _ Va) as (Hea' & _). pose proof (bounded_inv _ _ Vc) as (Hec' & _).
  unfold SF64add, SF64mul in *.
  destruct (Prim2SF u) as [s|s| |s mu eu] eqn:Eu; try done; try (by destruct s).
  - destruct s; first done. cbn [valid_binary] in Vu.
    pose proof (bounded_inv _ _ Vu) as (Heu & _).
    apply (SFleb_iff_units (S754_finite false mu eu) (S754_finite false _ _)) in Hu1; try done.
    rewrite !SFunits_units in Hu1. change (4503599627370496 * 2 ^ (-52 + 1074)) with (2 ^ 1074) in Hu1.
    fold (units mu eu) in Hu1.
    pose proof (units_exponent mu eu _ 1 ltac:(lia) Hu1 ltac:(vm_compute; reflexivity)) as Heu0.
    (* the product *)
    pose proof (SFmul_units mc ec mu eu Vc Vu ltac:(lia)) as [Nt Ut].
    set (T := SFmul prec emax (S754_finite false mc ec) (S754_finite false mu eu)) in *.
    pose proof (units_pos mc ec ltac:(lia)). pose proof (units_pos mu eu ltac:(lia)).
    assert (SFunits 1074 T <= tmax) as Htle.
    { pose proof (rnd_mono 2148 (units mc ec * units mu eu) (units mc ec * 2 ^ 1074)
                    ltac:(lia) ltac:(nia)) as Hm.
      rewrite <- Ut, Htmax, SFunits_rescale in Hm by done.
      apply Z.mul_le_mono_pos_r in Hm; [done|]. by apply Z.pow_pos_nonneg. }
    destruct T as [[]| | |[] mt et] eqn:ET; try done.
    cbn [valid_binary] in Vt. rewrite SFunits_units in Htle. fold (units mt et) in Htle.
    pose proof (bounded_inv _ _ Vt) as (Het & _).
    pose proof (units_exponent mt et _ 900 ltac:(lia) Htle Htsmall) as Het'.
    (* the sum *)
    pose proof (SFadd_units ma ea mt et Va Vt ltac:(lia) ltac:(lia)) as [Ns Us].
    set (S := SFadd prec emax (S754_finite false ma ea) (S754_finite false mt et)) in *.
    pose proof (units_pos ma ea ltac:(lia)). pose proof (units_pos mt et ltac:(lia)).
    split.
    + apply SFleb_iff_units; try done. rewrite Us, SFunits_units. fold (units ma ea).
      rewrite <- Hfix at 1. apply rnd_mono; lia.
    + apply SFleb_iff_units; try done. rewrite Us, SFunits_units. fold (units mb eb).
      etrans; last exact Hupper. apply rnd_mono; lia.
Qed.

(** ** Conversion from integers *)

Lemma Prim2SF_float_of_int n :
  0 <= n < 2 ^ 63 -> Prim2SF (float_of_int n) = binary_normalize prec emax n 0 false.
Proof.
  intros Hn. unfold float_of_int.
  assert (binary_normalize prec emax n 0 false = Prim2SF (of_uint63 (Uint63.of_Z n))) as ->.
  { rewrite of_uint63_spec. f_equal.
    rewrite Uint63.of_Z_spec. symmetry. apply Z.mod_small. change Uint63.wB with (2 ^ 63). lia. }
  by rewrite SF2Prim_Prim2SF.
Qed.

Lemma binary_normalize_finite n :
  0 <= n < 2 ^ 63 -> nonneg_finite (binary_normalize prec emax n 0 false).
Proof.
  intros Hn. destruct n as [|m|m]; [done| |lia].
  cbn [binary_normalize]. unfold binary_round.
  pose proof (shl_align_units m 0 (fexp prec emax (Z.pos (digits2_pos m) + 0))
                ltac:(apply fexp_ge_emin) ltac:(lia)) as [Hz Hz'].
  destruct (shl_align m 0 (fexp prec emax (Z.pos (digits2_pos m) + 0))) as [mz ez].
  cbn [fst snd] in *.
  pose proof (fexp_ge_emin (Z.pos (digits2_pos m) + 0)).
  assert (Zdigits2 (Z.pos mz) + ez <= 1023) as Hd.
  { assert (Zdigits2 (Z.pos mz * 2 ^ (ez + 1074)) = Zdigits2 (Z.pos m * 2 ^ (0 + 1074))) as Hd'
      by (by rewrite Hz).
    rewrite !Zdigits2_shift in Hd' by lia.
    assert (Zdigits2 (Z.pos m) <= 63) by (apply Zdigits2_le; lia). lia. }
  by destruct (binary_round_aux_units 1074 (Z.pos mz) ez
                 ltac:(lia) ltac:(lia) ltac:(lia) ltac:(lia) Hd).
Qed.

(** An int a list can have as its length converts to a finite float. *)
Lemma float_of_int_finite n :
  0 <= n < 2 ^ 63 -> PrimFloat.is_infinity (float_of_int n) = false.
Proof.
  intros Hn. unfold is_infinity.
  rewrite FloatAxioms.eqb_spec, FloatAxioms.abs_spec, Prim2SF_float_of_int by done.
  pose proof (binary_normalize_finite n Hn) as H.
  by destruct (binary_normalize prec emax n 0 false) as [[]|[]| |[]].
Qed.

End binary64.

(** ** Order *)

Lemma SFcompare_swap a b :
  SFcompare b a = CompOpp <$> SFcompare a b.
Proof.
  destruct a as [sa|sa| |sa ma ea], b as [sb|sb| |sb mb eb]; cbn;
    repeat match goal with s : bool |- _ => destruct s end; cbn; try done.
  all: pose proof (Pos.compare_cont_antisym ma mb Eq) as Hm; cbn in Hm.
  all: rewrite (Z.compare_antisym ea eb), <- Hm.
  all: destruct (ea ?= eb)%Z; cbn; by rewrite ?CompOpp_involutive.
Qed.

Lemma float_ltb_asym (x y : float) :
  (x <? y)%float = true → (y <? x)%float = false.
Proof.
  rewrite !ltb_spec. unfold SFltb. rewrite (SFcompare_swap (Prim2SF x) (Prim2SF y)).
  by destruct (SFcompare (Prim2SF x) (Prim2SF y)) as [[]|].
Qed.

Lemma float_ltb_irrefl (x : float) : (x <? x)%float = false.
Proof.
  destruct (x <? x)%float eqn:E; last done.
  by rewrite (float_ltb_asym x x E) in E.
Qed.

Lemma float_eqb_not_ltb (x y : float) :
  (x =? y)%float = true → (x <? y)%float = false ∧ (y <? x)%float = false.
Proof.
  rewrite FloatAxioms.eqb_spec, !ltb_spec. unfold SFeqb, SFltb.
  rewrite (SFcompare_swap (Prim2SF x) (Prim2SF y)).
  by destruct (SFcompare (Prim2SF x) (Prim2SF y)) as [[]|].
Qed.

Lemma float_ltb_leb (x y : float) : (x <? y)%float = true → (x <=? y)%float = true.
Proof.
  rewrite ltb_spec, leb_spec. unfold SFltb, SFleb.
  by destruct (SFcompare (Prim2SF x) (Prim2SF y)) as [[]|].
Qed.

(* ================================================================== *)
(** * Running computations *)
(* ================================================================== *)

Lemma run_bind_ret {A B} (m : M A) (f : A → M B) o w a w' :
  m o w = (Ret a, w') → (m ≫= f) o w = f a o w'.
Proof. intros H. unfold mbind, M_bind. by rewrite H. Qed.

Lemma run_bind_raise {A B} (m : M A) (f : A → M B) o w e w' :
  m o w = (Raise e, w') → (m ≫= f) o w = (Raise e, w').
Proof. intros H. unfold mbind, M_bind. by rewrite H. Qed.

Lemma run_mret {A} (a : A) o w : mret (M := M) a o w = (Ret a, w).
Proof. done. Qed.

Lemma run_deref o w l ob :
  heap_of w !! l = Some ob → deref (VRef l) o w = (Ret ob, w).
Proof. intros H. unfold deref. by rewrite H. Qed.

Lemma run_getitem o w l entries k v :
  heap_of w !! l = Some (ODict entries) → dict_get entries k = Some v →
  getitem (VRef l) k o w = (Ret v, w).
Proof.
  intros Hl Hk. unfold getitem.
  rewrite (run_bind_ret _ _ _ _ _ _ (run_deref o w l _ Hl)).
  by rewrite Hk.
Qed.

Lemma run_appliance o w v r c :
  reading_at (heap_of w) v r →
  appliance (key c) v o w = (Ret (VFloat (field c r)), w).
Proof.
  intros (l & la & entries & apps & -> & Hl & _ & Ha & Hla & Hc). unfold appliance.
  rewrite (run_bind_ret _ _ _ _ (VRef la) w); last by eapply run_getitem.
  by eapply run_getitem.
Qed.

Lemma run_sum_from o w items rs c acc :
  Forall2 (reading_at (heap_of w)) items rs →
  sum_from (VFloat acc) items (appliance (key c)) o w
  = (Ret (VFloat (fold_left PrimFloat.add (map (field c) rs) acc)), w).
Proof.
  intros H. revert acc. induction H as [|v r items rs Hv _ IH]; intros acc; first done.
  cbn [sum_from map fold_left].
  rewrite (run_bind_ret _ _ _ _ _ _ (run_appliance o w v r c Hv)).
  cbn [py_add]. rewrite (run_bind_ret _ _ _ _ _ _ (run_mret _ o w)).
  apply IH.
Qed.

(** The value [sum] returns over a history: the int [0] it starts from when
    there is nothing to add, a float otherwise. *)
Definition total_value (c : category) (rs : list Reading) : value :=
  match rs with
  | [] => VInt 0
  | _ => VFloat (total c rs)
  end.

Lemma run_py_sum o w data rs c :
  history_at (heap_of w) data rs →
  py_sum data (appliance (key c)) o w = (Ret (total_value c rs), w).
Proof.
  intros (l & items & -> & Hl & Hrs & _). unfold py_sum, list_items.
  rewrite (run_bind_ret _ _ _ _ items w);
    last by rewrite (run_bind_ret _ _ _ _ _ _ (run_deref o w l _ Hl)).
  destruct Hrs as [|v r items rs Hv Hrs]; first done.
  cbn [sum_from].
  rewrite (run_bind_ret _ _ _ _ _ _ (run_appliance o w v r c Hv)).
  cbn [py_add total_value].
  rewrite (run_bind_ret _ _ _ _ (VFloat (0 + field c r)) w); last done.
  by rewrite (run_sum_from o w items rs c _ Hrs).
Qed.

(* ================================================================== *)
(** * The advisor on a history *)
(* ================================================================== *)

Lemma with_heap_insert_insert w l a b :
  with_heap <[l := a]> (with_heap <[l := b]> w) = with_heap <[l := a]> w.
Proof. unfold with_heap. cbn. by rewrite insert_insert_eq. Qed.

Lemma run_alloc o w ob :
  alloc ob o w = (Ret (VRef (fresh (dom (heap_of w)))),
                  with_heap <[fresh (dom (heap_of w)) := ob]> w).
Proof. done. Qed.

Lemma fresh_lookup (h : heap) : h !! fresh (dom h) = None.
Proof. apply not_elem_of_dom, is_fresh. Qed.

Lemma run_when_append o w l xs x (b : bool) :
  when b (list_append (VRef l) x) o (with_heap <[l := OList xs]> w)
  = (Ret (), with_heap <[l := OList (xs ++ (if b then [x] else []))]> w).
Proof.
  destruct b; cbn [when].
  - unfold list_append. cbn [heap_of with_heap]. rewrite lookup_insert_eq.
    by rewrite with_heap_insert_insert.
  - by rewrite app_nil_r.
Qed.

Lemma run_py_gt_totals o w rs c1 c2 :
  py_gt (total_value c1 rs) (total_value c2 rs) o w
  = (Ret (total c2 rs <? total c1 rs)%float, w).
Proof. by destruct rs. Qed.

Lemma history_at_insert_fresh h data rs l ob :
  h !! l = None → history_at h data rs → history_at (<[l := ob]> h) data rs.
Proof.
  intros Hl (ld & items & -> & Hld & Hrs & Hlen).
  exists ld, items. split_and!; [done| |  |done].
  - rewrite lookup_insert_ne; [done|]. intros ->. congruence.
  - eapply Forall2_impl; first done.
    intros v r (lr & la & entries & apps & -> & Hlr & Ht & Ha & Hla & Hc).
    exists lr, la, entries, apps. split_and!; try done.
    all: rewrite lookup_insert_ne; [done|]; intros ->; congruence.
Qed.

Lemma run_threshold {B} o w data rs c (k : float) (rest : bool → M B) :
  k = 0.3%float ∨ k = 0.5%float →
  history_at (heap_of w) data rs →
  (n ← py_len data; bound ← py_mul (VFloat k) n;
   fires ← py_gt (total_value c rs) bound; rest fires) o w
  = rest (k * count rs <? total c rs)%float o w.
Proof.
  intros Hk (ld & items & -> & Hld & Hrs & Hlen).
  pose proof (Forall2_length _ _ _ Hrs) as Hn.
  rewrite (run_bind_ret _ _ _ _ (VInt (Z.of_nat (length items))) w);
    last by (unfold py_len; rewrite (run_bind_ret _ _ _ _ _ _ (run_deref o w ld _ Hld))).
  cbn [py_mul]. unfold to_float.
  rewrite float_of_int_finite; last (unfold maxsize in Hlen; lia).
  rewrite (run_bind_ret _ _ _ _ (VFloat (k * float_of_int (Z.of_nat (length items)))) w);
    last done.
  unfold count. rewrite <- Hn.
  destruct Hrs as [|v r items rs _ _].
  - erewrite run_bind_ret; first done.
    by destruct Hk as [-> | ->]; vm_compute.
  - by erewrite run_bind_ret.
Qed.

Definition pick (b : bool) (s : string) : list value :=
  if b then [VStr s] else [].

Lemma advice_values rs :
  (((([] ++ pick (heating_fires rs) HEATING) ++ pick (cooling_fires rs) COOLING)
      ++ pick (lights_fires rs) LIGHTS) ++ pick (electronics_fires rs) ELECTRONICS)
  = VStr <$> advice rs.
Proof.
  unfold advice, pick.
  by destruct (heating_fires rs), (cooling_fires rs), (lights_fires rs),
       (electronics_fires rs).
Qed.

(** On a history the advisor returns a new list holding [advice rs], and
    changes nothing else. *)
Lemma run_optimize_energy_usage o w data rs :
  history_at (heap_of w) data rs →
  optimize_energy_usage data o w
  = (Ret (VRef (fresh (dom (heap_of w)))),
     with_heap <[fresh (dom (heap_of w)) := OList (VStr <$> advice rs)]> w).
Proof.
  intros Hh. unfold optimize_energy_usage.
  rewrite (run_bind_ret _ _ _ _ _ _ (run_py_sum o w data rs Heating Hh)).
  rewrite (run_bind_ret _ _ _ _ _ _ (run_py_sum o w data rs Cooling Hh)).
  rewrite (run_bind_ret _ _ _ _ _ _ (run_py_sum o w data rs Lighting Hh)).
  rewrite (run_bind_ret _ _ _ _ _ _ (run_py_sum o w data rs Electronics Hh)).
  rewrite (run_bind_ret _ _ _ _ _ _ (run_alloc o w _)).
  set (l := fresh (dom (heap_of w))).
  assert (∀ xs, history_at (heap_of (with_heap <[l := OList xs]> w)) data rs) as Hh'.
  { intros xs. apply history_at_insert_fresh; [apply fresh_lookup | done]. }
  rewrite (run_bind_ret _ _ _ _ _ _ (run_py_gt_totals _ _ rs Heating Cooling)).
  rewrite (run_bind_ret _ _ _ _ _ _ (run_when_append _ _ _ _ _ _)).
  rewrite (run_bind_ret _ _ _ _ _ _ (run_py_gt_totals _ _ rs Cooling Heating)).
  rewrite (run_bind_ret _ _ _ _ _ _ (run_when_append _ _ _ _ _ _)).
  rewrite (run_threshold o _ data rs Lighting 0.3); [|by left|done].
  rewrite (run_bind_ret _ _ _ _ _ _ (run_when_append _ _ _ _ _ _)).
  rewrite (run_threshold o _ data rs Electronics 0.5); [|by right|done].
  rewrite (run_bind_ret _ _ _ _ _ _ (run_when_append _ _ _ _ _ _)).
  rewrite run_mret. do 4 f_equal. apply advice_values.
Qed.

(* ================================================================== *)
(** * Which suggestions the advice holds *)
(* ================================================================== *)

Lemma elem_of_VStr (s : string) (ss : list string) :
  VStr s ∈ VStr <$> ss ↔ s ∈ ss.
Proof.
  split.
  - intros (s' & [= ->] & H)%list_elem_of_fmap. done.
  - apply list_elem_of_fmap_2.
Qed.

(** The sixteen ways the four rules can turn out, each decided. *)
Ltac by_rules rs :=
  unfold advice;
  destruct (heating_fires rs), (cooling_fires rs), (lights_fires rs),
    (electronics_fires rs);
  compute_done.

Lemma heating_in_advice rs : HEATING ∈ advice rs ↔ heating_fires rs = true.
Proof. by_rules rs. Qed.

Lemma cooling_in_advice rs : COOLING ∈ advice rs ↔ cooling_fires rs = true.
Proof. by_rules rs. Qed.

Lemma lights_in_advice rs : LIGHTS ∈ advice rs ↔ lights_fires rs = true.
Proof. by_rules rs. Qed.

Lemma electronics_in_advice rs : ELECTRONICS ∈ advice rs ↔ electronics_fires rs = true.
Proof. by_rules rs. Qed.

Lemma advice_in_check_order rs :
  advice rs `sublist_of` [HEATING; COOLING; LIGHTS; ELECTRONICS].
Proof.
  unfold advice.
  destruct (heating_fires rs), (cooling_fires rs), (lights_fires rs),
    (electronics_fires rs); cbn [app].
  all: repeat first [ apply sublist_nil | apply sublist_skip | apply sublist_cons ].
Qed.

Lemma returned_list_optimize o w data rs :
  history_at (heap_of w) data rs →
  returned_list (optimize_energy_usage data o w) = Some (VStr <$> advice rs).
Proof.
  intros H. rewrite (run_optimize_energy_usage o w data rs H).
  unfold returned_list. cbn [heap_of with_heap]. by rewrite lookup_insert_eq.
Qed.

(* ================================================================== *)
(** * Properties of the advisor *)
(* ================================================================== *)

(** A reading, and a history, found in a concrete heap. *)
Ltac reading_by_computation :=
  eexists _, _, _, _; split_and!;
    [ reflexivity | vm_compute; reflexivity | reflexivity | reflexivity
    | vm_compute; reflexivity | by intros [] ].

Ltac history_by_computation :=
  eexists _, _; split_and!;
    [ reflexivity | vm_compute; reflexivity
    | repeat (constructor; [reading_by_computation | ])
    | vm_compute; discriminate ];
  constructor.

(** C1. On every history the advisor's list holds the lights suggestion
    exactly when the lighting total exceeds 0.3 times the number of
    readings, and the electronics suggestion exactly when the electronics
    total exceeds 0.5 times the number of readings: a product is compared,
    nothing is divided. *)
Theorem advisor_threshold_rules o w data rs :
  history_at (heap_of w) data rs →
  ∃ ss, returned_list (optimize_energy_usage data o w) = Some ss ∧
    (VStr LIGHTS ∈ ss ↔ (0.3 * count rs <? total Lighting rs)%float = true) ∧
    (VStr ELECTRONICS ∈ ss ↔ (0.5 * count rs <? total Electronics rs)%float = true).
Proof.
  intros H. exists (VStr <$> advice rs). split; first by apply returned_list_optimize.
  rewrite !elem_of_VStr. split.
  - apply lights_in_advice.
  - apply electronics_in_advice.
Qed.

Lemma advisor_threshold_rules_witness :
  ∃ ss, returned_list (optimize_energy_usage (VRef ENERGY_DATA) quiet_oracle
                         (world_with bright_days)) = Some ss ∧
    (VStr LIGHTS ∈ ss ↔ (0.3 * count bright_days <? total Lighting bright_days)%float = true) ∧
    (VStr ELECTRONICS ∈ ss ↔
       (0.5 * count bright_days <? total Electronics bright_days)%float = true).
Proof.
  apply (advisor_threshold_rules quiet_oracle (world_with bright_days)
           (VRef ENERGY_DATA) bright_days).
  history_by_computation.
Defined.

(** C2. On every history the advisor's list holds the heating suggestion
    exactly when the heating total exceeds the cooling total, and the cooling
    suggestion exactly when the cooling total exceeds the heating total; so
    it never holds both, and holds neither when the totals are equal. *)
Theorem advisor_heating_cooling_rules o w data rs :
  history_at (heap_of w) data rs →
  ∃ ss, returned_list (optimize_energy_usage data o w) = Some ss ∧
    (VStr HEATING ∈ ss ↔ (total Cooling rs <? total Heating rs)%float = true) ∧
    (VStr COOLING ∈ ss ↔ (total Heating rs <? total Cooling rs)%float = true) ∧
    ¬ (VStr HEATING ∈ ss ∧ VStr COOLING ∈ ss) ∧
    (total Heating rs = total Cooling rs ∨
     (total Heating rs =? total Cooling rs)%float = true →
     (VStr HEATING ∉ ss) ∧ (VStr COOLING ∉ ss)).
Proof.
  intros H. exists (VStr <$> advice rs). split; first by apply returned_list_optimize.
  rewrite !elem_of_VStr, heating_in_advice, cooling_in_advice.
  unfold heating_fires, cooling_fires. split_and!; [done|done| |].
  - intros [Hh Hc]. by rewrite (float_ltb_asym _ _ Hh) in Hc.
  - intros [-> | [Hhc Hch]%float_eqb_not_ltb].
    + by rewrite float_ltb_irrefl.
    + by rewrite Hhc, Hch.
Qed.

Lemma advisor_heating_cooling_rules_witness :
  ∃ ss, returned_list (optimize_energy_usage (VRef ENERGY_DATA) quiet_oracle
                         (world_with heating_day)) = Some ss ∧
    (VStr HEATING ∈ ss ↔ (total Cooling heating_day <? total Heating heating_day)%float = true) ∧
    (VStr COOLING ∈ ss ↔ (total Heating heating_day <? total Cooling heating_day)%float = true) ∧
    ¬ (VStr HEATING ∈ ss ∧ VStr COOLING ∈ ss) ∧
    (total Heating heating_day = total Cooling heating_day ∨
     (total Heating heating_day =? total Cooling heating_day)%float = true →
     (VStr HEATING ∉ ss) ∧ (VStr COOLING ∉ ss)).
Proof.
  apply (advisor_heating_cooling_rules quiet_oracle (world_with heating_day)
           (VRef ENERGY_DATA) heating_day).
  history_by_computation.
Defined.

(** C3. Applied to an empty list the advisor returns an empty list. *)
Theorem advisor_empty_history o w l :
  heap_of w !! l = Some (OList []) →
  returned_list (optimize_energy_usage (VRef l) o w) = Some [].
Proof.
  intros Hl.
  assert (history_at (heap_of w) (VRef l) []) as H.
  { exists l, []. split_and!; [done|done|constructor|done]. }
  by rewrite (returned_list_optimize o w _ _ H).
Qed.

Lemma advisor_empty_history_witness :
  returned_list (optimize_energy_usage (VRef ENERGY_DATA) quiet_oracle initial_world) = Some [].
Proof.
  apply (advisor_empty_history quiet_oracle initial_world ENERGY_DATA).
  vm_compute. reflexivity.
Defined.

(** C4. On every history the suggestions come in the order of the checks:
    heating or cooling (never both), then lights, then electronics. *)
Theorem advisor_check_order o w data rs :
  history_at (heap_of w) data rs →
  ∃ ss, returned_list (optimize_energy_usage data o w) = Some (VStr <$> ss) ∧
    ss `sublist_of` [HEATING; COOLING; LIGHTS; ELECTRONICS] ∧
    ¬ (HEATING ∈ ss ∧ COOLING ∈ ss).
Proof.
  intros H. exists (advice rs). split_and!.
  - by apply returned_list_optimize.
  - apply advice_in_check_order.
  - rewrite heating_in_advice, cooling_in_advice. unfold heating_fires, cooling_fires.
    intros [Hh Hc]. by rewrite (float_ltb_asym _ _ Hh) in Hc.
Qed.

Lemma advisor_check_order_witness :
  ∃ ss, returned_list (optimize_energy_usage (VRef ENERGY_DATA) quiet_oracle
                         (world_with bright_days)) = Some (VStr <$> ss) ∧
    ss `sublist_of` [HEATING; COOLING; LIGHTS; ELECTRONICS] ∧
    ¬ (HEATING ∈ ss ∧ COOLING ∈ ss).
Proof.
  apply (advisor_check_order quiet_oracle (world_with bright_days)
           (VRef ENERGY_DATA) bright_days).
  history_by_computation.
Defined.

(** C9. The advisor's answer depends on the history alone: whatever the
    rest of the world and whatever the outside, two calls on lists holding
    the same readings return lists with the same suggestions. *)
Theorem advisor_deterministic o1 o2 w1 w2 data1 data2 rs :
  history_at (heap_of w1) data1 rs →
  history_at (heap_of w2) data2 rs →
  ∃ ss, returned_list (optimize_energy_usage data1 o1 w1) = Some ss ∧
        returned_list (optimize_energy_usage data2 o2 w2) = Some ss.
Proof.
  intros H1 H2. exists (VStr <$> advice rs).
  split; by apply returned_list_optimize.
Qed.

(** The second call is made in the world the first call left, with another
    clock and other draws. *)
Lemma advisor_deterministic_witness :
  ∃ ss,
    returned_list (optimize_energy_usage (VRef ENERGY_DATA) quiet_oracle
                     (world_with bright_days)) = Some ss ∧
    returned_list (optimize_energy_usage (VRef ENERGY_DATA)
                     (Oracle (λ t, 7%Z) (λ _, 0.25%float) (λ _, None))
                     (optimize_energy_usage (VRef ENERGY_DATA) quiet_oracle
                        (world_with bright_days)).2) = Some ss.
Proof.
  apply (advisor_deterministic _ _ _ _ _ _ bright_days).
  - history_by_computation.
  - history_by_computation.
Defined.

(** C10. A call of the advisor on a history leaves every object of the heap
    as it was -- the list passed in and each reading in it -- and touches
    neither the output nor the client; all it adds is the list it returns. *)
Theorem advisor_leaves_history_unchanged o w data rs :
  history_at (heap_of w) data rs →
  ∃ v w', optimize_energy_usage data o w = (Ret v, w') ∧
    (∀ l ob, heap_of w !! l = Some ob → heap_of w' !! l = Some ob) ∧
    history_at (heap_of w') data rs ∧
    stdout w' = stdout w ∧ stderr w' = stderr w ∧
    mqtt w' = mqtt w ∧ ticks w' = ticks w.
Proof.
  intros H. eexists _, _. split; first by apply run_optimize_energy_usage.
  cbn [heap_of with_heap stdout stderr mqtt ticks]. split_and!; try done.
  - intros l ob Hl. rewrite lookup_insert_ne; first done.
    intros <-. by rewrite fresh_lookup in Hl.
  - apply history_at_insert_fresh; [apply fresh_lookup | done].
Qed.

Lemma advisor_leaves_history_unchanged_witness :
  ∃ v w', optimize_energy_usage (VRef ENERGY_DATA) quiet_oracle (world_with heating_day)
          = (Ret v, w') ∧
    (∀ l ob, heap_of (world_with heating_day) !! l = Some ob → heap_of w' !! l = Some ob) ∧
    history_at (heap_of w') (VRef ENERGY_DATA) heating_day ∧
    stdout w' = stdout (world_with heating_day) ∧
    stderr w' = stderr (world_with heating_day) ∧
    mqtt w' = mqtt (world_with heating_day) ∧
    ticks w' = ticks (world_with heating_day).
Proof.
  apply (advisor_leaves_history_unchanged quiet_oracle (world_with heating_day)
           (VRef ENERGY_DATA) heating_day).
  history_by_computation.
Defined.

(** ** The advisor on the example histories *)

(** One reading with heating 1.0 over cooling 0.2, lighting 0.1 and
    electronics 0.1: the heating suggestion and nothing else. *)
Example advisor_on_heating_day :
  returned_list (optimize_energy_usage (VRef ENERGY_DATA) quiet_oracle
                   (world_with heating_day)) = Some [VStr HEATING].
Proof. vm_compute. reflexivity. Qed.

(** Two readings with lighting 0.5 each (1.0 against 0.6), heating and
    cooling equal: the lights suggestion and nothing else. *)
Example advisor_on_bright_days :
  returned_list (optimize_energy_usage (VRef ENERGY_DATA) quiet_oracle
                   (world_with bright_days)) = Some [VStr LIGHTS].
Proof. vm_compute. reflexivity. Qed.

(* ================================================================== *)
(** * Properties of the generator *)
(* ================================================================== *)

(** The check made on each number of hundredths a range admits. *)
Definition decimals_within (lo hi : float) (klo khi : Z) : bool :=
  forallb (λ k,
      (lo <=? of_decimal false k 2)%float && (of_decimal false k 2 <=? hi)%float &&
      PrimFloat.Leibniz.eqb (of_decimal false k 2) (float_of_int k / 100)%float)
    (seqZ klo (khi - klo + 1)).

(** Rounding to two decimals keeps a value within a range whose ends have
    the numbers of hundredths [klo] and [khi]: the number of hundredths of the
    value lies between the two, and each of those has been checked. *)
Lemma py_round_within lo hi mlo elo mhi ehi klo khi x :
  Prim2SF lo = S754_finite false mlo elo →
  Prim2SF hi = S754_finite false mhi ehi →
  div_nearest_even (100 * units mlo elo) (2 ^ 1074) = klo →
  div_nearest_even (100 * units mhi ehi) (2 ^ 1074) = khi →
  (0 ≤ klo)%Z → (khi < 2 ^ 53)%Z →
  decimals_within lo hi klo khi = true →
  within lo hi x →
  within lo hi (py_round x 2) ∧ two_decimals (py_round x 2).
Proof.
  intros Hlo Hhi Hklo Hkhi Hpos Hsmall Hall [Hge Hle].
  rewrite leb_spec in Hge, Hle. rewrite Hlo in Hge. rewrite Hhi in Hle.
  pose proof (Prim2SF_valid lo) as Vlo. rewrite Hlo in Vlo.
  pose proof (Prim2SF_valid hi) as Vhi. rewrite Hhi in Vhi.
  pose proof (Prim2SF_valid x) as Vx.
  unfold py_round.
  destruct (Prim2SF x) as [s|s| |s m e]; try done; try (by destruct s).
  destruct s; first done. cbn [valid_binary] in *.
  pose proof (SFleb_units _ _ _ _ Vlo Vx Hge) as Hu1.
  pose proof (SFleb_units _ _ _ _ Vx Vhi Hle) as Hu2.
  pose proof (bounded_inv _ _ Vx) as (He & _).
  change (Z.pos (10 ^ Pos.of_nat 2)) with 100%Z. cbv zeta.
  rewrite round_units by lia.
  set (k := div_nearest_even (100 * units m e) (2 ^ 1074)).
  assert (klo ≤ k ≤ khi)%Z as Hk.
  { subst klo khi k. split; apply div_nearest_even_mono; lia. }
  unfold decimals_within in Hall. rewrite forallb_forall in Hall.
  specialize (Hall k). rewrite <- list_elem_of_In, elem_of_seqZ in Hall.
  apply andb_prop in Hall as [[H1 H2]%andb_prop Heq%FloatAxioms.Leibniz.eqb_spec]; last lia.
  split; first done. exists k. split; [lia|done].
Qed.

(** Instances of [py_round_within], the side conditions computed. *)
Ltac range_by_computation klo khi :=
  intros H;
  eapply (py_round_within _ _ _ _ _ _ klo khi); [| | | | | | | exact H];
    [ vm_compute; reflexivity | vm_compute; reflexivity
    | vm_compute; reflexivity | vm_compute; reflexivity
    | done | done | vm_compute; reflexivity ].

Lemma py_round_heating_range x :
  within 0.5 3.0 x → within 0.5 3.0 (py_round x 2) ∧ two_decimals (py_round x 2).
Proof. range_by_computation 50%Z 300%Z. Qed.

Lemma py_round_lighting_range x :
  within 0.1 0.5 x → within 0.1 0.5 (py_round x 2) ∧ two_decimals (py_round x 2).
Proof. range_by_computation 10%Z 50%Z. Qed.

Lemma py_round_electronics_range x :
  within 0.2 1.0 x → within 0.2 1.0 (py_round x 2) ∧ two_decimals (py_round x 2).
Proof. range_by_computation 20%Z 100%Z. Qed.

Lemma run_extern {A} (answer : oracle → nat → A) effect o w :
  extern answer effect o w =
    match fault o (ticks w) with
    | Some e => (Raise e, with_ticks S w)
    | None => (Ret (answer o (ticks w)), effect (with_ticks S w))
    end.
Proof. done. Qed.

Lemma run_random_uniform a b o w :
  random_uniform a b o w =
    match fault o (ticks w) with
    | Some e => (Raise e, with_ticks S w)
    | None => (Ret (a + (b - a) * random o (ticks w))%float, with_ticks S w)
    end.
Proof.
  unfold random_uniform, random_random, mbind, M_bind. rewrite run_extern.
  by destruct (fault o (ticks w)).
Qed.

Lemma run_generate_energy_data o w :
  (∀ i, (i < 5)%nat → fault o (i + ticks w) = None) →
  let r := drawn_reading o (ticks w) in
  let la := fresh (dom (heap_of w)) in
  let l := fresh (dom (<[la := appliances_dict r]> (heap_of w))) in
  generate_energy_data o w
  = (Ret (VRef l),
     World (<[l := reading_dict r la]> (<[la := appliances_dict r]> (heap_of w)))
       (5 + ticks w) (stdout w) (stderr w) (mqtt w)).
Proof.
  intros Hok r la l.
  pose proof (Hok 0%nat ltac:(lia)) as H0. pose proof (Hok 1%nat ltac:(lia)) as H1.
  pose proof (Hok 2%nat ltac:(lia)) as H2. pose proof (Hok 3%nat ltac:(lia)) as H3.
  pose proof (Hok 4%nat ltac:(lia)) as H4. cbn [Nat.add] in *.
  unfold generate_energy_data, timestamp_now.
  erewrite run_bind_ret; last by rewrite run_extern, H0.
  erewrite run_bind_ret; last by rewrite run_random_uniform; cbn [ticks with_ticks id]; rewrite H1.
  erewrite run_bind_ret; last by rewrite run_random_uniform; cbn [ticks with_ticks id]; rewrite H2.
  erewrite run_bind_ret; last by rewrite run_random_uniform; cbn [ticks with_ticks id]; rewrite H3.
  erewrite run_bind_ret; last by rewrite run_random_uniform; cbn [ticks with_ticks id]; rewrite H4.
  erewrite run_bind_ret; last by apply run_alloc.
  rewrite run_alloc. done.
Qed.

(** Instances of [affine_within] for [random.uniform(a, b)], the side
    conditions computed. *)
Ltac affine_by_computation a b :=
  let c := constr:((b - a)%float) in
  let t := eval vm_compute in
    (rnd 2148 (SFunits 1074 (Prim2SF c) * 2 ^ 1074) / 2 ^ 1074)%Z in
  intros H;
  eapply (affine_within a b c _ _ _ _ _ _ t); [| | | | | | | | | | exact H];
    [ vm_compute; reflexivity | vm_compute; reflexivity | vm_compute; reflexivity
    | done | done | vm_compute; reflexivity | vm_compute; reflexivity
    | vm_compute; reflexivity | vm_compute; discriminate
    | split; vm_compute; reflexivity ].

Lemma uniform_heating_within u :
  within 0 1 u -> within 0.5 3.0 (0.5 + (3.0 - 0.5) * u)%float.
Proof. affine_by_computation 0.5%float 3.0%float. Qed.

Lemma uniform_lighting_within u :
  within 0 1 u -> within 0.1 0.5 (0.1 + (0.5 - 0.1) * u)%float.
Proof. affine_by_computation 0.1%float 0.5%float. Qed.

Lemma uniform_electronics_within u :
  within 0 1 u -> within 0.2 1.0 (0.2 + (1.0 - 0.2) * u)%float.
Proof. affine_by_computation 0.2%float 1.0%float. Qed.

Lemma quiet_oracle_in_unit_interval : random_in_unit_interval quiet_oracle.
Proof. intros t. split; vm_compute; reflexivity. Qed.

(** C5. When the outside answers, the generator returns a reading: a dict
    with a timestamp and exactly the four appliance entries, each value within
    its range and a two-digit decimal -- given that [random.random] keeps its
    promise. *)
Theorem generated_reading_in_range o w :
  random_in_unit_interval o →
  (∀ i, (i < 5)%nat → fault o (i + ticks w) = None) →
  ∃ v w' r, generate_energy_data o w = (Ret v, w') ∧
    built_reading_at (heap_of w') v r ∧
    (within 0.5 3.0 (heating r) ∧ two_decimals (heating r)) ∧
    (within 0.5 3.0 (cooling r) ∧ two_decimals (cooling r)) ∧
    (within 0.1 0.5 (lighting r) ∧ two_decimals (lighting r)) ∧
    (within 0.2 1.0 (electronics r) ∧ two_decimals (electronics r)).
Proof.
  intros Hu Hok. eexists _, _, (drawn_reading o (ticks w)).
  split; first by apply run_generate_energy_data.
  cbn [heap_of]. refine (conj _ (conj _ (conj _ (conj _ _)))).
  - eexists _, (fresh (dom (heap_of w))). split_and!; first done.
    + by rewrite lookup_insert_eq.
    + rewrite lookup_insert_ne, lookup_insert_eq; first done.
      intros E. pose proof (fresh_lookup (<[fresh (dom (heap_of w)) :=
        appliances_dict (drawn_reading o (ticks w))]> (heap_of w))) as Hf.
      by rewrite E, lookup_insert_eq in Hf.
  - apply py_round_heating_range, uniform_heating_within.
    destruct (Hu (1 + ticks w)%nat). split; [done|by apply float_ltb_leb].
  - apply py_round_heating_range, uniform_heating_within.
    destruct (Hu (2 + ticks w)%nat). split; [done|by apply float_ltb_leb].
  - apply py_round_lighting_range, uniform_lighting_within.
    destruct (Hu (3 + ticks w)%nat). split; [done|by apply float_ltb_leb].
  - apply py_round_electronics_range, uniform_electronics_within.
    destruct (Hu (4 + ticks w)%nat). split; [done|by apply float_ltb_leb].
Qed.

Lemma generated_reading_in_range_witness :
  ∃ v w' r, generate_energy_data quiet_oracle initial_world = (Ret v, w') ∧
    built_reading_at (heap_of w') v r ∧
    (within 0.5 3.0 (heating r) ∧ two_decimals (heating r)) ∧
    (within 0.5 3.0 (cooling r) ∧ two_decimals (cooling r)) ∧
    (within 0.1 0.5 (lighting r) ∧ two_decimals (lighting r)) ∧
    (within 0.2 1.0 (electronics r) ∧ two_decimals (electronics r)).
Proof.
  apply (generated_reading_in_range quiet_oracle initial_world).
  - exact quiet_oracle_in_unit_interval.
  - reflexivity.
Defined.

(* ================================================================== *)
(** * Serializing a reading *)
(* ================================================================== *)

Lemma json_encode_timestamp fuel path h ns :
  json_encode fuel path h (VTimestamp ns) = inl not_serializable.
Proof. by destruct fuel. Qed.

(** [json.dumps] refuses every reading: the first entry of its dict is a
    [Timestamp]. *)
Lemma run_json_dumps_reading o w v r :
  built_reading_at (heap_of w) v r →
  json_dumps v o w = (Raise not_serializable, w).
Proof.
  intros (l & la & -> & Hl & _). unfold json_dumps.
  cbn [json_encode]. rewrite decide_False by apply not_elem_of_nil.
  unfold reading_dict in Hl. rewrite Hl. cbn [mapM_sum snd].
  by rewrite json_encode_timestamp.
Qed.

(** How a call of the generator can end: an outside call failed and the heap
    is as before, or the reading was built. *)
Lemma generate_energy_data_cases o w :
  (∃ e w', generate_energy_data o w = (Raise e, w') ∧
     heap_of w' = heap_of w ∧ stdout w' = stdout w ∧ stderr w' = stderr w ∧
     mqtt w' = mqtt w) ∨
  (∃ l w', generate_energy_data o w = (Ret (VRef l), w') ∧
     built_reading_at (heap_of w') (VRef l) (drawn_reading o (ticks w)) ∧
     (∀ a ob, heap_of w !! a = Some ob → heap_of w' !! a = Some ob) ∧
     stdout w' = stdout w ∧ stderr w' = stderr w ∧ mqtt w' = mqtt w).
Proof.
  match goal with |- ?G =>
    assert (∀ e w', heap_of w' = heap_of w → stdout w' = stdout w →
              stderr w' = stderr w → mqtt w' = mqtt w →
              generate_energy_data o w = (Raise e, w') → G) as Hleft
  end.
  { intros e w' ? ? ? ? Hrun. left. exists e, w'. done. }
  unfold generate_energy_data, timestamp_now in Hleft.
  destruct (fault o (ticks w)) as [e0|] eqn:F0.
  { eapply Hleft; last by (erewrite run_bind_raise; last by rewrite run_extern, F0). all: done. }
  destruct (fault o (S (ticks w))) as [e1|] eqn:F1.
  { eapply Hleft; last first.
    - erewrite run_bind_ret; last by rewrite run_extern, F0.
      erewrite run_bind_raise; first done.
      by rewrite run_random_uniform; cbn [ticks with_ticks id]; rewrite F1.
    - done. - done. - done. - done. }
  destruct (fault o (S (S (ticks w)))) as [e2|] eqn:F2.
  { eapply Hleft; last first.
    - erewrite run_bind_ret; last by rewrite run_extern, F0.
      erewrite run_bind_ret; last by rewrite run_random_uniform; cbn [ticks with_ticks id]; rewrite F1.
      erewrite run_bind_raise; first done.
      by rewrite run_random_uniform; cbn [ticks with_ticks id]; rewrite F2.
    - done. - done. - done. - done. }
  destruct (fault o (S (S (S (ticks w))))) as [e3|] eqn:F3.
  { eapply Hleft; last first.
    - erewrite run_bind_ret; last by rewrite run_extern, F0.
      erewrite run_bind_ret; last by rewrite run_random_uniform; cbn [ticks with_ticks id]; rewrite F1.
      erewrite run_bind_ret; last by rewrite run_random_uniform; cbn [ticks with_ticks id]; rewrite F2.
      erewrite run_bind_raise; first done.
      by rewrite run_random_uniform; cbn [ticks with_ticks id]; rewrite F3.
    - done. - done. - done. - done. }
  destruct (fault o (S (S (S (S (ticks w)))))) as [e4|] eqn:F4.
  { eapply Hleft; last first.
    - erewrite run_bind_ret; last by rewrite run_extern, F0.
      erewrite run_bind_ret; last by rewrite run_random_uniform; cbn [ticks with_ticks id]; rewrite F1.
      erewrite run_bind_ret; last by rewrite run_random_uniform; cbn [ticks with_ticks id]; rewrite F2.
      erewrite run_bind_ret; last by rewrite run_random_uniform; cbn [ticks with_ticks id]; rewrite F3.
      erewrite run_bind_raise; first done.
      by rewrite run_random_uniform; cbn [ticks with_ticks id]; rewrite F4.
    - done. - done. - done. - done. }
  clear Hleft.
  assert (∀ i, (i < 5)%nat → fault o (i + ticks w) = None) as Hok.
  { intros i Hi. destruct i as [|[|[|[|[|i]]]]]; cbn [Nat.add]; try done. lia. }
  right. eexists _, _. split; first by apply run_generate_energy_data.
  cbn [heap_of stdout stderr mqtt]. split_and!; try done.
  - eexists _, (fresh (dom (heap_of w))). split_and!; first done.
    + by rewrite lookup_insert_eq.
    + rewrite lookup_insert_ne, lookup_insert_eq; first done.
      intros E. pose proof (fresh_lookup (<[fresh (dom (heap_of w)) :=
        appliances_dict (drawn_reading o (ticks w))]> (heap_of w))) as Hf.
      by rewrite E, lookup_insert_eq in Hf.
  - intros a ob Ha. rewrite !lookup_insert_ne; first done.
    + intros <-. by rewrite fresh_lookup in Ha.
    + intros <-. pose proof (fresh_lookup (<[fresh (dom (heap_of w)) :=
        appliances_dict (drawn_reading o (ticks w))]> (heap_of w))) as Hf.
      rewrite lookup_insert_ne in Hf; first congruence.
      intros E. by rewrite <- E, lookup_insert_eq in Hf.
Qed.

(** C6 (what the code does instead).  Whatever reading the generator
    returns, [json.dumps] raises [TypeError] on it: the reading carries a
    [pandas.Timestamp], which the encoder does not know.  No wire text is
    produced, so there is nothing to decode back. *)
Theorem generated_reading_is_not_serializable o w :
  match generate_energy_data o w with
  | (Ret energy_data, w') =>
      json_dumps energy_data o w' = (Raise not_serializable, w')
  | _ => True
  end.
Proof.
  destruct (generate_energy_data_cases o w)
    as [(e & w1 & -> & _)|(l & w1 & -> & Hr & _)]; first done.
  by eapply run_json_dumps_reading.
Qed.

(** The first reading of a run in which the outside never fails. *)
Example first_reading_is_not_serializable :
  ((energy_data ← generate_energy_data; json_dumps energy_data)
     quiet_oracle initial_world).1 = Raise not_serializable.
Proof. vm_compute. reflexivity. Qed.

(* ================================================================== *)
(** * Properties of the publishing loop *)
(* ================================================================== *)

Lemma reading_at_mono h h' v r :
  (∀ a ob, h !! a = Some ob → h' !! a = Some ob) →
  reading_at h v r → reading_at h' v r.
Proof.
  intros Hsub (l & la & entries & apps & -> & Hl & Ht & Ha & Hla & Hc).
  exists l, la, entries, apps. split_and!; try done; by apply Hsub.
Qed.

Lemma reading_at_insert_list h v r l xs ys :
  h !! l = Some (OList xs) → reading_at h v r → reading_at (<[l := OList ys]> h) v r.
Proof.
  intros Hxs (lr & la & entries & apps & -> & Hl & Ht & Ha & Hla & Hc).
  exists lr, la, entries, apps. split_and!; try done.
  all: rewrite lookup_insert_ne; [done|]; intros ->; congruence.
Qed.

Lemma built_reading_at_reading_at h v r :
  built_reading_at h v r → reading_at h v r.
Proof.
  intros (l & la & -> & Hl & Hla). eexists l, la, _, _.
  split_and!; [done|exact Hl|done|done|exact Hla|by intros []].
Qed.

Lemma built_reading_at_insert_list h v r l xs ys :
  h !! l = Some (OList xs) → built_reading_at h v r →
  built_reading_at (<[l := OList ys]> h) v r.
Proof.
  intros Hxs (lr & la & -> & Hl & Hla). exists lr, la. split_and!; first done.
  all: rewrite lookup_insert_ne; [done|]; intros ->.
  all: unfold reading_dict, appliances_dict in *; congruence.
Qed.

Lemma history_at_mono h h' data rs :
  (∀ a ob, h !! a = Some ob → h' !! a = Some ob) →
  history_at h data rs → history_at h' data rs.
Proof.
  intros Hsub (l & items & -> & Hl & Hrs & Hlen).
  exists l, items. split_and!; [done|by apply Hsub| |done].
  eapply Forall2_impl; first done. intros v r. by apply reading_at_mono.
Qed.

Lemma history_at_append h l items rs v r :
  h !! l = Some (OList items) →
  Forall2 (reading_at h) items rs →
  reading_at h v r →
  (Z.of_nat (length items) < maxsize)%Z →
  history_at (<[l := OList (items ++ [v])]> h) (VRef l) (rs ++ [r]).
Proof.
  intros Hl Hrs Hv Hlen. exists l, (items ++ [v]). split_and!; first done.
  - by rewrite lookup_insert_eq.
  - apply Forall2_app.
    + eapply Forall2_impl; first done. intros ? ?. by apply reading_at_insert_list with items.
    + constructor; last done. by apply reading_at_insert_list with items.
  - rewrite length_app. cbn [length]. lia.
Qed.

Lemma run_publish_handler e o w :
  publish_handler e o w = (Ret (), logged "Error in publishing energy data: " e w).
Proof. done. Qed.

Lemma run_main_handler e o w :
  main_handler e o w = (Ret (), logged "Error in setting up MQTT client: " e w).
Proof. done. Qed.

Lemma while_true_raise fuel body o w e w' :
  body o w = (Raise e, w') → while_true (S fuel) body o w = (Raise e, w').
Proof. intros H. cbn [while_true]. by apply run_bind_raise. Qed.

Lemma while_true_ret fuel body o w w' :
  body o w = (Ret (), w') → while_true (S fuel) body o w = while_true fuel body o w'.
Proof. intros H. cbn [while_true]. by erewrite run_bind_ret. Qed.

Lemma while_true_steps o k fuel w wk :
  steps o k w wk →
  while_true (k + fuel) publish_step o w = while_true fuel publish_step o wk.
Proof.
  induction 1 as [|k w w1 w2 Hstep _ IH]; first done.
  cbn [Nat.add]. by rewrite (while_true_ret _ _ _ _ _ Hstep).
Qed.

(** A turn of the loop never returns: when the generator delivers, the
    reading is appended and printed, and [json.dumps] refuses it. *)
Lemma publish_step_raises o w rs :
  history_at (heap_of w) (VRef ENERGY_DATA) rs →
  (Z.of_nat (length rs) < maxsize)%Z →
  ∃ e w' rs', publish_step o w = (Raise e, w') ∧
    history_at (heap_of w') (VRef ENERGY_DATA) rs' ∧
    (rs' = rs ∨ rs' = rs ++ [drawn_reading o (ticks w)]) ∧
    mqtt w' = mqtt w.
Proof.
  intros Hh Hlen. unfold publish_step.
  destruct (generate_energy_data_cases o w)
    as [(e & w1 & Hrun & Hheap & _ & _ & Hmqtt)|(l & w1 & Hrun & Hr & Hsub & _ & _ & Hmqtt)].
  { exists e, w1, rs. split_and!; [by apply run_bind_raise| |by left|done].
    by rewrite Hheap. }
  rewrite (run_bind_ret _ _ _ _ _ _ Hrun).
  pose proof (history_at_mono _ _ _ _ Hsub Hh) as (? & items & [= <-] & Hl & Hrs & _).
  pose proof (Forall2_length _ _ _ Hrs) as Hn.
  set (w2 := with_heap <[ENERGY_DATA := OList (items ++ [VRef l])]> w1).
  assert (history_at (heap_of w2) (VRef ENERGY_DATA) (rs ++ [drawn_reading o (ticks w)])) as Hh2.
  { apply history_at_append; [done|done|by apply built_reading_at_reading_at|lia]. }
  assert (built_reading_at (heap_of w2) (VRef l) (drawn_reading o (ticks w))) as Hr2.
  { by apply built_reading_at_insert_list with items. }
  erewrite run_bind_ret; last by (unfold list_append; rewrite Hl).
  erewrite run_bind_ret; last done.
  erewrite run_bind_raise; last by eapply run_json_dumps_reading.
  eexists _, _, _. split_and!; [done|done|by right|done].
Qed.

(** C7. Whatever error a turn of the loop raises -- in generating the
    reading or in sending it --, and after however many turns,
    [publish_energy_data] catches it, logs it and returns: the world is the
    one the failing turn left plus the log, so nothing is tried again; and no
    error ever leaves [publish_energy_data]. *)
Theorem publish_error_is_caught o fuel k w wk e w' :
  steps o k w wk →
  publish_step o wk = (Raise e, w') →
  (k < fuel)%nat →
  (is_Exception e = true →
   publish_energy_data fuel o w
   = (Ret (), logged "Error in publishing energy data: " e w')) ∧
  (∀ n e' w'', publish_energy_data n o w = (Raise e', w'') → is_Exception e' = false).
Proof.
  intros Hsteps Hstep Hfuel. split.
  - intros He. unfold publish_energy_data, try_except.
    replace fuel with (k + S (fuel - S k))%nat by lia.
    rewrite (while_true_steps _ _ _ _ _ Hsteps), (while_true_raise _ _ _ _ _ _ Hstep), He.
    apply run_publish_handler.
  - intros n e' w''. unfold publish_energy_data, try_except.
    destruct (while_true n publish_step o w) as [[[]|e0|] w0]; try done.
    destruct (is_Exception e0) eqn:He0.
    + by rewrite run_publish_handler.
    + by intros [= <- _].
Qed.

Lemma publish_error_is_caught_witness :
  (is_Exception not_serializable = true →
   publish_energy_data 1 quiet_oracle initial_world
   = (Ret (), logged "Error in publishing energy data: " not_serializable
                (publish_step quiet_oracle initial_world).2)) ∧
  (∀ n e' w'', publish_energy_data n quiet_oracle initial_world = (Raise e', w'') →
               is_Exception e' = false).
Proof.
  apply (publish_error_is_caught quiet_oracle 1 0 initial_world initial_world).
  - constructor.
  - vm_compute. reflexivity.
  - lia.
Defined.

(** With a list of readings behind [ENERGY_DATA], the loop ends in its first
    turn: [publish_energy_data] returns, or lets through what is not an
    [Exception]; the history has grown by at most the reading of that turn
    and nothing was published. *)
Lemma publish_energy_data_ends o n w rs :
  history_at (heap_of w) (VRef ENERGY_DATA) rs →
  (Z.of_nat (length rs) < maxsize)%Z →
  ∃ r w' rs', publish_energy_data (S n) o w = (r, w') ∧
    (r = Ret () ∨ ∃ e, r = Raise e ∧ is_Exception e = false) ∧
    history_at (heap_of w') (VRef ENERGY_DATA) rs' ∧
    (rs' = rs ∨ rs' = rs ++ [drawn_reading o (ticks w)]) ∧
    mqtt w' = mqtt w.
Proof.
  intros Hh Hlen.
  destruct (publish_step_raises o w rs Hh Hlen) as (e & w1 & rs' & Hstep & Hh1 & Hrs & Hm).
  unfold publish_energy_data, try_except.
  rewrite (while_true_raise _ _ _ _ _ _ Hstep).
  destruct (is_Exception e) eqn:He.
  - rewrite run_publish_handler. eexists _, _, rs'. split_and!; [done|by left|done..].
  - eexists _, _, rs'. split_and!; [done|right; by exists e|done..].
Qed.

(* ================================================================== *)
(** * Properties of the main block *)
(* ================================================================== *)

Lemma run_for_each_print o w ss :
  for_each (VStr <$> ss) (λ suggestion, print_f "- " suggestion) o w
  = (Ret (), with_stdout (λ out, out ++ (bullet <$> ss)) w).
Proof.
  revert w. induction ss as [|s ss IH]; intros w.
  - destruct w. unfold with_stdout. cbn. by rewrite app_nil_r.
  - cbn [fmap list_fmap for_each].
    erewrite run_bind_ret; last done.
    rewrite IH. destruct w. unfold with_stdout. cbn. by rewrite <- app_assoc.
Qed.

Lemma run_main_finally o w rs :
  history_at (heap_of w) (VRef ENERGY_DATA) rs →
  main_finally o w = (Ret (), finalized w rs).
Proof.
  intros Hh. unfold main_finally.
  erewrite run_bind_ret; last done.
  erewrite run_bind_ret; last by apply (run_optimize_energy_usage _ _ _ rs).
  erewrite run_bind_ret; last done.
  erewrite run_bind_ret.
  2:{ unfold list_items. erewrite run_bind_ret; last first.
      - apply run_deref. cbn [heap_of with_heap with_stdout with_mqtt].
        apply lookup_insert_eq.
      - done. }
  rewrite run_for_each_print. unfold finalized, with_stdout. cbn.
  by rewrite <- app_assoc.
Qed.

(** The guarded part of the main block ends: it returns -- also after an
    [Exception], which its handler or the loop's has logged -- or lets through
    what is not an [Exception].  A list of readings is behind [ENERGY_DATA]
    afterwards. *)
Lemma main_guarded_ends o n w rs :
  history_at (heap_of w) (VRef ENERGY_DATA) rs →
  (Z.of_nat (length rs) < maxsize)%Z →
  ∃ r w1 rs', try_except (main_try (S n)) main_handler o w = (r, w1) ∧
    (r = Ret () ∨ ∃ e, r = Raise e ∧ is_Exception e = false) ∧
    history_at (heap_of w1) (VRef ENERGY_DATA) rs'.
Proof.
  intros Hh Hlen.
  assert (∀ e w1, heap_of w1 = heap_of w → main_try (S n) o w = (Raise e, w1) →
    ∃ r w1 rs', try_except (main_try (S n)) main_handler o w = (r, w1) ∧
      (r = Ret () ∨ ∃ e, r = Raise e ∧ is_Exception e = false) ∧
      history_at (heap_of w1) (VRef ENERGY_DATA) rs') as Hraise.
  { intros e w1 Hheap Hrun. unfold try_except. rewrite Hrun.
    destruct (is_Exception e) eqn:He.
    - rewrite run_main_handler. eexists _, _, rs. split_and!; [done|by left|].
      cbn. by rewrite Hheap.
    - eexists _, _, rs. split_and!; [done|right; by exists e|by rewrite Hheap]. }
  unfold main_try in *. unfold client_connect, client_loop_start in *.
  destruct (fault o (ticks w)) as [e0|] eqn:F0.
  { eapply Hraise; last by (erewrite run_bind_raise; last by rewrite run_extern, F0). done. }
  destruct (fault o (S (ticks w))) as [e1|] eqn:F1.
  { eapply Hraise; last first.
    - erewrite run_bind_ret; last by rewrite run_extern, F0.
      erewrite run_bind_raise; first done.
      by rewrite run_extern; cbn [ticks with_ticks with_mqtt]; rewrite F1.
    - done. }
  clear Hraise.
  set (w2 := with_mqtt (λ c, MqttClient (connected c) true (published c))
               (with_ticks S (with_mqtt (λ c, MqttClient (Some (MQTT_BROKER, MQTT_PORT, 60%Z))
                  (loop_running c) (published c)) (with_ticks S w)))).
  destruct (publish_energy_data_ends o n w2 rs Hh Hlen)
    as (r & w3 & rs' & Hrun & Hr & Hh3 & _ & _).
  assert (main_try (S n) o w = (r, w3)) as Hmain.
  { unfold main_try, client_connect, client_loop_start.
    erewrite run_bind_ret; last by rewrite run_extern, F0.
    erewrite run_bind_ret; last by rewrite run_extern; cbn [ticks with_ticks with_mqtt]; rewrite F1.
    exact Hrun. }
  unfold main_try, client_connect, client_loop_start in Hmain.
  unfold try_except. rewrite Hmain.
  destruct Hr as [->|(e & -> & He)].
  - eexists _, _, rs'. split_and!; [done|by left|done].
  - rewrite He. eexists _, _, rs'. split_and!; [done|right; by exists e|done].
Qed.

(** C8. However the guarded part of the main block ends -- the loop returned
    after an error it caught, the set-up of the client failed, or something
    that is no [Exception] came through --, the final block runs: the network
    thread is stopped, the advisor is called once on the history collected so
    far, and the header and its suggestions are printed; the outcome of the
    guarded part is the outcome of the program. *)
Theorem main_always_finalizes o n w rs :
  history_at (heap_of w) (VRef ENERGY_DATA) rs →
  (Z.of_nat (length rs) < maxsize)%Z →
  ∃ r w1 rs',
    try_except (main_try (S n)) main_handler o w = (r, w1) ∧
    (r = Ret () ∨ ∃ e, r = Raise e ∧ is_Exception e = false) ∧
    history_at (heap_of w1) (VRef ENERGY_DATA) rs' ∧
    main (S n) o w = (r, finalized w1 rs').
Proof.
  intros Hh Hlen.
  destruct (main_guarded_ends o n w rs Hh Hlen) as (r & w1 & rs' & Hrun & Hr & Hh1).
  exists r, w1, rs'. split_and!; [done..|].
  unfold main, try_finally. rewrite Hrun, (run_main_finally _ _ _ Hh1).
  by destruct Hr as [->|(e & -> & _)].
Qed.

Lemma main_always_finalizes_witness :
  ∃ r w1 rs',
    try_except (main_try 1) main_handler quiet_oracle initial_world = (r, w1) ∧
    (r = Ret () ∨ ∃ e, r = Raise e ∧ is_Exception e = false) ∧
    history_at (heap_of w1) (VRef ENERGY_DATA) rs' ∧
    main 1 quiet_oracle initial_world = (r, finalized w1 rs').
Proof.
  apply (main_always_finalizes quiet_oracle 0 initial_world []).
  - exists ENERGY_DATA, []. split_and!; [reflexivity|reflexivity|constructor|done].
  - done.
Defined.

(** A run in which the outside never fails and every draw is 0.5: one
    reading is generated, appended and printed; [json.dumps] refuses it, the
    loop's handler logs that and the loop is over; nothing was published; the
    final block prints the header and the one suggestion that a reading of
    1.75, 1.75, 0.3 and 0.6 triggers. *)
Example quiet_run :
  let '(r, w) := main 3 quiet_oracle initial_world in
  r = Ret () ∧
  stdout w =
    [ LineRepr "Publishing data: "
        (TDict [ ("timestamp", TTimestamp 2);
                 ("appliances",
                  TDict [ ("heating", TFloat 1.75); ("cooling", TFloat 1.75);
                          ("lighting", TFloat 0.3); ("electronics", TFloat 0.6) ]) ]);
      Line "Error in publishing energy data: Object of type Timestamp is not JSON serializable";
      Line HEADER;
      Line "- Consider unplugging unused electronics." ] ∧
  stderr w = [not_serializable] ∧
  published (mqtt w) = [] ∧
  loop_running (mqtt w) = false.
Proof. vm_compute. done. Qed.

(** A run in which the broker cannot be reached: [connect] raises, the
    handler of the main block logs it, and the final block still stops the
    network thread and prints the header; the history is empty, so no
    suggestion follows. *)
Example unreachable_broker_run :
  let unreachable := Exn OSError "[Errno -2] Name or service not known" in
  let o := Oracle (λ t, Z.of_nat t) (λ _, 0.5%float)
             (λ t, if decide (t = 0%nat) then Some unreachable else None) in
  let '(r, w) := main 3 o initial_world in
  r = Ret () ∧
  stdout w =
    [ Line "Error in setting up MQTT client: [Errno -2] Name or service not known";
      Line HEADER ] ∧
  stderr w = [unreachable] ∧
  connected (mqtt w) = None ∧
  loop_running (mqtt w) = false.
Proof. vm_compute. done. Qed.

(* ================================================================== *)
(** * Frames: what a computation leaves alone *)
(* ================================================================== *)

Lemma grows_refl h : grows h h.
Proof. split; [done|]. intros l items Hl. exists []. by rewrite app_nil_r. Qed.

Lemma grows_trans h1 h2 h3 : grows h1 h2 → grows h2 h3 → grows h1 h3.
Proof.
  intros [Hd1 Hl1] [Hd2 Hl2]. split.
  - intros l entries Hl. by apply Hd2, Hd1.
  - intros l items Hl. destruct (Hl1 _ _ Hl) as (m1 & H1).
    destruct (Hl2 _ _ H1) as (m2 & H2). exists (m1 ++ m2). by rewrite app_assoc.
Qed.

Lemma grows_insert_fresh h l ob : h !! l = None → grows h (<[l := ob]> h).
Proof.
  intros Hl. split.
  - intros a entries Ha. rewrite lookup_insert_ne; [done|congruence].
  - intros a items Ha. exists []. rewrite app_nil_r, lookup_insert_ne; [done|congruence].
Qed.

Lemma grows_append h l items x :
  h !! l = Some (OList items) → grows h (<[l := OList (items ++ [x])]> h).
Proof.
  intros Hl. split.
  - intros a entries Ha. rewrite lookup_insert_ne; [done|congruence].
  - intros a xs Ha. destruct (decide (a = l)) as [->|Hne].
    + exists [x]. rewrite lookup_insert_eq. congruence.
    + exists []. by rewrite app_nil_r, lookup_insert_ne.
Qed.

Global Instance calm_preorder : PreOrder calm.
Proof.
  split.
  - intros w. split_and!; [apply grows_refl|done..].
  - intros w1 w2 w3 (Hh1 & Ht1 & Hm1 & Ho1 & He1) (Hh2 & Ht2 & Hm2 & Ho2 & He2).
    split_and!; [by eapply grows_trans|congruence|congruence|by etrans..].
Qed.

Global Instance evolves_preorder : PreOrder evolves.
Proof.
  split.
  - intros w. split_and!; [apply grows_refl|done..].
  - intros w1 w2 w3 (Hh1 & Ht1 & Hm1 & Ho1 & He1) (Hh2 & Ht2 & Hm2 & Ho2 & He2).
    split_and!; [by eapply grows_trans|lia|by etrans..].
Qed.

Lemma calm_evolves w w' : calm w w' → evolves w w'.
Proof.
  intros (Hh & Ht & Hm & Ho & He). split_and!; [done|lia| |done..]. by rewrite Hm.
Qed.

Section frames.
Context (R : relation world) `{!PreOrder R}.
Local Set Default Proof Using "Type*".

Lemma keeps_pure {A} (m : M A) : (∀ o w, (m o w).2 = w) → keeps R m.
Proof. intros H o w. by rewrite H. Qed.

Lemma keeps_bind {A B} (m : M A) (f : A → M B) :
  keeps R m → (∀ a, keeps R (f a)) → keeps R (m ≫= f).
Proof.
  intros Hm Hf o w. specialize (Hm o w). unfold mbind, M_bind.
  destruct (m o w) as [[a|e|] w1]; cbn in *; [|done..].
  etrans; [done|apply Hf].
Qed.

Lemma keeps_try_except {A} (body : M A) handler :
  keeps R body → (∀ e, keeps R (handler e)) → keeps R (try_except body handler).
Proof.
  intros Hb Hh o w. specialize (Hb o w). unfold try_except.
  destruct (body o w) as [[a|e|] w1]; cbn in *; [done| |done].
  destruct (is_Exception e); [|done]. etrans; [done|apply Hh].
Qed.

Lemma keeps_try_finally body final :
  keeps R body → keeps R final → keeps R (try_finally body final).
Proof.
  intros Hb Hf o w. specialize (Hb o w). unfold try_finally.
  destruct (body o w) as [[a|e|] w1]; cbn in *; [| |done].
  - etrans; [done|apply Hf].
  - specialize (Hf o w1). destruct (final o w1) as [[[]|e'|] w2]; cbn in *; by etrans.
Qed.

Lemma keeps_while_true fuel body : keeps R body → keeps R (while_true fuel body).
Proof.
  intros Hb. induction fuel as [|fuel IH]; cbn [while_true].
  - by intros o w.
  - apply keeps_bind; [done|by intros _].
Qed.

Lemma keeps_when (c : bool) m : keeps R m → keeps R (when c m).
Proof. intros Hm. destruct c; [done|]. by intros o w. Qed.

Lemma keeps_for_each items body :
  (∀ x, keeps R (body x)) → keeps R (for_each items body).
Proof.
  intros Hb. induction items as [|x items IH]; cbn [for_each].
  - by intros o w.
  - apply keeps_bind; [done|by intros _].
Qed.

Lemma keeps_deref v : keeps R (deref v).
Proof. apply keeps_pure. intros o w. unfold deref. by repeat case_match. Qed.

Lemma keeps_getitem d k : keeps R (getitem d k).
Proof.
  apply keeps_bind; [apply keeps_deref|]. intros ob.
  apply keeps_pure. intros o w. by repeat case_match.
Qed.

Lemma keeps_list_items v : keeps R (list_items v).
Proof.
  apply keeps_bind; [apply keeps_deref|]. intros ob.
  apply keeps_pure. intros o w. by repeat case_match.
Qed.

Lemma keeps_py_len v : keeps R (py_len v).
Proof.
  apply keeps_bind; [apply keeps_deref|]. intros ob.
  apply keeps_pure. intros o w. by repeat case_match.
Qed.

Lemma keeps_to_float n : keeps R (to_float n).
Proof. apply keeps_pure. intros o w. unfold to_float. by case_match. Qed.

Lemma keeps_py_add a b : keeps R (py_add a b).
Proof.
  destruct a, b; cbn [py_add]; try by (apply keeps_pure).
  all: apply keeps_bind; [apply keeps_to_float|]; intros ?; by apply keeps_pure.
Qed.

Lemma keeps_py_mul a b : keeps R (py_mul a b).
Proof.
  destruct a, b; cbn [py_mul]; try by (apply keeps_pure).
  all: apply keeps_bind; [apply keeps_to_float|]; intros ?; by apply keeps_pure.
Qed.

Lemma keeps_py_gt a b : keeps R (py_gt a b).
Proof. destruct a, b; cbn [py_gt]; by apply keeps_pure. Qed.

Lemma keeps_sum_from acc items f :
  (∀ d, keeps R (f d)) → keeps R (sum_from acc items f).
Proof.
  intros Hf. revert acc. induction items as [|d items IH]; intros acc; cbn [sum_from].
  - by apply keeps_pure.
  - apply keeps_bind; [done|]. intros x.
    apply keeps_bind; [apply keeps_py_add|done].
Qed.

Lemma keeps_py_sum data f : (∀ d, keeps R (f d)) → keeps R (py_sum data f).
Proof.
  intros Hf. apply keeps_bind; [apply keeps_list_items|].
  intros items. by apply keeps_sum_from.
Qed.

Lemma keeps_appliance name d : keeps R (appliance name d).
Proof. apply keeps_bind; [apply keeps_getitem|]. intros a. apply keeps_getitem. Qed.

Lemma keeps_json_dumps v : keeps R (json_dumps v).
Proof. apply keeps_pure. intros o w. unfold json_dumps. by case_match. Qed.
End frames.

(** ** Computations that stay inside *)

Lemma calm_alloc ob : keeps calm (alloc ob).
Proof.
  intros o w. cbn. split_and!; [|done..]. apply grows_insert_fresh, fresh_lookup.
Qed.

Lemma calm_list_append l x : keeps calm (list_append l x).
Proof.
  intros o w. unfold list_append. destruct l as [| | | |a]; try reflexivity.
  destruct (heap_of w !! a) as [[items|entries]|] eqn:Ha; try reflexivity.
  cbn. split_and!; [|done..]. by apply grows_append.
Qed.

Lemma calm_print ln : keeps calm (print ln).
Proof.
  intros o w. cbn. split_and!; [apply grows_refl|done|done| |done].
  by apply prefix_app_r.
Qed.

Lemma calm_print_f text v : keeps calm (print_f text v).
Proof. intros o w. unfold print_f. destruct v; apply calm_print. Qed.

Lemma calm_print_exc e : keeps calm (print_exc e).
Proof.
  intros o w. cbn. split_and!; [apply grows_refl|done|done|done|].
  by apply prefix_app_r.
Qed.

(** Frames follow the shape of the computation. *)
Ltac frame_step :=
  match goal with
  | |- ∀ _, _ => intro
  | |- keeps _ (_ ≫= _) => apply keeps_bind; [apply _| |]
  | |- keeps _ (mret _) => apply keeps_pure; [apply _|done]
  | |- keeps _ (when _ _) => apply keeps_when; [apply _|]
  | |- keeps _ (py_sum _ _) => apply keeps_py_sum; [apply _|]
  | |- keeps _ (appliance _ _) => apply keeps_appliance; apply _
  | |- keeps _ (py_gt _ _) => apply keeps_py_gt; apply _
  | |- keeps _ (py_len _) => apply keeps_py_len; apply _
  | |- keeps _ (py_mul _ _) => apply keeps_py_mul; apply _
  | |- keeps _ (list_items _) => apply keeps_list_items; apply _
  | |- keeps _ (json_dumps _) => apply keeps_json_dumps; apply _
  | |- keeps _ (for_each _ _) => apply keeps_for_each; [apply _|]
  | |- keeps _ (try_except _ _) => apply keeps_try_except; [apply _| |]
  | |- keeps _ (try_finally _ _) => apply keeps_try_finally; [apply _| |]
  | |- keeps _ (while_true _ _) => apply keeps_while_true; [apply _|]
  end.

Lemma calm_optimize_energy_usage data : keeps calm (optimize_energy_usage data).
Proof.
  unfold optimize_energy_usage.
  repeat first [ frame_step | apply calm_alloc | apply calm_list_append ].
Qed.

(** ** Computations that end *)

Lemma halts_bind {A B} (m : M A) (f : A → M B) :
  halts m → (∀ a, halts (f a)) → halts (m ≫= f).
Proof.
  intros Hm Hf o w. specialize (Hm o w). unfold mbind, M_bind.
  destruct (m o w) as [[a|e|] w1]; cbn in *; [apply Hf|done..].
Qed.

Lemma halts_try_except {A} (body : M A) handler :
  halts body → (∀ e, halts (handler e)) → halts (try_except body handler).
Proof.
  intros Hb Hh o w. specialize (Hb o w). unfold try_except.
  destruct (body o w) as [[a|e|] w1]; cbn in *; [done| |done].
  destruct (is_Exception e); [apply Hh|done].
Qed.

Lemma halts_try_finally body final :
  halts body → halts final → halts (try_finally body final).
Proof.
  intros Hb Hf o w. specialize (Hb o w). unfold try_finally.
  destruct (body o w) as [[a|e|] w1]; cbn in *; [apply Hf| |done].
  specialize (Hf o w1). by destruct (final o w1) as [[[]|e'|] w2].
Qed.

Lemma halts_when (c : bool) m : halts m → halts (when c m).
Proof. intros Hm. by destruct c. Qed.

Lemma halts_for_each items body : (∀ x, halts (body x)) → halts (for_each items body).
Proof.
  intros Hb. induction items as [|x items IH]; cbn [for_each]; [done|].
  apply halts_bind; [done|by intros _].
Qed.

Lemma halts_deref v : halts (deref v).
Proof. intros o w. unfold deref. by repeat case_match. Qed.

Lemma halts_getitem d k : halts (getitem d k).
Proof.
  apply halts_bind; [apply halts_deref|]. intros ob o w. by repeat case_match.
Qed.

Lemma halts_list_items v : halts (list_items v).
Proof.
  apply halts_bind; [apply halts_deref|]. intros ob o w. by repeat case_match.
Qed.

Lemma halts_py_len v : halts (py_len v).
Proof.
  apply halts_bind; [apply halts_deref|]. intros ob o w. by repeat case_match.
Qed.

Lemma halts_to_float n : halts (to_float n).
Proof. intros o w. unfold to_float. by case_match. Qed.

Lemma halts_py_add a b : halts (py_add a b).
Proof.
  destruct a, b; cbn [py_add]; try done.
  all: apply halts_bind; [apply halts_to_float|]; by intros ?.
Qed.

Lemma halts_py_mul a b : halts (py_mul a b).
Proof.
  destruct a, b; cbn [py_mul]; try done.
  all: apply halts_bind; [apply halts_to_float|]; by intros ?.
Qed.

Lemma halts_py_gt a b : halts (py_gt a b).
Proof. by destruct a, b. Qed.

Lemma halts_sum_from acc items f : (∀ d, halts (f d)) → halts (sum_from acc items f).
Proof.
  intros Hf. revert acc. induction items as [|d items IH]; intros acc; cbn [sum_from]; [done|].
  apply halts_bind; [done|]. intros x. apply halts_bind; [apply halts_py_add|done].
Qed.

Lemma halts_py_sum data f : (∀ d, halts (f d)) → halts (py_sum data f).
Proof.
  intros Hf. apply halts_bind; [apply halts_list_items|]. intros items.
  by apply halts_sum_from.
Qed.

Lemma halts_appliance name d : halts (appliance name d).
Proof. apply halts_bind; [apply halts_getitem|]. intros a. apply halts_getitem. Qed.

Lemma halts_list_append l x : halts (list_append l x).
Proof. intros o w. unfold list_append. by repeat case_match. Qed.

Lemma halts_print_f text v : halts (print_f text v).
Proof. intros o w. by destruct v. Qed.

Ltac halts_step :=
  match goal with
  | |- ∀ _, _ => intro
  | |- halts (_ ≫= _) => apply halts_bind
  | |- halts (when _ _) => apply halts_when
  | |- halts (py_sum _ _) => apply halts_py_sum
  | |- halts (appliance _ _) => apply halts_appliance
  | |- halts (py_gt _ _) => apply halts_py_gt
  | |- halts (py_len _) => apply halts_py_len
  | |- halts (py_mul _ _) => apply halts_py_mul
  | |- halts (list_items _) => apply halts_list_items
  | |- halts (list_append _ _) => apply halts_list_append
  | |- halts (print_f _ _) => apply halts_print_f
  | |- halts (for_each _ _) => apply halts_for_each
  | |- halts (mret _) => done
  | |- halts (alloc _) => done
  | |- halts (print _) => done
  | |- halts (print_exc _) => done
  end.

Lemma halts_optimize_energy_usage data : halts (optimize_energy_usage data).
Proof. unfold optimize_energy_usage. repeat halts_step. Qed.

(** What the final block does after stopping the network thread. *)
Lemma main_finally_unfold o w :
  main_finally o w
  = (optimizations ← optimize_energy_usage (VRef ENERGY_DATA);
     print (Line HEADER);;
     items ← list_items optimizations;
     for_each items (λ suggestion, print_f "- " suggestion)) o
      (with_mqtt (λ c, MqttClient (connected c) false (published c)) w).
Proof. done. Qed.

Lemma main_finally_ends o w :
  ∃ r w', main_finally o w = (r, w') ∧ r ≠ Running ∧
    calm (with_mqtt (λ c, MqttClient (connected c) false (published c)) w) w'.
Proof.
  rewrite main_finally_unfold.
  match goal with |- context [?m o ?w1] => 
    assert (halts m) as Hh; [|assert (keeps calm m) as Hk] end.
  { repeat first [halts_step | apply halts_optimize_energy_usage]. }
  { repeat first [frame_step | apply calm_optimize_energy_usage | apply calm_print
                 | apply calm_print_f ]. }
  match goal with |- context [?m o ?w1] =>
    specialize (Hh o w1); specialize (Hk o w1); destruct (m o w1) as [r w'] end.
  by exists r, w'.
Qed.

(** ** The generator, whatever the outside answers *)

(** Of [n] calls to the outside from call number [t] on, all are answered
    or one is the first to fail. *)
Lemma first_fault o t n :
  (∀ i, (i < n)%nat → fault o (i + t) = None) ∨
  (∃ i e, (i < n)%nat ∧ (∀ j, (j < i)%nat → fault o (j + t) = None) ∧
          fault o (i + t) = Some e).
Proof.
  induction n as [|n [IH|(i & e & Hi & Hj & He)]].
  - left. lia.
  - destruct (fault o (n + t)) as [e|] eqn:Hn.
    + right. exists n, e. split_and!; [lia|done|done].
    + left. intros i Hi. destruct (decide (i = n)) as [->|]; [done|]. apply IH. lia.
  - right. exists i, e. split_and!; [lia|done|done].
Qed.

Lemma run_generate_energy_data_fault o w i e :
  (i < 5)%nat → (∀ j, (j < i)%nat → fault o (j + ticks w) = None) →
  fault o (i + ticks w) = Some e →
  generate_energy_data o w = (Raise e, with_ticks (Nat.add (S i)) w).
Proof.
  intros Hi Hj He. unfold generate_energy_data, timestamp_now.
  destruct i as [|i]; cbn [Nat.add] in He.
  { erewrite run_bind_raise; [done|]. by rewrite run_extern, He. }
  pose proof (Hj 0%nat ltac:(lia)) as H0. cbn [Nat.add] in H0.
  erewrite run_bind_ret; last by rewrite run_extern, H0.
  destruct i as [|i]; cbn [Nat.add] in He.
  { erewrite run_bind_raise; [done|].
    by rewrite run_random_uniform; cbn [ticks with_ticks id]; rewrite He. }
  pose proof (Hj 1%nat ltac:(lia)) as H1. cbn [Nat.add] in H1.
  erewrite run_bind_ret; last by rewrite run_random_uniform; cbn [ticks with_ticks id]; rewrite H1.
  destruct i as [|i]; cbn [Nat.add] in He.
  { erewrite run_bind_raise; [done|].
    by rewrite run_random_uniform; cbn [ticks with_ticks id]; rewrite He. }
  pose proof (Hj 2%nat ltac:(lia)) as H2. cbn [Nat.add] in H2.
  erewrite run_bind_ret; last by rewrite run_random_uniform; cbn [ticks with_ticks id]; rewrite H2.
  destruct i as [|i]; cbn [Nat.add] in He.
  { erewrite run_bind_raise; [done|].
    by rewrite run_random_uniform; cbn [ticks with_ticks id]; rewrite He. }
  pose proof (Hj 3%nat ltac:(lia)) as H3. cbn [Nat.add] in H3.
  erewrite run_bind_ret; last by rewrite run_random_uniform; cbn [ticks with_ticks id]; rewrite H3.
  destruct i as [|i]; cbn [Nat.add] in He; [|lia].
  erewrite run_bind_raise; [done|].
  by rewrite run_random_uniform; cbn [ticks with_ticks id]; rewrite He.
Qed.

(** The two dicts of a new reading are new and distinct. *)
Lemma fresh_pair (h : heap) ob :
  let la := fresh (dom h) in
  let l := fresh (dom (<[la := ob]> h)) in
  h !! la = None ∧ h !! l = None ∧ l ≠ la.
Proof.
  intros la l. pose proof (fresh_lookup h) as Hla.
  pose proof (fresh_lookup (<[la := ob]> h)) as Hl. fold la in Hla. fold l in Hl.
  split_and!; [done| |].
  - destruct (decide (l = la)) as [E|Hne].
    + by rewrite E, lookup_insert_eq in Hl.
    + by rewrite lookup_insert_ne in Hl.
  - intros E. by rewrite E, lookup_insert_eq in Hl.
Qed.

(** ** What [print] shows of a reading *)

Lemma snapshot_float fuel path h x : snapshot fuel path h (VFloat x) = TFloat x.
Proof. by destruct fuel. Qed.

Lemma snapshot_reading h v r :
  built_reading_at h v r → snapshot (S (size h)) [] h v = reading_tree r.
Proof.
  intros (l & la & -> & Hl & Hla).
  assert (la ≠ l) as Hne.
  { intros ->. unfold reading_dict, appliances_dict in *. congruence. }
  destruct (size h) as [|n] eqn:Hsize.
  { apply map_size_empty_iff in Hsize. by rewrite Hsize in Hl. }
  cbn [snapshot]. rewrite decide_False by apply not_elem_of_nil.
  unfold reading_dict in Hl. rewrite Hl. cbn [map fst snd snapshot].
  rewrite decide_False; last by (intros ->%list_elem_of_singleton).
  unfold appliances_dict in Hla. rewrite Hla. cbn [map fst snd].
  by rewrite !snapshot_float.
Qed.

(** ** A turn of the loop, in any world *)

Lemma run_publish_step o w items :
  heap_of w !! ENERGY_DATA = Some (OList items) →
  (∀ i, (i < 5)%nat → fault o (i + ticks w) = None) →
  publish_step o w = (Raise not_serializable, turn_world o w items).
Proof.
  intros Hl Hok. unfold publish_step.
  rewrite (run_bind_ret _ _ _ _ _ _ (run_generate_energy_data o w Hok)).
  set (r := drawn_reading o (ticks w)).
  set (la := fresh (dom (heap_of w))).
  set (l := fresh (dom (<[la := appliances_dict r]> (heap_of w)))).
  destruct (fresh_pair (heap_of w) (appliances_dict r)) as (Hla & Hll & Hne).
  fold la l in Hla, Hll, Hne.
  set (h1 := <[l := reading_dict r la]> (<[la := appliances_dict r]> (heap_of w))).
  assert (h1 !! ENERGY_DATA = Some (OList items)) as Hl1.
  { unfold h1. rewrite !lookup_insert_ne; [done|congruence..]. }
  assert (built_reading_at h1 (VRef l) r) as Hr1.
  { exists l, la. unfold h1. split_and!; [done|by rewrite lookup_insert_eq|].
    by rewrite lookup_insert_ne, lookup_insert_eq. }
  set (h2 := <[ENERGY_DATA := OList (items ++ [VRef l])]> h1).
  assert (built_reading_at h2 (VRef l) r) as Hr2.
  { by apply built_reading_at_insert_list with items. }
  set (w1 := World h1 (5 + ticks w) (stdout w) (stderr w) (mqtt w)).
  set (w2 := with_heap <[ENERGY_DATA := OList (items ++ [VRef l])]> w1).
  assert (list_append (VRef ENERGY_DATA) (VRef l) o w1 = (Ret (), w2)) as Happend.
  { unfold list_append. cbn [heap_of w1]. by rewrite Hl1. }
  rewrite (run_bind_ret _ _ _ _ _ _ Happend).
  assert (print_f "Publishing data: " (VRef l) o w2
          = (Ret (), turn_world o w items)) as Hprint.
  { unfold print_f, print. cbn [heap_of w2 with_heap w1]. fold h2.
    by rewrite (snapshot_reading _ _ _ Hr2). }
  rewrite (run_bind_ret _ _ _ _ _ _ Hprint).
  apply run_bind_raise. apply run_json_dumps_reading with r. exact Hr2.
Qed.

(** When [ENERGY_DATA] is no list, [append] raises. *)
Lemma run_publish_step_no_list o w :
  (∀ items, heap_of w !! ENERGY_DATA ≠ Some (OList items)) →
  (∀ i, (i < 5)%nat → fault o (i + ticks w) = None) →
  ∃ e w', publish_step o w = (Raise e, w') ∧ mqtt w' = mqtt w ∧
          ticks w' = (5 + ticks w)%nat.
Proof.
  intros Hl Hok. unfold publish_step.
  rewrite (run_bind_ret _ _ _ _ _ _ (run_generate_energy_data o w Hok)).
  set (r := drawn_reading o (ticks w)).
  set (la := fresh (dom (heap_of w))).
  set (l := fresh (dom (<[la := appliances_dict r]> (heap_of w)))).
  set (w1 := World _ _ _ _ _).
  assert (∃ e, list_append (VRef ENERGY_DATA) (VRef l) o w1 = (Raise e, w1)) as [e He].
  { unfold list_append. cbn [heap_of w1].
    destruct (decide (ENERGY_DATA = l)) as [->|Hnl].
    { rewrite lookup_insert_eq. by eexists. }
    rewrite lookup_insert_ne by done.
    destruct (decide (ENERGY_DATA = la)) as [->|Hnla].
    { rewrite lookup_insert_eq. by eexists. }
    rewrite lookup_insert_ne by done.
    destruct (heap_of w !! ENERGY_DATA) as [[items|entries]|] eqn:Hw.
    - by destruct (Hl items).
    - by eexists.
    - by eexists. }
  exists e, w1. split; [by apply run_bind_raise|done].
Qed.

(** In any world a turn of the loop raises: the generator fails, or
    [ENERGY_DATA] is no list, or [json.dumps] refuses the reading.  The client
    is not used, and no call is made to the outside after the generator's. *)
Lemma publish_step_never_returns o w :
  ∃ e w', publish_step o w = (Raise e, w') ∧ mqtt w' = mqtt w ∧
          (ticks w' ≤ 5 + ticks w)%nat.
Proof.
  destruct (first_fault o (ticks w) 5) as [Hok|(i & e & Hi & Hj & He)].
  2:{ eexists _, _. split; [|split].
      - unfold publish_step. by erewrite run_bind_raise; last by apply run_generate_energy_data_fault.
      - done.
      - cbn. lia. }
  destruct (heap_of w !! ENERGY_DATA) as [ob|] eqn:Hob;
    [destruct ob as [items|entries]|].
  - eexists _, _. split; [by apply run_publish_step|]. done.
  - destruct (run_publish_step_no_list o w) as (e & w' & Hrun & Hm & Ht); [congruence|done|].
    exists e, w'. split_and!; [done|done|lia].
  - destruct (run_publish_step_no_list o w) as (e & w' & Hrun & Hm & Ht); [congruence|done|].
    exists e, w'. split_and!; [done|done|lia].
Qed.

Lemma run_publish_energy_data o n w items :
  heap_of w !! ENERGY_DATA = Some (OList items) →
  (∀ i, (i < 5)%nat → fault o (i + ticks w) = None) →
  publish_energy_data (S n) o w
  = (Ret (), logged "Error in publishing energy data: " not_serializable
               (turn_world o w items)).
Proof.
  intros Hl Hok. unfold publish_energy_data, try_except.
  by rewrite (while_true_raise _ _ _ _ _ _ (run_publish_step o w items Hl Hok)).
Qed.

Lemma publish_energy_data_one_turn o n w :
  ∃ r w', publish_energy_data (S n) o w = (r, w') ∧ r ≠ Running ∧
    mqtt w' = mqtt w ∧ (ticks w' ≤ 5 + ticks w)%nat ∧
    publish_energy_data 1 o w = (r, w').
Proof.
  destruct (publish_step_never_returns o w) as (e & w1 & Hstep & Hm & Ht).
  unfold publish_energy_data, try_except.
  rewrite !(while_true_raise _ _ _ _ _ _ Hstep).
  destruct (is_Exception e).
  - rewrite run_publish_handler. eexists _, _. by split_and!.
  - eexists _, _. by split_and!.
Qed.

Lemma history_at_turn_world o w items rs :
  heap_of w !! ENERGY_DATA = Some (OList items) →
  Forall2 (reading_at (heap_of w)) items rs →
  (Z.of_nat (length items) < maxsize)%Z →
  history_at (heap_of (turn_world o w items)) (VRef ENERGY_DATA)
    (rs ++ [drawn_reading o (ticks w)]).
Proof.
  intros Hl Hrs Hlen. unfold turn_world. cbn [heap_of].
  set (r := drawn_reading o (ticks w)).
  set (la := fresh (dom (heap_of w))).
  set (l := fresh (dom (<[la := appliances_dict r]> (heap_of w)))).
  destruct (fresh_pair (heap_of w) (appliances_dict r)) as (Hla & Hll & Hne).
  fold la l in Hla, Hll, Hne.
  set (h1 := <[l := reading_dict r la]> (<[la := appliances_dict r]> (heap_of w))).
  assert (∀ a ob, heap_of w !! a = Some ob → h1 !! a = Some ob) as Hsub.
  { intros a ob Ha. unfold h1. rewrite !lookup_insert_ne; [done|congruence..]. }
  apply history_at_append; [by apply Hsub| | |done].
  - eapply Forall2_impl; [done|]. intros v r'. by apply reading_at_mono.
  - apply built_reading_at_reading_at. exists l, la. unfold h1.
    split_and!; [done|by rewrite lookup_insert_eq|].
    by rewrite lookup_insert_ne, lookup_insert_eq.
Qed.

(** ** Computations that call the outside *)

Lemma evolves_tick w : evolves w (with_ticks S w).
Proof. split_and!; [apply grows_refl|cbn; lia|done..]. Qed.

Lemma evolves_extern {A} (answer : oracle → nat → A) effect :
  (∀ w, evolves w (effect w)) → keeps evolves (extern answer effect).
Proof.
  intros He o w. rewrite run_extern. destruct (fault o (ticks w)); cbn [snd].
  - apply evolves_tick.
  - etrans; [apply evolves_tick|apply He].
Qed.

Lemma evolves_calm {A} (m : M A) : keeps calm m → keeps evolves m.
Proof. intros H o w. apply calm_evolves, H. Qed.

Lemma evolves_generate_energy_data : keeps evolves generate_energy_data.
Proof.
  unfold generate_energy_data, timestamp_now, random_uniform, random_random.
  repeat first
    [ frame_step | by apply evolves_extern | apply evolves_calm, calm_alloc ].
Qed.

Lemma evolves_publish_energy_data fuel : keeps evolves (publish_energy_data fuel).
Proof.
  unfold publish_energy_data, publish_step, publish_handler, client_publish, time_sleep.
  repeat first
    [ frame_step | apply evolves_generate_energy_data | by apply evolves_extern
    | apply evolves_calm, calm_list_append | apply evolves_calm, calm_print_f
    | apply evolves_calm, calm_print | apply evolves_calm, calm_print_exc ].
  apply evolves_extern. intros w. split_and!; [apply grows_refl|done| |done..].
  cbn. destruct (connected (mqtt w)); [by apply prefix_app_r|done].
Qed.

Lemma evolves_main fuel : keeps evolves (main fuel).
Proof.
  unfold main, main_try, main_handler, main_finally, client_connect, client_loop_start.
  repeat first
    [ frame_step | apply evolves_publish_energy_data
    | apply evolves_calm, calm_optimize_energy_usage
    | apply evolves_calm, calm_print_f
    | apply evolves_calm, calm_print | apply evolves_calm, calm_print_exc
    | apply evolves_extern; intros w; split_and!; [apply grows_refl|done..] ].
  intros o w. split_and!; [apply grows_refl|done..].
Qed.

(* ================================================================== *)
(** * More properties of the generator *)
(* ================================================================== *)

(** X1. How a call of the generator ends.  Either one of its five calls to the
    outside -- the clock, then the draws for heating, cooling, lighting and
    electronics -- is the first to fail: its exception is raised and no
    object has been built.  Or all five are answered: the reading is returned
    as a new dict that refers to a new appliances dict, and nothing else has
    changed. *)
Theorem generate_energy_data_outcome o w :
  (∃ i e, (i < 5)%nat ∧ (∀ j, (j < i)%nat → fault o (j + ticks w) = None) ∧
     fault o (i + ticks w) = Some e ∧
     generate_energy_data o w = (Raise e, with_ticks (Nat.add (S i)) w)) ∨
  (∃ l la, l ≠ la ∧ heap_of w !! l = None ∧ heap_of w !! la = None ∧
     let r := drawn_reading o (ticks w) in
     generate_energy_data o w
     = (Ret (VRef l),
        World (<[l := reading_dict r la]> (<[la := appliances_dict r]> (heap_of w)))
          (5 + ticks w) (stdout w) (stderr w) (mqtt w))).
Proof.
  destruct (first_fault o (ticks w) 5) as [Hok|(i & e & Hi & Hj & He)].
  - right. 
    destruct (fresh_pair (heap_of w) (appliances_dict (drawn_reading o (ticks w))))
      as (Hla & Hl & Hne).
    eexists _, _. split_and!; [exact Hne|exact Hl|exact Hla|].
    by apply run_generate_energy_data.
  - left. exists i, e. split_and!; [done|done|done|].
    by apply run_generate_energy_data_fault.
Qed.

(* ================================================================== *)
(** * More properties of the publishing loop *)
(* ================================================================== *)

(** X2. In any world and whatever the outside answers, [publish_energy_data]
    ends in the first turn of its loop: more fuel changes nothing.  It does
    not touch the client -- no message is sent -- and makes at most the five
    outside calls of one reading: it never sleeps. *)
Theorem publish_energy_data_sends_nothing o n w :
  ∃ r w', publish_energy_data (S n) o w = (r, w') ∧ r ≠ Running ∧
    publish_energy_data 1 o w = (r, w') ∧
    mqtt w' = mqtt w ∧ (ticks w' ≤ 5 + ticks w)%nat.
Proof.
  destruct (publish_energy_data_one_turn o n w) as (r & w' & Hrun & Hr & Hm & Ht & H1).
  exists r, w'. by split_and!.
Qed.

(** X3. When the outside answers and a history is behind [ENERGY_DATA],
    [publish_energy_data] returns after one turn: the reading drawn is a new
    dict at the end of the history; it was printed in full, followed by the
    line that reports the [TypeError] of [json.dumps]; the traceback went to
    the error output; the client is as before. *)
Theorem publish_energy_data_records_one_reading o n w rs :
  history_at (heap_of w) (VRef ENERGY_DATA) rs →
  (Z.of_nat (length rs) < maxsize)%Z →
  (∀ i, (i < 5)%nat → fault o (i + ticks w) = None) →
  let r := drawn_reading o (ticks w) in
  ∃ w', publish_energy_data (S n) o w = (Ret (), w') ∧
    history_at (heap_of w') (VRef ENERGY_DATA) (rs ++ [r]) ∧
    stdout w' = stdout w ++
      [ LineRepr "Publishing data: " (reading_tree r);
        Line "Error in publishing energy data: Object of type Timestamp is not JSON serializable" ] ∧
    stderr w' = stderr w ++ [not_serializable] ∧
    mqtt w' = mqtt w ∧ ticks w' = (5 + ticks w)%nat.
Proof.
  intros (? & items & [= <-] & Hl & Hrs & _) Hlen Hok r.
  pose proof (Forall2_length _ _ _ Hrs) as Hn.
  eexists. split; [by apply run_publish_energy_data|].
  split_and!; try done.
  - apply history_at_turn_world; [done|done|lia].
  - cbn. by rewrite <- app_assoc.
Qed.

Lemma publish_energy_data_records_one_reading_witness :
  let r := drawn_reading quiet_oracle (ticks initial_world) in
  ∃ w', publish_energy_data 1 quiet_oracle initial_world = (Ret (), w') ∧
    history_at (heap_of w') (VRef ENERGY_DATA) ([] ++ [r]) ∧
    stdout w' = stdout initial_world ++
      [ LineRepr "Publishing data: " (reading_tree r);
        Line "Error in publishing energy data: Object of type Timestamp is not JSON serializable" ] ∧
    stderr w' = stderr initial_world ++ [not_serializable] ∧
    mqtt w' = mqtt initial_world ∧ ticks w' = (5 + ticks initial_world)%nat.
Proof.
  apply (publish_energy_data_records_one_reading quiet_oracle 0 initial_world []).
  - exists ENERGY_DATA, []. split_and!; [reflexivity|reflexivity|constructor|done].
  - done.
  - reflexivity.
Defined.

(** X4. When an outside call of the generator fails, the turn is over before
    anything is recorded: the history, the output of the turn and the client
    are untouched.  An [Exception] is logged by the loop's handler and
    [publish_energy_data] returns; anything else goes through. *)
Theorem publish_energy_data_generator_failure o n w i e :
  (i < 5)%nat →
  (∀ j, (j < i)%nat → fault o (j + ticks w) = None) →
  fault o (i + ticks w) = Some e →
  publish_energy_data (S n) o w =
    if is_Exception e
    then (Ret (), logged "Error in publishing energy data: " e
                    (with_ticks (Nat.add (S i)) w))
    else (Raise e, with_ticks (Nat.add (S i)) w).
Proof.
  intros Hi Hj He.
  assert (publish_step o w = (Raise e, with_ticks (Nat.add (S i)) w)) as Hstep.
  { unfold publish_step. apply run_bind_raise.
    by apply run_generate_energy_data_fault. }
  unfold publish_energy_data, try_except.
  rewrite (while_true_raise _ _ _ _ _ _ Hstep).
  destruct (is_Exception e); [apply run_publish_handler|done].
Qed.

Lemma publish_energy_data_generator_failure_witness :
  let e := Exn RuntimeError "no entropy" in
  let o := Oracle (λ t, Z.of_nat t) (λ _, 0.5%float)
             (λ t, if decide (t = 2%nat) then Some e else None) in
  publish_energy_data 1 o initial_world =
    if is_Exception e
    then (Ret (), logged "Error in publishing energy data: " e
                    (with_ticks (Nat.add 3) initial_world))
    else (Raise e, with_ticks (Nat.add 3) initial_world).
Proof.
  intros e o. apply (publish_energy_data_generator_failure o 0 initial_world 2 e).
  - lia.
  - intros [|[|j]] Hj; [reflexivity|reflexivity|lia].
  - reflexivity.
Defined.

(* ================================================================== *)
(** * Facts about UTF-8 *)
(* ================================================================== *)

Lemma byte_of_to_N b : byte_of (Byte.to_N b) = b.
Proof. unfold byte_of. by rewrite Byte.of_to_N. Qed.

Lemma push_inr {E} c (r : E + list N) text :
  push c r = inr text → ∃ cs, r = inr cs ∧ text = c :: cs.
Proof. destruct r as [e|cs]; [done|]. intros [= <-]. by exists cs. Qed.

Lemma is_continuation_spec c :
  is_continuation c = true ↔ (0x80 ≤ c < 0xC0)%N.
Proof. unfold is_continuation. rewrite andb_true_iff, N.leb_le, N.ltb_lt. done. Qed.

Lemma utf8_encode_cons c cs : utf8_encode (c :: cs) = utf8_encode_char c ++ utf8_encode cs.
Proof. done. Qed.

(** The arithmetic of the four forms: quotients and remainders by powers of
    64 are taken apart by [lia]. *)
Ltac Zify.zify_post_hook ::= Z.to_euclidean_division_equations.

Lemma utf8_encode_char_1 b :
  (Byte.to_N b < 0x80)%N → utf8_encode_char (Byte.to_N b) = [b].
Proof.
  intros H. unfold utf8_encode_char.
  destruct (N.ltb_spec (Byte.to_N b) 0x80); [|lia]. by rewrite byte_of_to_N.
Qed.

Lemma utf8_encode_char_2 b1 b2 :
  let c := (Byte.to_N b1 * 64 + Byte.to_N b2 - (0xC0 * 64 + 0x80))%N in
  (0xC2 ≤ Byte.to_N b1 < 0xE0)%N → (0x80 ≤ Byte.to_N b2 < 0xC0)%N →
  utf8_encode_char c = [b1; b2] ∧ scalar_value c.
Proof.
  intros c H1 H2. unfold utf8_encode_char, scalar_value.
  destruct (N.ltb_spec c 0x80); [unfold c in *; lia|].
  destruct (N.ltb_spec c 0x800); [|unfold c in *; lia].
  split; [|unfold c in *; lia].
  rewrite <- (byte_of_to_N b1), <- (byte_of_to_N b2).
  repeat f_equal; unfold c; lia.
Qed.

Lemma utf8_encode_char_3 b1 b2 b3 :
  let c := (Byte.to_N b1 * 4096 + Byte.to_N b2 * 64 + Byte.to_N b3
            - (0xE0 * 4096 + 0x80 * 64 + 0x80))%N in
  (0xE0 ≤ Byte.to_N b1 < 0xF0)%N → (0x80 ≤ Byte.to_N b2 < 0xC0)%N →
  (0x80 ≤ Byte.to_N b3 < 0xC0)%N →
  (Byte.to_N b1 = 0xE0 → 0xA0 ≤ Byte.to_N b2)%N →
  (Byte.to_N b1 = 0xED → Byte.to_N b2 < 0xA0)%N →
  utf8_encode_char c = [b1; b2; b3] ∧ scalar_value c.
Proof.
  intros c H1 H2 H3 Hlow Hsur. unfold utf8_encode_char, scalar_value.
  destruct (N.ltb_spec c 0x80); [unfold c in *; lia|].
  destruct (N.ltb_spec c 0x800); [unfold c in *; lia|].
  destruct (N.ltb_spec c 0x10000); [|unfold c in *; lia].
  split; [|unfold c in *; lia].
  rewrite <- (byte_of_to_N b1), <- (byte_of_to_N b2), <- (byte_of_to_N b3).
  repeat f_equal; unfold c; lia.
Qed.

Lemma utf8_encode_char_4 b1 b2 b3 b4 :
  let c := (Byte.to_N b1 * 262144 + Byte.to_N b2 * 4096 + Byte.to_N b3 * 64 + Byte.to_N b4
            - (0xF0 * 262144 + 0x80 * 4096 + 0x80 * 64 + 0x80))%N in
  (0xF0 ≤ Byte.to_N b1 < 0xF5)%N → (0x80 ≤ Byte.to_N b2 < 0xC0)%N →
  (0x80 ≤ Byte.to_N b3 < 0xC0)%N → (0x80 ≤ Byte.to_N b4 < 0xC0)%N →
  (Byte.to_N b1 = 0xF0 → 0x90 ≤ Byte.to_N b2)%N →
  (Byte.to_N b1 = 0xF4 → Byte.to_N b2 < 0x90)%N →
  utf8_encode_char c = [b1; b2; b3; b4] ∧ scalar_value c.
Proof.
  intros c H1 H2 H3 H4 Hlow Hhigh. unfold utf8_encode_char, scalar_value.
  destruct (N.ltb_spec c 0x80); [unfold c in *; lia|].
  destruct (N.ltb_spec c 0x800); [unfold c in *; lia|].
  destruct (N.ltb_spec c 0x10000); [unfold c in *; lia|].
  split; [|unfold c in *; lia].
  rewrite <- (byte_of_to_N b1), <- (byte_of_to_N b2), <- (byte_of_to_N b3),
    <- (byte_of_to_N b4).
  repeat f_equal; unfold c; lia.
Qed.

Ltac Zify.zify_post_hook ::= idtac.

Definition inl_of {A B} (r : A + B) : option A :=
  match r with
  | inl a => Some a
  | inr _ => None
  end.

(** What decodes encodes back to the bytes decoded, and holds no surrogate. *)
Lemma utf8_decode_encode bs pos text :
  utf8_decode pos bs = inr text →
  utf8_encode text = bs ∧ Forall scalar_value text.
Proof.
  remember (length bs) as n eqn:Hn. revert bs pos text Hn.
  induction n as [n IH] using lt_wf_ind. intros bs pos text Hn.
  assert (∀ c rest p' front,
    bs = front ++ rest → front ≠ [] →
    utf8_encode_char c = front ∧ scalar_value c →
    push c (utf8_decode p' rest) = inr text →
    utf8_encode text = bs ∧ Forall scalar_value text) as Hstep.
  { intros c rest p' front -> Hfront [Hc Hs] (cs & Hrest & ->)%push_inr.
    destruct (IH (length rest)) with rest p' cs as [Henc Hall]; [|done|done|].
    { rewrite Hn, length_app. destruct front; [done|]. cbn. lia. }
    rewrite utf8_encode_cons, Hc, Henc. split; [done|by constructor]. }
  destruct bs as [|b1 rest]; [by intros [= <-]|].
  cbn [utf8_decode]. cbv zeta.
  destruct (N.ltb_spec (Byte.to_N b1) 0x80) as [H1|H1].
  { apply (Hstep _ _ _ [b1]); [done|done|].
    split; [by apply utf8_encode_char_1|]. unfold scalar_value. lia. }
  destruct (N.ltb_spec (Byte.to_N b1) 0xC2) as [H2|H2]; [done|].
  destruct (N.ltb_spec (Byte.to_N b1) 0xE0) as [H3|H3].
  { destruct rest as [|b2 rest]; [done|].
    destruct (is_continuation (Byte.to_N b2)) eqn:C2; [|done].
    apply is_continuation_spec in C2. cbn [negb].
    apply (Hstep _ _ _ [b1; b2]); [done|done|].
    by apply utf8_encode_char_2. }
  destruct (N.ltb_spec (Byte.to_N b1) 0xF0) as [H4|H4].
  { destruct rest as [|b2 rest]; [done|].
    destruct (is_continuation (Byte.to_N b2)) eqn:C2; [|done].
    apply is_continuation_spec in C2. cbn [negb orb].
    destruct (if (Byte.to_N b2 <? 0xA0)%N then (Byte.to_N b1 =? 0xE0)%N
              else (Byte.to_N b1 =? 0xED)%N) eqn:Hov; [done|].
    destruct rest as [|b3 rest]; [done|].
    destruct (is_continuation (Byte.to_N b3)) eqn:C3; [|done].
    apply is_continuation_spec in C3. cbn [negb].
    apply (Hstep _ _ _ [b1; b2; b3]); [done|done|].
    apply utf8_encode_char_3; [lia|done|done| |].
    - intros E. destruct (N.ltb_spec (Byte.to_N b2) 0xA0); [|done].
      apply N.eqb_neq in Hov. done.
    - intros E. destruct (N.ltb_spec (Byte.to_N b2) 0xA0); [done|].
      apply N.eqb_neq in Hov. done. }
  destruct (N.ltb_spec (Byte.to_N b1) 0xF5) as [H5|H5]; [|done].
  destruct rest as [|b2 rest]; [done|].
  destruct (is_continuation (Byte.to_N b2)) eqn:C2; [|done].
  apply is_continuation_spec in C2. cbn [negb orb].
  destruct (if (Byte.to_N b2 <? 0x90)%N then (Byte.to_N b1 =? 0xF0)%N
            else (Byte.to_N b1 =? 0xF4)%N) eqn:Hov; [done|].
  destruct rest as [|b3 rest]; [done|].
  destruct (is_continuation (Byte.to_N b3)) eqn:C3; [|done].
  apply is_continuation_spec in C3. cbn [negb].
  destruct rest as [|b4 rest]; [done|].
  destruct (is_continuation (Byte.to_N b4)) eqn:C4; [|done].
  apply is_continuation_spec in C4. cbn [negb].
  apply (Hstep _ _ _ [b1; b2; b3; b4]); [done|done|].
  apply utf8_encode_char_4; [lia|done|done|done| |].
  - intros E. destruct (N.ltb_spec (Byte.to_N b2) 0x90); [|done].
    apply N.eqb_neq in Hov. done.
  - intros E. destruct (N.ltb_spec (Byte.to_N b2) 0x90); [done|].
    apply N.eqb_neq in Hov. done.
Qed.

(** A text of ASCII characters decodes to its characters. *)
Lemma utf8_decode_ascii bs pos :
  Forall (λ b, (Byte.to_N b < 0x80)%N) bs →
  utf8_decode pos bs = inr (Byte.to_N <$> bs).
Proof.
  intros H. revert pos. induction H as [|b bs Hb _ IH]; intros pos; [done|].
  cbn [utf8_decode]. cbv zeta. destruct (N.ltb_spec (Byte.to_N b) 0x80); [|lia].
  by rewrite IH.
Qed.

(** The decoder on a text of one-, two-, three- and four-byte characters,
    and on bytes that are no UTF-8: an overlong form, a surrogate, a lone
    continuation byte after two characters. *)
Example utf8_decode_examples :
  utf8_decode 0 (byte_of <$> [0x74; 0xC3; 0xA9; 0x20; 0xE2; 0x82; 0xAC; 0xF0; 0x9F; 0x98; 0x80]%N)
    = inr [0x74; 0xE9; 0x20; 0x20AC; 0x1F600]%N ∧
  (let b := byte_of <$> [0xC0; 0x80]%N in
   decode_error_str b <$> inl_of (utf8_decode 0 b))
    = Some "'utf-8' codec can't decode byte 0xc0 in position 0: invalid start byte" ∧
  (let b := byte_of <$> [0xED; 0xA0; 0x80]%N in
   decode_error_str b <$> inl_of (utf8_decode 0 b))
    = Some "'utf-8' codec can't decode byte 0xed in position 0: invalid continuation byte" ∧
  (let b := byte_of <$> [0x6F; 0x6B; 0x80]%N in
   decode_error_str b <$> inl_of (utf8_decode 0 b))
    = Some "'utf-8' codec can't decode byte 0x80 in position 2: invalid start byte".
Proof. vm_compute. done. Qed.

(** ** Comparing a float with the int 0 *)

Lemma compare_int_float_zero x :
  compare_int_float 0 x = Some Eq ↔ (x =? 0)%float = true.
Proof.
  rewrite FloatAxioms.eqb_spec. unfold compare_int_float, SFeqb.
  change (Prim2SF 0) with (S754_zero false).
  destruct (Prim2SF x) as [s|s| |s m e]; cbn [SFcompare].
  - done.
  - by destruct s.
  - done.
  - assert (0 < 2 ^ Z.max e 0)%Z as Hpow by (apply Z.pow_pos_nonneg; lia).
    split; [|by destruct s].
    intros [= H].
    destruct (cond_Zopp s (Z.pos m) * 2 ^ Z.max e 0)%Z eqn:E; [|done..].
    destruct s; cbn [cond_Zopp] in E; nia.
Qed.

(* ================================================================== *)
(** * Properties of the callbacks *)
(* ================================================================== *)

(** X5. Whatever result code it is handed, [on_connect] returns after printing
    one line, and does nothing else: the client is not touched, so nothing is
    tried again.  The line reports success exactly when the code equals 0;
    for any other int it names the code. *)
Theorem on_connect_reports rc o w :
  ∃ ln, on_connect rc o w = (Ret (), with_stdout (λ out, out ++ [ln]) w) ∧
    (ln = Line "Connected to MQTT Broker!" ↔
       rc = VInt 0 ∨ ∃ x, rc = VFloat x ∧ (x =? 0)%float = true) ∧
    (∀ n, rc = VInt n → n ≠ 0%Z →
       ln = LineRepr "Failed to connect, return code " (TInt n)).
Proof.
  unfold on_connect. destruct rc as [n|x|s|ns|l]; cbn [py_eq_int].
  - destruct (Z.eqb_spec n 0) as [->|Hn].
    + eexists. split; [done|]. split; [|by intros n [= <-]].
      split; [by left|done].
    + eexists. split; [done|]. split; [|by intros ? [= <-]].
      split; [done|]. intros [[= ->]|(x & [=] & _)]. done.
  - destruct (compare_int_float 0 x) as [[]|] eqn:Hc.
    1: apply compare_int_float_zero in Hc.
    2-4: assert ((x =? 0)%float ≠ true) as Hc'
           by (rewrite <- compare_int_float_zero; congruence).
    all: eexists; (split; [done|]); (split; [|done]).
    + split; [|done]. intros _. right. by exists x.
    + split; [done|]. by intros [[=]|(? & [= <-] & ?)].
    + split; [done|]. by intros [[=]|(? & [= <-] & ?)].
    + split; [done|]. by intros [[=]|(? & [= <-] & ?)].
  - eexists. split; [done|]. split; [|done]. split; [done|].
    by intros [[=]|(? & [=] & ?)].
  - eexists. split; [done|]. split; [|done]. split; [done|].
    by intros [[=]|(? & [=] & ?)].
  - eexists. split; [done|]. split; [|done]. split; [done|].
    by intros [[=]|(? & [=] & ?)].
Qed.

(** The broker accepts; the broker refuses with code 5. *)
Example on_connect_codes :
  stdout (on_connect (VInt 0) quiet_oracle initial_world).2
    = [Line "Connected to MQTT Broker!"] ∧
  stdout (on_connect (VInt 5) quiet_oracle initial_world).2
    = [LineRepr "Failed to connect, return code " (TInt 5)].
Proof. vm_compute. done. Qed.

Lemma run_on_message msg o w :
  on_message msg o w =
    match utf8_decode 0 (msg_payload msg) with
    | inr text =>
        (Ret (), with_stdout (λ out, out ++
           [Line ("Received message: " ++ str_of_codepoints text)]) w)
    | inl err =>
        (Ret (), logged "Error handling incoming message: "
                   (Exn ValueError (decode_error_str (msg_payload msg) err)) w)
    end.
Proof.
  unfold on_message, try_except, bytes_decode, mbind, M_bind.
  by destruct (utf8_decode 0 (msg_payload msg)).
Qed.

(** X6. Whatever bytes arrive, [on_message] returns: it prints the text, or,
    when the bytes are no UTF-8, logs the error of the codec.  It changes
    neither the heap -- the history is out of its reach -- nor the client,
    and calls nothing outside. *)
Theorem on_message_never_raises msg o w :
  ∃ w', on_message msg o w = (Ret (), w') ∧
    heap_of w' = heap_of w ∧ ticks w' = ticks w ∧ mqtt w' = mqtt w ∧
    ((∃ text, utf8_decode 0 (msg_payload msg) = inr text ∧
        stdout w' = stdout w ++ [Line ("Received message: " ++ str_of_codepoints text)] ∧
        stderr w' = stderr w) ∨
     (∃ err e, utf8_decode 0 (msg_payload msg) = inl err ∧
        stdout w' = stdout w ++
          [Line ("Error handling incoming message: "
                 ++ decode_error_str (msg_payload msg) err)] ∧
        stderr w' = stderr w ++ [e] ∧ is_Exception e = true)).
Proof.
  rewrite run_on_message.
  destruct (utf8_decode 0 (msg_payload msg)) as [err|text] eqn:Hd.
  - eexists. split; [done|]. split_and!; [done..|].
    right. eexists err, _. by split_and!.
  - eexists. split; [done|]. split_and!; [done..|].
    left. exists text. by split_and!.
Qed.

(** X7. When the payload is UTF-8, the text printed is the payload, byte for
    byte: decoding loses nothing, and yields no surrogate. *)
Theorem on_message_prints_payload msg o w text :
  utf8_decode 0 (msg_payload msg) = inr text →
  Forall scalar_value text ∧
  on_message msg o w
  = (Ret (), with_stdout (λ out, out ++
       [Line ("Received message: " ++ String.string_of_list_byte (msg_payload msg))]) w).
Proof.
  intros Hd. destruct (utf8_decode_encode _ _ _ Hd) as [Henc Hall].
  split; [done|]. rewrite run_on_message, Hd. unfold str_of_codepoints.
  by rewrite Henc.
Qed.

Lemma on_message_prints_payload_witness :
  let msg := MqttMessage "home/energy"
               (byte_of <$> [0x74; 0xC3; 0xA9; 0x20; 0xE2; 0x82; 0xAC; 0xF0; 0x9F; 0x98; 0x80]%N) in
  let text := [0x74; 0xE9; 0x20; 0x20AC; 0x1F600]%N in
  Forall scalar_value text ∧
  on_message msg quiet_oracle initial_world
  = (Ret (), with_stdout (λ out, out ++
       [Line ("Received message: " ++ String.string_of_list_byte (msg_payload msg))])
       initial_world).
Proof.
  intros msg text.
  apply (on_message_prints_payload msg quiet_oracle initial_world text).
  vm_compute. reflexivity.
Defined.

(** X8. A payload of ASCII characters -- such as the text [json.dumps] returns
    -- is always printed. *)
Theorem on_message_prints_ascii msg o w :
  Forall (λ b, (Byte.to_N b < 0x80)%N) (msg_payload msg) →
  utf8_decode 0 (msg_payload msg) = inr (Byte.to_N <$> msg_payload msg) ∧
  on_message msg o w
  = (Ret (), with_stdout (λ out, out ++
       [Line ("Received message: " ++ String.string_of_list_byte (msg_payload msg))]) w).
Proof.
  intros Hascii. pose proof (utf8_decode_ascii _ 0 Hascii) as Hd.
  split; [done|]. destruct (utf8_decode_encode _ _ _ Hd) as [Henc _].
  rewrite run_on_message, Hd. unfold str_of_codepoints. by rewrite Henc.
Qed.

Lemma on_message_prints_ascii_witness :
  let msg := MqttMessage "home/energy" (String.list_byte_of_string "{}") in
  utf8_decode 0 (msg_payload msg) = inr (Byte.to_N <$> msg_payload msg) ∧
  on_message msg quiet_oracle initial_world
  = (Ret (), with_stdout (λ out, out ++
       [Line ("Received message: " ++ String.string_of_list_byte (msg_payload msg))])
       initial_world).
Proof.
  intros msg. apply (on_message_prints_ascii msg quiet_oracle initial_world).
  repeat constructor.
Defined.

(** A payload cut inside a character, as a receiver may see it. *)
Example on_message_truncated_payload :
  (on_message (MqttMessage "home/energy" (byte_of <$> [0x61; 0xE2; 0x82]%N))
     quiet_oracle initial_world).2
  = logged "Error handling incoming message: "
      (Exn ValueError
         "'utf-8' codec can't decode bytes in position 1-2: unexpected end of data")
      initial_world.
Proof. vm_compute. reflexivity. Qed.

(** ** Adding to zero *)

(** [0.0 + x] compares as [x] does: the sum is [x], or the zero of the
    other sign. *)
Lemma SFcompare_zero_add_l (x : float) y :
  SFcompare (Prim2SF (0 + x)) y = SFcompare (Prim2SF x) y.
Proof.
  rewrite add_spec. change (Prim2SF 0) with (S754_zero false).
  destruct (Prim2SF x) as [[]| | |]; reflexivity.
Qed.

Lemma SFcompare_zero_add_r (x : float) y :
  SFcompare y (Prim2SF (0 + x)) = SFcompare y (Prim2SF x).
Proof.
  rewrite add_spec. change (Prim2SF 0) with (S754_zero false).
  destruct (Prim2SF x) as [[]| | |]; destruct y; reflexivity.
Qed.

Lemma float_ltb_zero_add (x y : float) : (0 + x <? 0 + y)%float = (x <? y)%float.
Proof.
  rewrite !ltb_spec. unfold SFltb.
  by rewrite SFcompare_zero_add_l, SFcompare_zero_add_r.
Qed.

Lemma float_ltb_zero_add_r (k x : float) : (k <? 0 + x)%float = (k <? x)%float.
Proof. rewrite !ltb_spec. unfold SFltb. by rewrite SFcompare_zero_add_r. Qed.

(* ================================================================== *)
(** * More properties of the advisor *)
(* ================================================================== *)

(** X9. On a history of one reading the totals are the reading's values and the
    bounds are 0.3 and 0.5: each rule compares two numbers of that
    reading. *)
Theorem advisor_single_reading o w data r :
  history_at (heap_of w) data [r] →
  returned_list (optimize_energy_usage data o w)
  = Some (VStr <$>
      (if (cooling r <? heating r)%float then [HEATING] else []) ++
      (if (heating r <? cooling r)%float then [COOLING] else []) ++
      (if (0.3 <? lighting r)%float then [LIGHTS] else []) ++
      (if (0.5 <? electronics r)%float then [ELECTRONICS] else [])).
Proof.
  intros Hh. rewrite (returned_list_optimize o w data [r] Hh).
  unfold advice, heating_fires, cooling_fires, lights_fires, electronics_fires,
    total, count.
  cbn [map fold_left field length].
  rewrite !float_ltb_zero_add.
  change (0.3 * float_of_int (Z.of_nat 1))%float with 0.3%float.
  change (0.5 * float_of_int (Z.of_nat 1))%float with 0.5%float.
  by rewrite !float_ltb_zero_add_r.
Qed.

Lemma advisor_single_reading_witness :
  returned_list (optimize_energy_usage (VRef ENERGY_DATA) quiet_oracle (world_with heating_day))
  = Some (VStr <$>
      (if (0.2 <? 1.0)%float then [HEATING] else []) ++
      (if (1.0 <? 0.2)%float then [COOLING] else []) ++
      (if (0.3 <? 0.1)%float then [LIGHTS] else []) ++
      (if (0.5 <? 0.1)%float then [ELECTRONICS] else [])).
Proof.
  apply (advisor_single_reading quiet_oracle (world_with heating_day) (VRef ENERGY_DATA)
           (MkReading 0 1.0 0.2 0.1 0.1)).
  history_by_computation.
Defined.

(** X10. Two calls of the advisor on a history return two lists: each is new
    when it is returned, the second is not the first, and both hold the
    advice for the history after the second call. *)
Theorem advisor_returns_new_list o1 o2 w data rs :
  history_at (heap_of w) data rs →
  ∃ l1 l2 w1 w2,
    optimize_energy_usage data o1 w = (Ret (VRef l1), w1) ∧
    optimize_energy_usage data o2 w1 = (Ret (VRef l2), w2) ∧
    heap_of w !! l1 = None ∧ heap_of w1 !! l2 = None ∧ l1 ≠ l2 ∧
    heap_of w2 !! l1 = Some (OList (VStr <$> advice rs)) ∧
    heap_of w2 !! l2 = Some (OList (VStr <$> advice rs)).
Proof.
  intros Hh.
  pose proof (run_optimize_energy_usage o1 w data rs Hh) as H1.
  set (l1 := fresh (dom (heap_of w))) in *.
  set (w1 := with_heap <[l1 := OList (VStr <$> advice rs)]> w) in *.
  assert (heap_of w !! l1 = None) as Hl1 by apply fresh_lookup.
  assert (history_at (heap_of w1) data rs) as Hh1.
  { by apply history_at_insert_fresh. }
  pose proof (run_optimize_energy_usage o2 w1 data rs Hh1) as H2.
  set (l2 := fresh (dom (heap_of w1))) in *.
  assert (heap_of w1 !! l2 = None) as Hl2 by apply fresh_lookup.
  assert (l1 ≠ l2) as Hne.
  { intros E. rewrite <- E in Hl2. cbn in Hl2. by rewrite lookup_insert_eq in Hl2. }
  eexists l1, l2, w1, _. split_and!; [exact H1|exact H2|done|done|done| |].
  - cbn. by rewrite lookup_insert_ne, lookup_insert_eq.
  - cbn. by rewrite lookup_insert_eq.
Qed.

Lemma advisor_returns_new_list_witness :
  ∃ l1 l2 w1 w2,
    optimize_energy_usage (VRef ENERGY_DATA) quiet_oracle (world_with bright_days)
      = (Ret (VRef l1), w1) ∧
    optimize_energy_usage (VRef ENERGY_DATA) quiet_oracle w1 = (Ret (VRef l2), w2) ∧
    heap_of (world_with bright_days) !! l1 = None ∧ heap_of w1 !! l2 = None ∧ l1 ≠ l2 ∧
    heap_of w2 !! l1 = Some (OList (VStr <$> advice bright_days)) ∧
    heap_of w2 !! l2 = Some (OList (VStr <$> advice bright_days)).
Proof.
  apply (advisor_returns_new_list quiet_oracle quiet_oracle (world_with bright_days)
           (VRef ENERGY_DATA) bright_days).
  history_by_computation.
Defined.

(** ** A list that holds something else than readings *)

Lemma run_sum_from_raise o w pre rs x post c acc e :
  Forall2 (reading_at (heap_of w)) pre rs →
  appliance (key c) x o w = (Raise e, w) →
  acc = VInt 0 ∨ (∃ a, acc = VFloat a) →
  sum_from acc (pre ++ x :: post) (appliance (key c)) o w = (Raise e, w).
Proof.
  intros Hpre Hx. revert acc.
  induction Hpre as [|v r pre rs Hv _ IH]; intros acc Hacc; cbn [app sum_from].
  - by apply run_bind_raise.
  - rewrite (run_bind_ret _ _ _ _ _ _ (run_appliance o w v r c Hv)).
    destruct Hacc as [->|[a ->]].
    + erewrite run_bind_ret; last reflexivity. apply IH. right. by eexists.
    + erewrite run_bind_ret; last reflexivity. apply IH. right. by eexists.
Qed.

(** X11. When the list holds, after some readings, a dict without the key
    ["appliances"], the advisor raises [KeyError]; nothing has been built or
    printed by then. *)
Theorem advisor_missing_appliances o w l items i ld entries rs :
  heap_of w !! l = Some (OList items) →
  Forall2 (reading_at (heap_of w)) (take i items) rs →
  items !! i = Some (VRef ld) →
  heap_of w !! ld = Some (ODict entries) →
  dict_get entries "appliances" = None →
  ∃ e, optimize_energy_usage (VRef l) o w = (Raise e, w) ∧
       exn_class_of e = KeyError ∧ is_Exception e = true.
Proof.
  intros Hl Hpre Hi Hld Hk. exists (Exn KeyError "appliances"). split; [|done].
  unfold optimize_energy_usage. apply run_bind_raise.
  unfold py_sum, list_items.
  rewrite (run_bind_ret _ _ _ _ items w);
    last by rewrite (run_bind_ret _ _ _ _ _ _ (run_deref o w l _ Hl)).
  rewrite <- (take_drop_middle items i (VRef ld) Hi).
  apply (run_sum_from_raise o w _ rs _ _ Heating); [done| |by left].
  unfold appliance. apply run_bind_raise. unfold getitem.
  rewrite (run_bind_ret _ _ _ _ _ _ (run_deref o w ld _ Hld)). by rewrite Hk.
Qed.

Lemma advisor_missing_appliances_witness :
  let w := World {[ ENERGY_DATA := OList [VRef 2%positive];
                    2%positive := ODict [("timestamp", VTimestamp 0)] ]}
             0 [] [] no_client in
  ∃ e, optimize_energy_usage (VRef ENERGY_DATA) quiet_oracle w = (Raise e, w) ∧
       exn_class_of e = KeyError ∧ is_Exception e = true.
Proof.
  intros w.
  apply (advisor_missing_appliances quiet_oracle w ENERGY_DATA [VRef 2%positive] 0
           2%positive [("timestamp", VTimestamp 0)] []).
  - vm_compute. reflexivity.
  - constructor.
  - reflexivity.
  - vm_compute. reflexivity.
  - reflexivity.
Defined.

(* ================================================================== *)
(** * More properties of the main block *)
(* ================================================================== *)

Lemma try_finally_main_finally o w r w1 rs :
  r = Ret () ∨ (∃ e, r = Raise e) →
  history_at (heap_of w1) (VRef ENERGY_DATA) rs →
  ∀ body, body o w = (r, w1) →
  try_finally body main_finally o w = (r, finalized w1 rs).
Proof.
  intros Hr Hh body Hrun. unfold try_finally.
  rewrite Hrun, (run_main_finally _ _ _ Hh). by destruct Hr as [->|[e ->]].
Qed.

(** X12. When [connect] fails, nothing else of the guarded part runs: the network
    thread is not started and no reading is generated.  An [Exception] is
    logged by the handler of the main block and the program returns; anything
    else goes through.  Either way the final block has run on the history as
    it was. *)
Theorem main_connect_failure o fuel w rs e :
  fault o (ticks w) = Some e →
  history_at (heap_of w) (VRef ENERGY_DATA) rs →
  main fuel o w =
    if is_Exception e
    then (Ret (), finalized (logged "Error in setting up MQTT client: " e
                               (with_ticks S w)) rs)
    else (Raise e, finalized (with_ticks S w) rs).
Proof.
  intros He Hh.
  assert (main_try fuel o w = (Raise e, with_ticks S w)) as Htry.
  { unfold main_try, client_connect. apply run_bind_raise. by rewrite run_extern, He. }
  unfold main. destruct (is_Exception e) eqn:Hexn.
  - apply try_finally_main_finally; [by left|done|].
    unfold try_except. by rewrite Htry, Hexn.
  - apply try_finally_main_finally; [right; by exists e|done|].
    unfold try_except. by rewrite Htry, Hexn.
Qed.

Lemma main_connect_failure_witness :
  let unreachable := Exn OSError "[Errno -2] Name or service not known" in
  let o := Oracle (λ t, Z.of_nat t) (λ _, 0.5%float)
             (λ t, if decide (t = 0%nat) then Some unreachable else None) in
  main 3 o initial_world =
    if is_Exception unreachable
    then (Ret (), finalized (logged "Error in setting up MQTT client: " unreachable
                               (with_ticks S initial_world)) [])
    else (Raise unreachable, finalized (with_ticks S initial_world) []).
Proof.
  intros unreachable o.
  apply (main_connect_failure o 3 initial_world [] unreachable).
  - reflexivity.
  - exists ENERGY_DATA, []. split_and!; [reflexivity|reflexivity|constructor|done].
Defined.



(** X14. In any world and whatever the outside answers, the program ends -- it
    returns or raises --, with the network thread stopped, without having
    published a message, and after at most seven calls to the outside:
    [connect], [loop_start] and those of one reading. *)
Theorem main_ends_and_sends_nothing o n w :
  ∃ r w', main (S n) o w = (r, w') ∧ r ≠ Running ∧
    loop_running (mqtt w') = false ∧
    published (mqtt w') = published (mqtt w) ∧
    (ticks w' ≤ 7 + ticks w)%nat.
Proof.
  assert (∃ r1 w1, try_except (main_try (S n)) main_handler o w = (r1, w1) ∧
            r1 ≠ Running ∧ published (mqtt w1) = published (mqtt w) ∧
            (ticks w1 ≤ 7 + ticks w)%nat) as (r1 & w1 & Hrun & Hr1 & Hp1 & Ht1).
  { assert (∀ e w1, published (mqtt w1) = published (mqtt w) →
              (ticks w1 ≤ 7 + ticks w)%nat →
              main_try (S n) o w = (Raise e, w1) →
              ∃ r1 w1, try_except (main_try (S n)) main_handler o w = (r1, w1) ∧
                r1 ≠ Running ∧ published (mqtt w1) = published (mqtt w) ∧
                (ticks w1 ≤ 7 + ticks w)%nat) as Hraise.
    { intros e w1 Hp Ht Htry. unfold try_except. rewrite Htry.
      destruct (is_Exception e).
      - rewrite run_main_handler. eexists _, _. by split_and!.
      - eexists _, _. by split_and!. }
    unfold main_try, client_connect, client_loop_start in *.
    destruct (fault o (ticks w)) as [e0|] eqn:F0.
    { eapply Hraise; last by (erewrite run_bind_raise; last by rewrite run_extern, F0).
      - done.
      - cbn. lia. }
    destruct (fault o (S (ticks w))) as [e1|] eqn:F1.
    { eapply Hraise; last first.
      - erewrite run_bind_ret; last by rewrite run_extern, F0.
        erewrite run_bind_raise; first done.
        by rewrite run_extern; cbn [ticks with_ticks with_mqtt]; rewrite F1.
      - cbn. lia.
      - done. }
    clear Hraise.
    set (w2 := with_mqtt (λ c, MqttClient (connected c) true (published c))
                 (with_ticks S (with_mqtt (λ c, MqttClient (Some (MQTT_BROKER, MQTT_PORT, 60%Z))
                    (loop_running c) (published c)) (with_ticks S w)))).
    destruct (publish_energy_data_one_turn o n w2) as (r & w3 & Hpub & Hr & Hm & Ht & _).
    assert (main_try (S n) o w = (r, w3)) as Hmain.
    { unfold main_try, client_connect, client_loop_start.
      erewrite run_bind_ret; last by rewrite run_extern, F0.
      erewrite run_bind_ret; last by rewrite run_extern; cbn [ticks with_ticks with_mqtt]; rewrite F1.
      exact Hpub. }
    unfold main_try, client_connect, client_loop_start in Hmain.
    unfold try_except. rewrite Hmain.
    assert (published (mqtt w3) = published (mqtt w)) as Hp by (by rewrite Hm).
    assert (ticks w3 ≤ 7 + ticks w)%nat as Ht3 by (cbn in Ht; lia).
    destruct r as [[]|e|]; [| |done].
    - eexists _, _. by split_and!.
    - destruct (is_Exception e).
      + rewrite run_main_handler. eexists _, _. by split_and!.
      + eexists _, _. by split_and!. }
  destruct (main_finally_ends o w1) as (r2 & w2 & Hfin & Hr2 & _ & Ht2 & Hm2 & _).
  unfold main, try_finally. rewrite Hrun.
  assert (loop_running (mqtt w2) = false ∧ published (mqtt w2) = published (mqtt w) ∧
          (ticks w2 ≤ 7 + ticks w)%nat) as Hw2.
  { rewrite Hm2, Ht2. cbn. by split_and!. }
  destruct r1 as [[]|e|]; [| |done].
  - rewrite Hfin. by exists r2, w2.
  - rewrite Hfin. destruct r2 as [[]|e2|]; [| |done].
    + by exists (Raise e), w2.
    + by exists (Raise e2), w2.
Qed.

(** X15. In any world, for any fuel and whatever the outside answers, the
    program only adds to the world: every dict keeps its entries -- a
    reading, once built, is never changed --, every list keeps its items in
    front of those added, and what was printed or sent stays in front of what
    came after. *)
Theorem main_only_adds o fuel w :
  let w' := (main fuel o w).2 in
  (∀ l entries, heap_of w !! l = Some (ODict entries) →
                heap_of w' !! l = Some (ODict entries)) ∧
  (∀ l items, heap_of w !! l = Some (OList items) →
              ∃ more, heap_of w' !! l = Some (OList (items ++ more))) ∧
  stdout w `prefix_of` stdout w' ∧
  stderr w `prefix_of` stderr w' ∧
  published (mqtt w) `prefix_of` published (mqtt w').
Proof.
  destruct (evolves_main fuel o w) as ([Hd Hl] & _ & Hp & Ho & He).
  by split_and!.
Qed.

Lemma evolves_main_guarded fuel :
  keeps evolves (try_except (main_try fuel) main_handler).
Proof.
  unfold main_try, main_handler, client_connect, client_loop_start.
  repeat first
    [ frame_step | apply evolves_publish_energy_data
    | apply evolves_calm, calm_print | apply evolves_calm, calm_print_exc
    | apply evolves_extern; intros w; split_and!; [apply grows_refl|done..] ].
Qed.

(** The guarded part of the main block adds at most the reading of one turn
    to the history. *)
Lemma main_guarded_history o n w rs :
  history_at (heap_of w) (VRef ENERGY_DATA) rs →
  (Z.of_nat (length rs) < maxsize)%Z →
  ∃ r w1 rs', try_except (main_try (S n)) main_handler o w = (r, w1) ∧
    (r = Ret () ∨ ∃ e, r = Raise e) ∧
    history_at (heap_of w1) (VRef ENERGY_DATA) rs' ∧
    (rs' = rs ∨ rs' = rs ++ [drawn_reading o (2 + ticks w)]).
Proof.
  intros Hh Hlen.
  assert (∀ e w1, heap_of w1 = heap_of w → main_try (S n) o w = (Raise e, w1) →
    ∃ r w1 rs', try_except (main_try (S n)) main_handler o w = (r, w1) ∧
      (r = Ret () ∨ ∃ e, r = Raise e) ∧
      history_at (heap_of w1) (VRef ENERGY_DATA) rs' ∧
      (rs' = rs ∨ rs' = rs ++ [drawn_reading o (2 + ticks w)])) as Hraise.
  { intros e w1 Hheap Hrun. unfold try_except. rewrite Hrun.
    destruct (is_Exception e) eqn:He.
    - rewrite run_main_handler. eexists _, _, rs. split_and!; [done|by left| |by left].
      cbn. by rewrite Hheap.
    - eexists _, _, rs. split_and!; [done|right; by exists e|by rewrite Hheap|by left]. }
  unfold main_try in *. unfold client_connect, client_loop_start in *.
  destruct (fault o (ticks w)) as [e0|] eqn:F0.
  { eapply Hraise; last by (erewrite run_bind_raise; last by rewrite run_extern, F0). done. }
  destruct (fault o (S (ticks w))) as [e1|] eqn:F1.
  { eapply Hraise; last first.
    - erewrite run_bind_ret; last by rewrite run_extern, F0.
      erewrite run_bind_raise; first done.
      by rewrite run_extern; cbn [ticks with_ticks with_mqtt]; rewrite F1.
    - done. }
  clear Hraise.
  set (w2 := with_mqtt (λ c, MqttClient (connected c) true (published c))
               (with_ticks S (with_mqtt (λ c, MqttClient (Some (MQTT_BROKER, MQTT_PORT, 60%Z))
                  (loop_running c) (published c)) (with_ticks S w)))).
  destruct (publish_energy_data_ends o n w2 rs Hh Hlen)
    as (r & w3 & rs' & Hrun & Hr & Hh3 & Hrs' & _).
  assert (main_try (S n) o w = (r, w3)) as Hmain.
  { unfold main_try, client_connect, client_loop_start.
    erewrite run_bind_ret; last by rewrite run_extern, F0.
    erewrite run_bind_ret; last by rewrite run_extern; cbn [ticks with_ticks with_mqtt]; rewrite F1.
    exact Hrun. }
  unfold main_try, client_connect, client_loop_start in Hmain.
  unfold try_except. rewrite Hmain.
  destruct Hr as [->|(e & -> & He)].
  - eexists _, _, rs'. split_and!; [done|by left|done|done].
  - rewrite He. eexists _, _, rs'. split_and!; [done|right; by exists e|done|done].
Qed.

(** X16. Whatever the outside answers, a run of the program adds at most one
    reading to the history -- the one drawn after [connect] and [loop_start]
    --, and ends its output with the header and the suggestions for the
    history it leaves. *)
Theorem main_adds_at_most_one_reading o n w rs :
  history_at (heap_of w) (VRef ENERGY_DATA) rs →
  (Z.of_nat (length rs) < maxsize)%Z →
  ∃ r w' rs' out, main (S n) o w = (r, w') ∧
    history_at (heap_of w') (VRef ENERGY_DATA) rs' ∧
    (rs' = rs ∨ rs' = rs ++ [drawn_reading o (2 + ticks w)]) ∧
    stdout w' = stdout w ++ out ++ Line HEADER :: (bullet <$> advice rs').
Proof.
  intros Hh Hlen.
  destruct (main_guarded_history o n w rs Hh Hlen) as (r & w1 & rs' & Hrun & Hr & Hh1 & Hrs').
  destruct (evolves_main_guarded (S n) o w) as (_ & _ & _ & [out Hout] & _).
  rewrite Hrun in Hout. cbn [snd] in Hout.
  exists r, (finalized w1 rs'), rs', out. split_and!.
  - unfold main. apply try_finally_main_finally; [|done|done].
    destruct Hr as [->|[e ->]]; [by left|right; by exists e].
  - apply history_at_insert_fresh; [apply fresh_lookup|done].
  - done.
  - cbn. by rewrite Hout, <- app_assoc.
Qed.

Lemma main_adds_at_most_one_reading_witness :
  ∃ r w' rs' out, main 1 quiet_oracle initial_world = (r, w') ∧
    history_at (heap_of w') (VRef ENERGY_DATA) rs' ∧
    (rs' = [] ∨ rs' = [] ++ [drawn_reading quiet_oracle (2 + ticks initial_world)]) ∧
    stdout w' = stdout initial_world ++ out ++ Line HEADER :: (bullet <$> advice rs').
Proof.
  apply (main_adds_at_most_one_reading quiet_oracle 0 initial_world []).
  - exists ENERGY_DATA, []. split_and!; [reflexivity|reflexivity|constructor|done].
  - done.
Defined.
